(** * asciimaze: the row generator (genmaze.cpp) and the solver (solmaze.cpp)

    A shallow embedding of the two programs and the properties of their
    row construction, rendering, parsing and search.

    Conventions.  A [uint] is a [Z] in [0, 2^32) and every arithmetic
    operation that can leave that range is written with its reduction
    [wrap].  Arrays are lists; loop counters that only index arrays are
    [nat].  A cell is a [Z] bit mask and a flag test [cell & F] is
    [has cell F]. *)

From Stdlib Require Import ZArith Ascii String DecimalString List Bool Lia Arith.
Import ListNotations.

#[local] Open Scope Z_scope.

(** ** Cells and flags (shared by both programs) *)

Definition EMPTY : Z := 0.
Definition UP : Z := 1.
Definition DOWN : Z := 2.
Definition LEFT : Z := 4.
Definition RIGHT : Z := 8.

(** Whitespace buffer on the left hand side of the maze. *)
Definition BUFFER : nat := 5.

(** [cell & flag] used as a condition. *)
Definition has (cell flag : Z) : bool := negb (Z.land cell flag =? 0).

(** Reduction of a value to [uint]. *)
Definition wrap (z : Z) : Z := z mod 2 ^ 32.

(** A [uint] read as a signed [int]. *)
Definition toInt (v : Z) : Z :=
  if wrap v <? 2 ^ 31 then wrap v else wrap v - 2 ^ 32.

(** [a[i] = v] on an array held as a list; the callers establish that
    [i] is inside the array. *)
Fixpoint upd {A : Type} (i : nat) (v : A) (l : list A) : list A :=
  match l, i with
  | [], _ => []
  | _ :: t, O => v :: t
  | h :: t, S j => h :: upd j v t
  end.

(** A counting loop [for (i = 0; i < n; i++) body], as a fold over the
    counter values. *)
Definition forUpTo {S : Type} (n : nat) (body : nat -> S -> S) (s : S) : S :=
  fold_left (fun acc i => body i acc) (seq 0 n) s.

(** The same loop when the body can fail to produce a state. *)
Definition forUpToM {S : Type} (n : nat) (body : nat -> S -> option S)
           (s : S) : option S :=
  fold_left (fun acc i => match acc with Some a => body i a | None => None end)
            (seq 0 n) (Some s).

(** Printed text is a list of characters; [lit] is a string literal
    given to [printf]. *)
Definition text : Type := list ascii.
Definition lit (s : string) : text := list_ascii_of_string s.

(** * The generator, genmaze.cpp *)

Module GenMaze.

(** The global variables of the program. *)
Record globals : Type := Globals {
  set : list Z;
  previousRow : list Z;
  row : list Z;
  width : nat;
  debugsets : bool;
  debugrows : bool
}.

Definition with_set (s : list Z) (g : globals) : globals :=
  Globals s (previousRow g) (row g) (width g) (debugsets g) (debugrows g).
Definition with_previousRow (p : list Z) (g : globals) : globals :=
  Globals (set g) p (row g) (width g) (debugsets g) (debugrows g).
Definition with_row (r : list Z) (g : globals) : globals :=
  Globals (set g) (previousRow g) r (width g) (debugsets g) (debugrows g).

(** [set[i]], [row[i]], [previousRow[i]]. *)
Definition setAt (g : globals) (i : nat) : Z := nth i (set g) 0.
Definition rowAt (g : globals) (i : nat) : Z := nth i (row g) 0.
Definition prevAt (g : globals) (i : nat) : Z := nth i (previousRow g) 0.

(** [row[i] |= flag]. *)
Definition orRow (i : nat) (flag : Z) (g : globals) : globals :=
  with_row (upd i (Z.lor (rowAt g i) flag) (row g)) g.

(** The three arrays have [width] cells, and [width] is a non-zero
    [uint]: what [main] establishes before the first row. *)
Definition wf (g : globals) : Prop :=
  (0 < width g)%nat /\ Z.of_nat (width g) < 2 ^ 32 /\
  length (set g) = width g /\ length (previousRow g) = width g /\
  length (row g) = width g.

(** ** outputASCII *)

(** [printf("%*d", 2, v)] of a [uint]: read as a signed [int], printed in
    decimal, right-justified in two columns. *)
Definition fmt_d2 (v : Z) : text :=
  let digits := lit (NilZero.string_of_int (Z.to_int (toInt v))) in
  repeat " "%char (2 - length digits) ++ digits.

Definition margin : text := repeat " "%char BUFFER.

(** One column of the top line: the two characters over the cell, then
    the boundary character. *)
Definition topCell (isFirst : bool) (g : globals) (r : nat) : text :=
  lit (if has (rowAt g r) UP then "  " else "__") ++
  (if has (prevAt g r) RIGHT && negb (has (rowAt g r) RIGHT)
   then lit " "
   else lit (if negb isFirst && negb (has (prevAt g r) RIGHT) then "|" else "_")).

Definition topLine (isFirst : bool) (g : globals) : text :=
  margin ++ lit (if isFirst then " " else "|") ++
  flat_map (topCell isFirst g) (seq 0 (width g)).

Definition middleCell (g : globals) (r : nat) : text :=
  (if debugsets g then fmt_d2 (setAt g r)
   else if debugrows g then fmt_d2 (rowAt g r)
   else lit "  ") ++
  lit (if has (rowAt g r) RIGHT then " " else "|").

Definition middleLine (g : globals) : text :=
  margin ++ lit "|" ++ flat_map (middleCell g) (seq 0 (width g)).

Definition bottomCell (g : globals) (r : nat) : text :=
  lit (if has (rowAt g r) LEFT then "_" else "|") ++ lit "__".

Definition bottomLine (g : globals) : text :=
  margin ++ flat_map (bottomCell g) (seq 0 (width g)) ++ lit "|".

(** The lines printed for one row, without their newlines. *)
Definition outputASCII (isLast isFirst : bool) (g : globals) : list text :=
  [topLine isFirst g; middleLine g] ++
  (if negb isLast then [] else [bottomLine g]).

(** ** outputBlock *)

Definition outputBlock (isLast : bool) (g : globals) : list text :=
  [flat_map (fun i => lit (if has (rowAt g i) UP then "X " else "XX"))
            (seq 0 (width g)) ++ lit "X";
   flat_map (fun i => lit (if has (rowAt g i) LEFT then "  " else "X "))
            (seq 0 (width g)) ++ lit "X"] ++
  (if negb isLast then []
   else [flat_map (fun _ => lit "XX") (seq 0 (width g)) ++ lit "X"]).

(** ** unionSet *)

(** Merge set [b] into set [a]. *)
Definition unionSet (a b : Z) (g : globals) : globals :=
  forUpTo (width g)
    (fun i g => if setAt g i =? b then with_set (upd i a (set g)) g else g) g.

(** ** makeRow *)

(** The search for the next set number: the [while (!foundNext)] loop
    around the scan of [set].  One round of the [while] is one unit of
    [fuel]; [None] is a search cut short by the fuel. *)
Fixpoint findNext (fuel : nat) (g : globals) (startingSetNum : Z) : option Z :=
  match fuel with
  | O => None
  | S fuel' =>
      if existsb (fun r => setAt g r =? startingSetNum) (seq 0 (width g))
      then findNext fuel' g (wrap (startingSetNum + 1))
      else Some startingSetNum
  end.

(** First loop, one column: save the previous row, keep the set of a
    cell that was going down, give any other cell the next set number.
    The state carries [startingSetNum]. *)
Definition resetCell (r : nat) (st : globals * Z) : option (globals * Z) :=
  let (g, startingSetNum) := st in
  let g := with_previousRow (upd r (rowAt g r) (previousRow g)) g in
  if has (rowAt g r) DOWN
  then Some (with_row (upd r UP (row g)) g, startingSetNum)
  else
    match findNext (S (width g)) g startingSetNum with
    | None => None
    | Some n =>
        let g := with_set (upd r n (set g)) g in
        Some (with_row (upd r EMPTY (row g)) g, n)
    end.

(** The first [k] columns of the first loop. *)
Definition resetUpTo (k : nat) (g : globals) : option (globals * Z) :=
  forUpToM k resetCell (g, 1).

Definition reset (g : globals) : option (globals * Z) :=
  resetUpTo (width g) g.

(** Second loop, one column.  [rand n] is the value of the [n]-th call
    of [rand()] in this [makeRow]; every column calls it twice. *)
Definition carveCell (rand : nat -> Z) (isLast : bool) (i : nat)
           (g : globals) : globals :=
  let g :=
    if Z.rem (rand (2 * i)%nat) 2 =? 1 then
      if (0 <? i)%nat && negb (setAt g i =? setAt g (i - 1)) then
        let g := orRow i LEFT g in
        let g := orRow (i - 1) RIGHT g in
        unionSet (setAt g i) (setAt g (i - 1)) g
      else g
    else g in
  if (Z.rem (rand (2 * i + 1)%nat) 2 =? 1) && negb isLast
  then orRow i DOWN g
  else g.

Definition carve (rand : nat -> Z) (isLast : bool) (g : globals) : globals :=
  forUpTo (width g) (carveCell rand isLast) g.

(** Third loop, one column: a set with no cell going down gets one. *)
Definition forceCell (r : nat) (g : globals) : globals :=
  if has (rowAt g r) DOWN then g
  else
    let mset := setAt g r in
    let goDown :=
      negb (existsb (fun i => (setAt g i =? mset) && has (rowAt g i) DOWN)
                    (seq 0 (width g))) in
    if goDown then orRow r DOWN g else g.

(** The first [k] columns of the third loop. *)
Definition forceUpTo (k : nat) (g : globals) : globals :=
  forUpTo k forceCell g.

Definition forceDown (g : globals) : globals := forceUpTo (width g) g.

(** Fourth loop, one column pair. *)
Definition closeCell (r : nat) (g : globals) : globals :=
  if setAt g r =? setAt g (r + 1) then g
  else
    let g := orRow r RIGHT g in
    let g := orRow (r + 1) LEFT g in
    unionSet (setAt g (r + 1)) (setAt g r) g.

(** The first [k] pairs of the fourth loop. *)
Definition closeUpTo (k : nat) (g : globals) : globals :=
  forUpTo k closeCell g.

(** The bound [width - 1] is computed on [uint]. *)
Definition closeLast (g : globals) : globals :=
  closeUpTo (Z.to_nat (wrap (Z.of_nat (width g) - 1))) g.

(** The state after the two carving loops. *)
Definition carved (rand : nat -> Z) (isLast : bool) (g : globals)
  : option globals :=
  match reset g with
  | None => None
  | Some (g, _) => Some (carve rand isLast g)
  end.

Definition makeRow (rand : nat -> Z) (isLast : bool) (g : globals)
  : option globals :=
  match carved rand isLast g with
  | None => None
  | Some g =>
      let g := if negb isLast then forceDown g else g in
      let g := if isLast then closeLast g else g in
      Some g
  end.

(** ** main: allocation and the row loop *)

Inductive MAZETYPE : Type := ASCII | BLOCK.

Definition init (w : nat) (ds dr : bool) : globals :=
  Globals (map (fun i => wrap (Z.of_nat i + Z.of_nat w + 1)) (seq 0 w))
          (repeat 0 w) (repeat 0 w) w ds dr.

(** Rows [i .. i + n - 1] of a maze of [height] rows; [rand] starts at
    the first call of row [i]. *)
Fixpoint rowsFrom (type : MAZETYPE) (height : nat) (n i : nat)
         (rand : nat -> Z) (g : globals) : option (list text) :=
  match n with
  | O => Some []
  | S n' =>
      let isLast := (i =? height - 1)%nat in
      let isFirst := (i =? 0)%nat in
      match makeRow rand isLast g with
      | None => None
      | Some g =>
          let out := match type with
                     | ASCII => outputASCII isLast isFirst g
                     | BLOCK => outputBlock isLast g
                     end in
          match rowsFrom type height n' (S i)
                         (fun k => rand (2 * width g + k)%nat) g with
          | None => None
          | Some rest => Some (out ++ rest)
          end
      end
  end.

(** The rows of a run: [type], [ds] and [dr] are the style and the two
    debug flags as [main]'s loop over the options leaves them (ASCII and
    false when no option is given), [w] and [height] the two sizes, not
    zero. *)
Definition generate (type : MAZETYPE) (ds dr : bool) (w height : nat)
           (rand : nat -> Z) : option (list text) :=
  rowsFrom type height height 0 rand (init w ds dr).

(** ** Vocabulary for the statements about the generator *)

(** The boundary character as the specification words it: a space, or
    else an underscore in both remaining cases. *)
Definition boundaryAsWorded (isFirst : bool) (above cell : Z) : ascii :=
  if has above RIGHT && negb (has cell RIGHT) then " "%char
  else if negb (has above RIGHT) && negb isFirst then "_"%char
  else "_"%char.

(** A set number is live when some column carries it. *)
Definition live (g : globals) (v : Z) : Prop :=
  exists r, (r < width g)%nat /\ setAt g r = v.

(** What one round of the first loop does to column [r] and to the
    counter, and that it leaves every other column alone. *)
Definition resetCellPost (r : nat) (g : globals) (n : Z)
           (g' : globals) (n' : Z) : Prop :=
  wf g' /\ width g' = width g /\ 0 <= n' < 2 ^ 32 /\
  debugsets g' = debugsets g /\ debugrows g' = debugrows g /\
  (forall j, j <> r ->
     rowAt g' j = rowAt g j /\ prevAt g' j = prevAt g j /\
     setAt g' j = setAt g j) /\
  prevAt g' r = rowAt g r /\
  (has (rowAt g r) DOWN = true ->
     rowAt g' r = UP /\ set g' = set g /\ n' = n) /\
  (has (rowAt g r) DOWN = false ->
     rowAt g' r = EMPTY /\ set g' = upd r n' (set g) /\ setAt g' r = n' /\
     exists k, (k <= width g)%nat /\ n' = wrap (n + Z.of_nat k) /\
               ~ live g n' /\
               forall j, (j < k)%nat -> live g (wrap (n + Z.of_nat j))).

(** The state after the first [k] columns of the first loop. *)
Definition resetInv (g : globals) (k : nat) (gk : globals) (nk : Z) : Prop :=
  wf gk /\ width gk = width g /\ 0 <= nk < 2 ^ 32 /\
  debugsets gk = debugsets g /\ debugrows gk = debugrows g /\
  (forall j, (k <= j)%nat ->
     rowAt gk j = rowAt g j /\ setAt gk j = setAt g j) /\
  (forall j, (j < k)%nat ->
     rowAt gk j = (if has (rowAt g j) DOWN then UP else EMPTY) /\
     prevAt gk j = rowAt g j /\
     (has (rowAt g j) DOWN = true -> setAt gk j = setAt g j)).

(** LEFT of a cell and RIGHT of its left neighbour agree, and no passage
    leaves the row at either end. *)
Definition hsym (g : globals) : Prop :=
  (forall i, (S i < width g)%nat ->
     has (rowAt g (S i)) LEFT = has (rowAt g i) RIGHT) /\
  has (rowAt g 0) LEFT = false /\
  has (rowAt g (width g - 1)) RIGHT = false.

(** [g'] is [g] with a passage opened between columns [i] and [i + 1]. *)
Definition opened (i : nat) (g g' : globals) : Prop :=
  wf g' /\ width g' = width g /\ set g' = set g /\
  forall j f, has (rowAt g' j) f
              = has (rowAt g j) f || ((i =? j)%nat && has RIGHT f)
                || ((S i =? j)%nat && has LEFT f).

(** No column of the set of column [c] goes down. *)
Definition noDown (g : globals) (c : nat) : Prop :=
  forall i, (i < width g)%nat -> setAt g i = setAt g c ->
            has (rowAt g i) DOWN = false.

(** Column [j] is the leftmost column of its set. *)
Definition firstOfSet (g : globals) (j : nat) : Prop :=
  forall i, (i < j)%nat -> setAt g i <> setAt g j.

(** The state after the first [k] rounds of the third loop, run on [g]. *)
Definition forceInv (g : globals) (k : nat) (gk : globals) : Prop :=
  wf gk /\ width gk = width g /\ set gk = set g /\ (hsym g -> hsym gk) /\
  (forall j, (k <= j)%nat -> rowAt gk j = rowAt g j) /\
  (forall j, (j < k)%nat ->
     exists i, (i < width g)%nat /\ setAt g i = setAt g j /\
               has (rowAt gk i) DOWN = true) /\
  (forall j, rowAt gk j = rowAt g j \/
             (rowAt gk j = Z.lor (rowAt g j) DOWN /\ (j < k)%nat /\
              noDown g j /\ firstOfSet g j)).

(** The state after the first [k] rounds of the fourth loop, run on
    [g]: columns [0 .. k] are in one set. *)
Definition closeInv (g : globals) (k : nat) (gk : globals) : Prop :=
  wf gk /\ width gk = width g /\ (hsym g -> hsym gk) /\
  forall i, (i <= k)%nat -> setAt gk i = setAt gk k.

(** ** Vocabulary for further statements about the generator *)

(** [g'] is [g] with flags among those of [mask] added to some cells of
    [row], and nothing else of [row] or [previousRow] changed. *)
Definition adds (mask : Z) (g g' : globals) : Prop :=
  wf g' /\ width g' = width g /\ previousRow g' = previousRow g /\
  debugsets g' = debugsets g /\ debugrows g' = debugrows g /\
  forall j, exists e, Z.land e mask = e /\ rowAt g' j = Z.lor (rowAt g j) e.

(** Two columns with a passage between them carry one set number. *)
Definition joined (g : globals) : Prop :=
  forall i, (S i < width g)%nat ->
    has (rowAt g i) RIGHT = true -> setAt g i = setAt g (S i).

(** The flags that the carving loops may add. *)
Definition carveMask (isLast : bool) : Z :=
  Z.lor (Z.lor LEFT RIGHT) (if isLast then EMPTY else DOWN).


(** The states that [main]'s loop goes through, one per row, as
    [rowsFrom] makes them, and the lines it prints for them in ruled
    style. *)
Fixpoint statesFrom (height : nat) (n i : nat) (rand : nat -> Z)
         (g : globals) : option (list globals) :=
  match n with
  | O => Some []
  | S n' =>
      match makeRow rand (i =? height - 1)%nat g with
      | None => None
      | Some g =>
          match statesFrom height n' (S i)
                           (fun k => rand (2 * width g + k)%nat) g with
          | None => None
          | Some rest => Some (g :: rest)
          end
      end
  end.



(** The middle line gives two characters to every cell: no set number
    is printed (a set number can take three characters and more), and a
    cell that is printed as a number is below 16. *)
Definition twoWide (g : globals) : Prop :=
  debugsets g = false /\
  (debugrows g = false \/ forall i, 0 <= rowAt g i < 16).

(** A row as the parser can take it back: well formed, printed without
    the set numbers, with agreeing horizontal flags, and made of the
    four flags. *)
Definition plain (w : nat) (g : globals) : Prop :=
  wf g /\ width g = w /\ debugsets g = false /\
  hsym g /\ forall i, (i < w)%nat -> 0 <= rowAt g i < 16.



(** ** Vocabulary for the statements about connection *)

(** Columns of the row [g], made from the state [g0], that are
    connected: by a passage to the right, or because both go up into
    columns of one set of [g0]. *)
Inductive rowConn (g0 g : globals) : nat -> nat -> Prop :=
| rc_refl c : rowConn g0 g c c
| rc_sym c1 c2 : rowConn g0 g c1 c2 -> rowConn g0 g c2 c1
| rc_trans c1 c2 c3 :
    rowConn g0 g c1 c2 -> rowConn g0 g c2 c3 -> rowConn g0 g c1 c3
| rc_right c :
    (S c < width g)%nat -> has (rowAt g c) RIGHT = true ->
    rowConn g0 g c (S c)
| rc_above c1 c2 :
    (c1 < width g0)%nat -> (c2 < width g0)%nat ->
    has (rowAt g0 c1) DOWN = true -> has (rowAt g0 c2) DOWN = true ->
    setAt g0 c1 = setAt g0 c2 -> rowConn g0 g c1 c2.

(** Columns of one set are connected. *)
Definition labelled (g0 g : globals) : Prop :=
  forall c1 c2, (c1 < width g)%nat -> (c2 < width g)%nat ->
                setAt g c1 = setAt g c2 -> rowConn g0 g c1 c2.

(** Cells [(row, column)] of the maze with the rows [sts] that are
    connected: the equivalence that the passages to the right and the
    passages down generate. *)
Inductive mazeConn (sts : list globals) : nat * nat -> nat * nat -> Prop :=
| mc_refl p : mazeConn sts p p
| mc_sym p q : mazeConn sts p q -> mazeConn sts q p
| mc_trans p q r : mazeConn sts p q -> mazeConn sts q r -> mazeConn sts p r
| mc_right r c g :
    nth_error sts r = Some g -> (S c < width g)%nat ->
    has (rowAt g c) RIGHT = true -> mazeConn sts (r, c) (r, S c)
| mc_down r c g :
    nth_error sts r = Some g -> (S r < length sts)%nat ->
    (c < width g)%nat ->
    has (rowAt g c) DOWN = true -> mazeConn sts (r, c) (S r, c).

(** Each of the states [sts] is made by [makeRow] from the one before
    it, the first one from [g]. *)
Fixpoint chained (height i : nat) (g : globals) (sts : list globals) : Prop :=
  match sts with
  | [] => True
  | g' :: rest =>
      (exists rand, makeRow rand (i =? height - 1)%nat g = Some g') /\
      chained height (S i) g' rest
  end.


(** ** Vocabulary for the statements about the number of passages *)

(** The set numbers of the columns, the number of sets, the same for
    the columns that go DOWN, the number of cells of a row with a flag,
    and the number of passages of a maze: each passage is counted once,
    at the cell to its left or above it. *)
Definition labels (g : globals) : list Z := map (setAt g) (seq 0 (width g)).

Definition sets (g : globals) : nat := length (nodup Z.eq_dec (labels g)).

Definition downLabels (g : globals) : list Z :=
  map (setAt g) (filter (fun c => has (rowAt g c) DOWN) (seq 0 (width g))).

Definition setsDown (g : globals) : nat :=
  length (nodup Z.eq_dec (downLabels g)).

Definition countFlag (f : Z) (g : globals) : nat :=
  length (filter (fun c => has (rowAt g c) f) (seq 0 (width g))).

Definition passages (sts : list globals) : nat :=
  list_sum (map (fun g => countFlag RIGHT g + countFlag DOWN g)%nat sts).

(** Passages and sets of a row under construction add up to [k]. *)
Definition balanced (k : nat) (g : globals) : Prop :=
  joined g /\ (countFlag RIGHT g + sets g = k)%nat.


(** The number of characters of a printed line, in either style. *)
Definition lineWidth (type : MAZETYPE) (w : nat) : nat :=
  match type with
  | ASCII => (3 * w + 6)%nat
  | BLOCK => (2 * w + 1)%nat
  end.


(** ** Concrete inputs for the further statements *)

(** A sequence of numbers that is odd at every second call: no passage
    is carved to the left, and every cell of a row that is not the last
    goes down. *)
Definition countingRand (n : nat) : Z := Z.of_nat n.

(** A state with three columns, the last two in one set, and a row of
    two cells with a passage between them. *)
Definition threeColumns : globals :=
  Globals [1; 2; 2] [0; 0; 0] [0; 0; 0] 3 false false.

Definition joinedPair : globals :=
  Globals [1; 1] [0; 0] [RIGHT; LEFT] 2 false false.

(** A sequence of numbers that is odd at the third call only: the
    second column is joined to the first, and no cell goes down by the
    numbers drawn. *)
Definition joinFirstTwo (n : nat) : Z := if (n =? 2)%nat then 1 else 0.

(** Two states with the sets 1, 2, 3 as a row has left them: in the
    first the middle column was going DOWN, in the second the two outer
    columns were. *)
Definition middleDown : globals :=
  Globals [1; 2; 3] [0; 0; 0] [0; DOWN; 0] 3 false false.

Definition outerDown : globals :=
  Globals [1; 2; 3] [0; 0; 0] [DOWN; 0; DOWN] 3 false false.

End GenMaze.

(** * The solver, solmaze.cpp *)

Module SolMaze.

(** Char to use when filling in the path. *)
Definition PATHMARKER : ascii := "X".
(** Number to use when a cell is marked as already checked. *)
Definition CHECKED : Z := 32.

(** What the C++ leaves undefined is a [Fault] here: an index outside a
    string, a list, a vector or a row, and the use of a null row. *)
Inductive fault : Type := OutOfRange | NullRow.

Inductive outcome (A : Type) : Type :=
| Ok (a : A)
| Fault (f : fault)
| OutOfFuel.
Arguments Ok {A} a.
Arguments Fault {A} f.
Arguments OutOfFuel {A}.

Definition bind {A B : Type} (o : outcome A) (k : A -> outcome B) : outcome B :=
  match o with
  | Ok a => k a
  | Fault f => Fault f
  | OutOfFuel => OutOfFuel
  end.

Notation "x <- e ;; k" := (bind e (fun x => k))
  (at level 61, e at next level, right associativity).
Notation "' p <- e ;; k" := (bind e (fun p => k))
  (at level 61, p pattern, e at next level, right associativity).

(** A counting loop whose body can fault. *)
Definition forUpToF {S : Type} (n : nat) (body : nat -> S -> outcome S)
           (s : S) : outcome S :=
  fold_left (fun acc i => bind acc (body i)) (seq 0 n) (Ok s).

(** Checked read [l[i]] and checked write [l[i] = v]. *)
Definition at_ {A : Type} (l : list A) (i : Z) : outcome A :=
  if (0 <=? i) && (i <? Z.of_nat (length l)) then
    match nth_error l (Z.to_nat i) with
    | Some v => Ok v
    | None => Fault OutOfRange
    end
  else Fault OutOfRange.

Definition store {A : Type} (l : list A) (i : Z) (v : A) : outcome (list A) :=
  if (0 <=? i) && (i <? Z.of_nat (length l)) then Ok (upd (Z.to_nat i) v l)
  else Fault OutOfRange.

(** [cells[i] |= flag]. *)
Definition orCell (cells : list Z) (i : Z) (flag : Z) : outcome (list Z) :=
  v <- at_ cells i ;; store cells i (Z.lor v flag).

(** [s[i] = ch] on a QString: a write past the end first extends the
    string with spaces. *)
Definition putChar (s : text) (i : Z) (ch : ascii) : outcome text :=
  if i <? 0 then Fault OutOfRange
  else
    let n := Z.to_nat i in
    Ok (upd n ch (s ++ repeat " "%char (S n - length s))).

(** [struct maze]; the field [list] is [lines] here. *)
Record maze : Type := Maze {
  lines : list text;
  width : Z;
  height : Z;
  rows : list (option (list Z));
  destX : Z;
  destY : Z
}.

Definition with_lines (l : list text) (m : maze) : maze :=
  Maze l (width m) (height m) (rows m) (destX m) (destY m).
Definition with_width (w : Z) (m : maze) : maze :=
  Maze (lines m) w (height m) (rows m) (destX m) (destY m).
Definition with_height (h : Z) (m : maze) : maze :=
  Maze (lines m) (width m) h (rows m) (destX m) (destY m).
Definition with_rows (r : list (option (list Z))) (m : maze) : maze :=
  Maze (lines m) (width m) (height m) r (destX m) (destY m).
Definition with_dest (x y : Z) (m : maze) : maze :=
  Maze (lines m) (width m) (height m) (rows m) x y.

(** ** convertRow *)

(** One round of the loop, on the row under construction. *)
Definition convertCell (a : option (list Z)) (b c : text) (i : nat)
           (row : list Z) : outcome (list Z) :=
  let i := Z.of_nat i in
  up <- match a with
        | None => Ok EMPTY
        | Some a => v <- at_ a i ;; Ok (if has v DOWN then UP else EMPTY)
        end ;;
  row <- store row i up ;;
  ch <- at_ c (wrap (i * 3 + Z.of_nat BUFFER + 1)) ;;
  row <- (if negb (Ascii.eqb ch "_") then orCell row i DOWN else Ok row) ;;
  ch <- at_ b (wrap (i * 3 + Z.of_nat BUFFER)) ;;
  if negb (Ascii.eqb ch "|") then
    row <- orCell row i LEFT ;;
    orCell row (wrap (i - 1)) RIGHT
  else Ok row.

(** The first [k] rounds of the loop, on an array [row] just allocated. *)
Definition convertUpTo (k : nat) (a : option (list Z)) (b c : text)
           (row : list Z) : outcome (list Z) :=
  forUpToF k (convertCell a b c) row.

(** The parameter [width] is a [uint].  [new short[width]] is taken as
    an array of zeros: every cell is assigned before it is read, and
    what the array held does not show in the result. *)
Definition convertRow (a : option (list Z)) (b c : text) (width : Z)
  : outcome (list Z) :=
  let width := Z.to_nat (wrap width) in
  convertUpTo width a b c (repeat 0 width).

(** ** read *)

(** [QVector::resize] and [QVector::insert]. *)
Definition resize {A : Type} (n : Z) (d : A) (l : list A) : list A :=
  firstn (Z.to_nat n) l ++ repeat d (Z.to_nat n - length l).

Definition insertAt {A : Type} (i : Z) (v : A) (l : list A) : outcome (list A) :=
  if (0 <=? i) && (i <=? Z.of_nat (length l))
  then Ok (firstn (Z.to_nat i) l ++ v :: skipn (Z.to_nat i) l)
  else Fault OutOfRange.

(** The body of the [while] loop for one line; the state carries
    [lineNumber]. *)
Definition readLine (line : text) (st : maze * Z) : outcome (maze * Z) :=
  let (m, lineNumber) := st in
  let m := with_lines (lines m ++ [line]) m in
  m <- (if lineNumber =? 1 then
          l1 <- at_ (lines m) 1 ;;
          Ok (with_width
                (wrap (Z.quot (Z.of_nat (length l1) - Z.of_nat BUFFER) 3)) m)
        else Ok m) ;;
  let odd := negb (Z.rem lineNumber 2 =? 0) in
  let lineNumber := wrap (lineNumber + 1) in
  if odd || (lineNumber <=? 2) then Ok (m, lineNumber)
  else
    lastRow <- (if 3 <? lineNumber
                then at_ (rows m) (toInt (wrap (lineNumber / 2 - 2)))
                else Ok None) ;;
    b <- at_ (lines m) (toInt (wrap (lineNumber - 2))) ;;
    c <- at_ (lines m) (toInt (wrap (lineNumber - 1))) ;;
    col <- convertRow lastRow b c (width m) ;;
    let m := if Z.of_nat (length (rows m)) <=? toInt (lineNumber / 2)
             then with_rows (resize (toInt (wrap (lineNumber * 4))) None (rows m)) m
             else m in
    r <- insertAt (toInt (wrap (lineNumber / 2 - 1))) (Some col) (rows m) ;;
    Ok (with_rows r m, lineNumber).

Fixpoint readLines (input : list text) (st : maze * Z) : outcome (maze * Z) :=
  match input with
  | [] => Ok st
  | line :: rest => st <- readLine line st ;; readLines rest st
  end.

(** [input] is the lines of the standard input. *)
Definition read (input : list text) (m : maze) : outcome maze :=
  '(m, lineNumber) <- readLines input (m, 0) ;;
  let m := with_rows (resize (toInt (lineNumber / 2)) None (rows m)) m in
  Ok (with_height (wrap (lineNumber / 2 - 1)) m).

(** ** write *)

Definition write (m : maze) : list text := lines m.

(** ** solutionCell *)

(** The arguments arrive as [int]. *)
Definition solutionCell (m : maze) (x y : Z) : outcome maze :=
  let x := toInt x in
  let y := toInt y in
  l <- at_ (lines m) (y * 2 + 1) ;;
  l <- putChar l (x * 3 + Z.of_nat BUFFER + 1) PATHMARKER ;;
  l <- putChar l (x * 3 + Z.of_nat BUFFER + 2) PATHMARKER ;;
  ls <- store (lines m) (y * 2 + 1) l ;;
  Ok (with_lines ls m).

(** ** solveMaze *)

(** [m->rows[y][x]] and [m->rows[y][x] = v]. *)
Definition cellAt (m : maze) (x y : Z) : outcome Z :=
  r <- at_ (rows m) (toInt y) ;;
  match r with
  | None => Fault NullRow
  | Some cells => at_ cells x
  end.

Definition setCell (m : maze) (x y v : Z) : outcome maze :=
  r <- at_ (rows m) (toInt y) ;;
  match r with
  | None => Fault NullRow
  | Some cells =>
      cells <- store cells x v ;;
      rs <- store (rows m) (toInt y) (Some cells) ;;
      Ok (with_rows rs m)
  end.

(** The result of a call: the value returned, the maze as the call
    leaves it, and (not in the program) the list of the cells at which a
    call got past the CHECKED test, in order. *)
Definition found : Type := bool * maze * list (Z * Z).

(** One of the four [if (...) foundEnd = solveMaze(...)]: [cond] is the
    condition as a function of [foundEnd], [call] the recursive call. *)
Definition attempt (cond : bool -> bool) (call : maze -> outcome found)
           (st : found) : outcome found :=
  let '(foundEnd, m, entered) := st in
  if cond foundEnd then
    '(foundEnd, m, entered') <- call m ;;
    Ok (foundEnd, m, entered ++ entered')
  else Ok st.

(** One unit of [fuel] is one level of recursion. *)
Fixpoint solveMaze (fuel : nat) (m : maze) (x y from : Z) : outcome found :=
  match fuel with
  | O => OutOfFuel
  | S fuel =>
      cell <- cellAt m x y ;;
      if has cell CHECKED then Ok (false, m, [])
      else
        m <- setCell m x y (Z.lor cell CHECKED) ;;
        if (x =? destX m) && (y =? destY m) then
          m <- solutionCell m x y ;;
          Ok (true, m, [(x, y)])
        else
          st <- attempt (fun _ => negb (from =? RIGHT) && has cell LEFT)
                  (fun m => solveMaze fuel m (wrap (x - 1)) y LEFT)
                  (false, m, [(x, y)]) ;;
          st <- attempt (fun foundEnd =>
                           negb foundEnd && (negb (from =? DOWN) && has cell UP))
                  (fun m => solveMaze fuel m x (wrap (y - 1)) UP) st ;;
          st <- attempt (fun foundEnd =>
                           negb foundEnd && (negb (from =? UP) && has cell DOWN))
                  (fun m => solveMaze fuel m x (wrap (y + 1)) DOWN) st ;;
          st <- attempt (fun foundEnd =>
                           negb foundEnd && (negb (from =? LEFT) && has cell RIGHT))
                  (fun m => solveMaze fuel m (wrap (x + 1)) y RIGHT) st ;;
          let '(foundEnd, m, entered) := st in
          if foundEnd then
            m <- solutionCell m x y ;;
            Ok (true, m, entered)
          else Ok (false, m, entered)
  end.

(** The number of cells of the grid that are not CHECKED. *)
Definition uncheckedIn (r : option (list Z)) : nat :=
  match r with
  | None => O
  | Some cells => length (filter (fun c => negb (has c CHECKED)) cells)
  end.

Definition unchecked (m : maze) : nat := list_sum (map uncheckedIn (rows m)).

(** ** main *)

(** What a run leaves behind: the two streams and the exit code. *)
Record run : Type := Run {
  stdout : list text;
  stderr : list text;
  exit : Z
}.

(** [readline(NULL)], which [read] calls for every line, copies the line
    that it reads to the standard output: the output of a run starts
    with the lines of its input, and what [write] prints comes after
    them. *)
Definition echoed (input : list text) : list text := input.

Definition main (input : list text) : outcome run :=
  let m := Maze [] 0 0 (resize 2 None []) 0 0 in
  m <- read input m ;;
  let m := with_dest (wrap (width m - 1)) 0 m in
  let startX := 0 in
  let startY := height m in
  '(isSolvable, m, _) <- solveMaze (S (unchecked m)) m startX startY EMPTY ;;
  let out := echoed input ++ (if isSolvable : bool then write m else []) in
  let err := if isSolvable then [] else [lit "No path found through maze."] in
  _ <- forUpToF (Z.to_nat (height m + 1))
         (fun row _ => _ <- at_ (rows m) (Z.of_nat row) ;; Ok tt) tt ;;
  Ok (Run out err (if isSolvable then 1 else 0)).

(** ** Vocabulary for the statements about the solver *)

(** What [convertRow] reads for column [i]: the separator to its left is
    not a bar, the floor under it is not an underscore, and the cell
    that the row above gives it. *)
Definition sepOpen (b : text) (i : nat) : bool :=
  match at_ b (wrap (Z.of_nat i * 3 + Z.of_nat BUFFER)) with
  | Ok ch => negb (Ascii.eqb ch "|")
  | _ => false
  end.

Definition floorOpen (c : text) (i : nat) : bool :=
  match at_ c (wrap (Z.of_nat i * 3 + Z.of_nat BUFFER + 1)) with
  | Ok ch => negb (Ascii.eqb ch "_")
  | _ => false
  end.

Definition upOf (a : option (list Z)) (i : nat) : Z :=
  match a with
  | None => EMPTY
  | Some a => if has (nth i a 0) DOWN then UP else EMPTY
  end.

(** The cell of column [i] at the end of its own round. *)
Definition cellOf (a : option (list Z)) (b c : text) (i : nat) : Z :=
  let v := upOf a i in
  let v := if floorOpen c i then Z.lor v DOWN else v in
  if sepOpen b i then Z.lor v LEFT else v.

(** The search as the specification words it: the permitted
    directions are the passages of the cell, in the order LEFT, UP,
    DOWN, RIGHT, without the reverse of [from]; they are tried until the
    first success. *)
Definition reverse (d : Z) : Z :=
  if d =? LEFT then RIGHT
  else if d =? RIGHT then LEFT
  else if d =? UP then DOWN
  else if d =? DOWN then UP
  else EMPTY.

Definition neighbour (x y d : Z) : Z * Z :=
  if d =? LEFT then (wrap (x - 1), y)
  else if d =? UP then (x, wrap (y - 1))
  else if d =? DOWN then (x, wrap (y + 1))
  else (wrap (x + 1), y).

Definition searchOrder : list Z := [LEFT; UP; DOWN; RIGHT].

Definition permitted (from cell : Z) : list Z :=
  filter (fun d => negb (d =? reverse from) && has cell d) searchOrder.

Fixpoint firstSuccess (call : Z -> maze -> outcome found) (dirs : list Z)
         (m : maze) : outcome found :=
  match dirs with
  | [] => Ok (false, m, [])
  | d :: rest =>
      '(ok, m, entered) <- call d m ;;
      if ok : bool then Ok (true, m, entered)
      else
        '(ok, m, entered') <- firstSuccess call rest m ;;
        Ok (ok, m, entered ++ entered')
  end.

Fixpoint searchAsWorded (fuel : nat) (m : maze) (x y from : Z)
  : outcome found :=
  match fuel with
  | O => OutOfFuel
  | S fuel =>
      cell <- cellAt m x y ;;
      if has cell CHECKED then Ok (false, m, [])
      else
        m <- setCell m x y (Z.lor cell CHECKED) ;;
        if (x =? destX m) && (y =? destY m) then
          m <- solutionCell m x y ;;
          Ok (true, m, [(x, y)])
        else
          '(ok, m, entered) <-
            firstSuccess
              (fun d m => searchAsWorded fuel m (fst (neighbour x y d))
                                         (snd (neighbour x y d)) d)
              (permitted from cell) m ;;
          if ok : bool then
            m <- solutionCell m x y ;;
            Ok (true, m, (x, y) :: entered)
          else Ok (false, m, (x, y) :: entered)
  end.

(** The two interior characters of cell [(x, y)] carry the path marker. *)
Definition marked (m : maze) (x y : Z) : Prop :=
  exists l,
    at_ (lines m) (toInt y * 2 + 1) = Ok l /\
    at_ l (toInt x * 3 + Z.of_nat BUFFER + 1) = Ok PATHMARKER /\
    at_ l (toInt x * 3 + Z.of_nat BUFFER + 2) = Ok PATHMARKER.

(** The conditional calls of [solveMaze] after the first, as a list of
    pairs of a condition and a call, and the first success among those
    whose condition holds. *)
Fixpoint attempts (gs : list (bool * (maze -> outcome found))) (st : found)
  : outcome found :=
  match gs with
  | [] => Ok st
  | (g, call) :: rest =>
      st <- attempt (fun foundEnd => negb foundEnd && g) call st ;;
      attempts rest st
  end.

Fixpoint firstOf (gs : list (bool * (maze -> outcome found))) (m : maze)
  : outcome found :=
  match gs with
  | [] => Ok (false, m, [])
  | (g, call) :: rest =>
      if g : bool then
        '(ok, m, entered) <- call m ;;
        if ok : bool then Ok (true, m, entered)
        else
          '(ok, m, entered') <- firstOf rest m ;;
          Ok (ok, m, entered ++ entered')
      else firstOf rest m
  end.

(** The cell at row [fst p] and column [snd p] of the grid, and the
    position that [solveMaze] indexes for the arguments [(x, y)]. *)
Definition cellN (m : maze) (p : nat * nat) : option Z :=
  match nth_error (rows m) (fst p) with
  | Some (Some cells) => nth_error cells (snd p)
  | _ => None
  end.

Definition pos (c : Z * Z) : nat * nat :=
  (Z.to_nat (toInt (snd c)), Z.to_nat (fst c)).

(** [m'] is [m] after a piece of the search that got past the CHECKED
    test at the positions [ps]: exactly those cells, all of them not
    CHECKED in [m], have gained CHECKED, each once. *)
Definition progress (m m' : maze) (ps : list (nat * nat)) : Prop :=
  destX m' = destX m /\ destY m' = destY m /\
  length (lines m') = length (lines m) /\
  (forall p, cellN m p = None -> cellN m' p = None) /\
  (forall p v, cellN m p = Some v -> ~ In p ps -> cellN m' p = Some v) /\
  (forall p, In p ps ->
     exists v, cellN m p = Some v /\ has v CHECKED = false /\
               cellN m' p = Some (Z.lor v CHECKED)) /\
  NoDup ps /\
  (unchecked m' + length ps = unchecked m)%nat.

(** [(x, y)] is a cell of the grid. *)
Definition inGrid (m : maze) (x y : Z) : Prop :=
  exists v, cellAt m x y = Ok v.

(** Every passage of a cell of the grid leads to a cell of the grid, and
    every cell of the grid has its line of text. *)
Definition closed (m : maze) : Prop :=
  forall x y v, cellAt m x y = Ok v ->
    0 <= toInt x /\
    0 <= toInt y * 2 + 1 < Z.of_nat (length (lines m)) /\
    (has v LEFT = true -> inGrid m (wrap (x - 1)) y) /\
    (has v UP = true -> inGrid m x (wrap (y - 1))) /\
    (has v DOWN = true -> inGrid m x (wrap (y + 1))) /\
    (has v RIGHT = true -> inGrid m (wrap (x + 1)) y).

(** What a call of [solveMaze] with [fuel] on [m] at [(x, y)] may
    return: a result after some progress; no result for lack of fuel
    only when the fuel does not exceed the number of cells not CHECKED;
    a fault only on a grid that is not closed or from outside it. *)
Definition outcomeOk (fuel : nat) (m : maze) (x y : Z) (r : outcome found)
  : Prop :=
  match r with
  | Ok (_, m', entered) => progress m m' (map pos entered)
  | OutOfFuel => (fuel <= unchecked m)%nat
  | Fault _ => ~ (closed m /\ inGrid m x y)
  end.

(** The same for the state of a call in progress at [(x, y)], which
    has already entered its own cell. *)
Definition chainOk (fuel : nat) (m : maze) (x y : Z) (r : outcome found)
  : Prop :=
  match r with
  | Ok (_, m', entered) =>
      progress m m' (map pos entered) /\ (1 <= length entered)%nat
  | OutOfFuel => (S fuel <= unchecked m)%nat
  | Fault _ => ~ (closed m /\ inGrid m x y)
  end.

(** A maze of one cell, which is its own destination, and a maze of two
    cells with a wall between them. *)
Definition oneCell : list text :=
  [lit "      ___"; lit "     |  |"; lit "     |__|"].

Definition twoCellsApart : list text :=
  [lit "      ______"; lit "     |  |  |"; lit "     |__|__|"].

(** The grid of [oneCell], before the search. *)
Definition oneCellMaze : maze := Maze oneCell 1 0 [Some [0]] 0 0.

(** The maze and its solution in the head of solmaze.cpp. *)
Definition headerMaze : list text :=
  [lit "      _______________________END";
   lit "     |     |        |        |";
   lit "     |__   |_____   |  ______|";
   lit "     |        |        |     |";
   lit "     |  ___   |_____   |     |";
   lit "     |  |  |           |  |  |";
   lit "     |  |  |  ___      |  |  |";
   lit "     |  |        |  |  |  |  |";
   lit "     |  |_____   |__|__|__|  |";
   lit "     |  |                    |";
   lit "Start|__|____________________|"].

Definition headerSolution : list text :=
  [lit "      _______________________END";
   lit "     |     |        |XX XX XX|";
   lit "     |__   |_____   |  ______|";
   lit "     |XX XX XX|      XX|     |";
   lit "     |  ___   |_____   |     |";
   lit "     |XX|  |XX XX XX XX|  |  |";
   lit "     |  |  |  ___      |  |  |";
   lit "     |XX|        |  |  |  |  |";
   lit "     |  |_____   |__|__|__|  |";
   lit "     |XX|                    |";
   lit "Start|__|____________________|"].

(** ** Vocabulary for further statements about the solver *)

(** The rows of a text, two lines at a time: the passage line of a row
    and the wall line under it, with the row above. *)
Fixpoint parseFrom (a : option (list Z)) (w : Z) (ls : list text)
  : outcome (list (list Z)) :=
  match ls with
  | b :: c :: rest =>
      r <- convertRow a b c w ;;
      rs <- parseFrom (Some r) w rest ;;
      Ok (r :: rs)
  | _ => Ok []
  end.

(** The maze that [main] hands to [read]. *)
Definition emptyMaze : maze := Maze [] 0 0 (resize 2 None []) 0 0.

(** The width that [read] takes from the second line. *)
Definition widthOf (l1 : text) : Z :=
  wrap (Z.quot (Z.of_nat (length l1) - Z.of_nat BUFFER) 3).

(** ** Vocabulary for the statements about paths *)

(** A passage of the cell [c] leads to [c']. *)
Definition passage (m : maze) (c c' : Z * Z) : Prop :=
  exists v d, cellAt m (fst c) (snd c) = Ok v /\ In d searchOrder /\
              has v d = true /\ c' = neighbour (fst c) (snd c) d.

(** The cells [c :: rest] go from [c] to [goal], each step by a passage
    of the cell it leaves. *)
Fixpoint linked (m : maze) (c : Z * Z) (rest : list (Z * Z)) (goal : Z * Z)
  : Prop :=
  match rest with
  | [] => c = goal
  | c1 :: rest' => passage m c c1 /\ linked m c1 rest' goal
  end.

Definition reach (m : maze) (c goal : Z * Z) : Prop :=
  exists rest, linked m c rest goal.

(** [solutionCell] on the cells of [p], the last one first. *)
Fixpoint stamp (p : list (Z * Z)) (m : maze) : outcome maze :=
  match p with
  | [] => Ok m
  | (x, y) :: rest => m <- stamp rest m ;; solutionCell m x y
  end.

Definition uint (z : Z) : Prop := 0 <= z < 2 ^ 32.

(** The cell [c] of the grid is CHECKED; no cell of the grid is. *)
Definition checkedAt (m : maze) (c : Z * Z) : Prop :=
  exists v, cellAt m (fst c) (snd c) = Ok v /\ has v CHECKED = true.

Definition unsearched (m : maze) : Prop :=
  forall p v, cellN m p = Some v -> has v CHECKED = false.


(** What a call of the search gives: on failure the lines are as they
    were; on success there is a way from the cell of the call to the
    destination, without repetition, among the cells entered, and the
    lines are those of the maze with that way stamped. *)
Definition resultOk (m : maze) (c : Z * Z) (r : found) : Prop :=
  let '(b, m', e) := r in
  if b : bool then
    exists rest ms,
      linked m c rest (destX m, destY m) /\
      stamp (c :: rest) m = Ok ms /\ lines m' = lines ms /\
      incl (c :: rest) e /\ NoDup (c :: rest)
  else lines m' = lines m.


(** What a call of the search that fails leaves behind: the cells it
    entered are not the destination, and every passage of a cell it
    entered leads to a CHECKED cell, but for the passage of the cell of
    the call that goes back where the call came from. *)
Definition failureOk (m : maze) (c : Z * Z) (from : Z) (m' : maze)
           (e : list (Z * Z)) : Prop :=
  (forall c', In c' e ->
     uint (fst c') /\ uint (snd c') /\ inGrid m (fst c') (snd c') /\
     c' <> (destX m, destY m)) /\
  (forall c' c1, In c' e -> passage m c' c1 ->
     (c' = c /\ In from searchOrder /\
      c1 = neighbour (fst c) (snd c) (reverse from)) \/
     checkedAt m' c1).


(** Two cells with a passage between them, the destination on the
    right, and the grid of [twoCellsApart] with the same destination. *)
Definition twoCellsJoined : list text :=
  [lit "      ______"; lit "     |     |"; lit "     |_____|"].

Definition twoCellsJoinedMaze : maze :=
  Maze twoCellsJoined 2 0 [Some [RIGHT; LEFT]] 1 0.

Definition twoCellsApartMaze : maze :=
  Maze twoCellsApart 2 0 [Some [EMPTY; EMPTY]] 1 0.



(** The maze that [main] searches, given the maze that [read] returns. *)
Definition toSearch (m : maze) : maze := with_dest (wrap (width m - 1)) 0 m.





(** The character at column [j] of line [k], and the two characters
    inside the cell [c]. *)
Definition charAt (ls : list text) (k j : Z) : outcome ascii :=
  l <- at_ ls k ;; at_ l j.

Definition interior (c : Z * Z) (k j : Z) : Prop :=
  k = toInt (snd c) * 2 + 1 /\
  (j = toInt (fst c) * 3 + Z.of_nat BUFFER + 1 \/
   j = toInt (fst c) * 3 + Z.of_nat BUFFER + 2).


(** Block style read the way [convertRow] reads ruled style: the
    character over the cell of column [r] on the wall line, and the
    character to its left on the cell line, is a space. *)
Definition blockOpenUp (l : text) (r : nat) : bool :=
  match nth_error l (2 * r + 1) with
  | Some ch => Ascii.eqb ch " "
  | None => false
  end.

Definition blockOpenLeft (l : text) (r : nat) : bool :=
  match nth_error l (2 * r) with
  | Some ch => Ascii.eqb ch " "
  | None => false
  end.


(** ** Concrete inputs for the further statements *)

(** What [main] leaves on [oneCell] and on [twoCellsApart], the maze of
    [twoCellsJoined] after a search from its left cell, the maze of
    [twoCellsApart] after one, and [oneCellMaze] with its cell
    stamped. *)
Definition oneCellRun : run :=
  Run [lit "      ___"; lit "     |  |"; lit "     |__|";
       lit "      ___"; lit "     |XX|"; lit "     |__|"] [] 1.


Definition twoCellsJoinedSolved : maze :=
  Maze [lit "      ______"; lit "     |XX XX|"; lit "     |_____|"] 2 0
       [Some [Z.lor RIGHT CHECKED; Z.lor LEFT CHECKED]] 1 0.

Definition twoCellsApartSearched : maze :=
  Maze twoCellsApart 2 0 [Some [Z.lor EMPTY CHECKED; EMPTY]] 1 0.

Definition oneCellStamped : maze :=
  Maze [lit "      ___"; lit "     |XX|"; lit "     |__|"] 1 0 [Some [0]] 0 0.


(** A maze of three by two cells with a cycle: the four cells on the
    left have no wall between them.  The search from the lower left
    cell goes up, right and down round the cycle, finds its own start
    CHECKED, and goes on to the right and up to the destination.
    [braidMaze] is the maze that [main] searches, [braidSolved] the
    maze as the search leaves it, [braidWay] the cells it enters. *)
Definition braid : list text :=
  [lit "      _________"; lit "     |     |  |"; lit "     |  _  |  |";
   lit "     |        |"; lit "     |________|"].

Definition braidMaze : maze :=
  Maze braid 3 1
       [Some [Z.lor RIGHT DOWN; Z.lor LEFT DOWN; DOWN];
        Some [Z.lor UP RIGHT; Z.lor (Z.lor UP LEFT) RIGHT; Z.lor UP LEFT]]
       2 0.

Definition braidSolved : maze :=
  Maze [lit "      _________"; lit "     |XX XX|XX|"; lit "     |  _  |  |";
        lit "     |XX XX XX|"; lit "     |________|"] 3 1
       [Some [Z.lor (Z.lor RIGHT DOWN) CHECKED; Z.lor (Z.lor LEFT DOWN) CHECKED;
              Z.lor DOWN CHECKED];
        Some [Z.lor (Z.lor UP RIGHT) CHECKED;
              Z.lor (Z.lor (Z.lor UP LEFT) RIGHT) CHECKED;
              Z.lor (Z.lor UP LEFT) CHECKED]]
       2 0.

Definition braidWay : list (Z * Z) :=
  [(0, 1); (0, 0); (1, 0); (1, 1); (2, 1); (2, 0)].

(** [twoCellsJoinedMaze] with its left cell CHECKED, as the call for the
    right cell finds it. *)
Definition twoCellsJoinedEntered : maze :=
  Maze twoCellsJoined 2 0 [Some [Z.lor RIGHT CHECKED; LEFT]] 1 0.


(** ** Vocabulary for the statements about a text read again *)

(** The line [b'] has every separator that [convertRow] reads in the
    line [b] for a row of [w] cells. *)
Definition sepSame (w : nat) (b b' : text) : Prop :=
  forall i ch, (i < w)%nat ->
    at_ b (wrap (Z.of_nat i * 3 + Z.of_nat BUFFER)) = Ok ch ->
    at_ b' (wrap (Z.of_nat i * 3 + Z.of_nat BUFFER)) = Ok ch.

(** Two texts, taken two lines at a time: the first line of each pair
    has the same separators, the second one is the same. *)
Inductive sameWalls (w : nat) : list text -> list text -> Prop :=
| sw_nil : sameWalls w [] []
| sw_one b b' : sameWalls w [b] [b']
| sw_pair b b' c rest rest' :
    sepSame w b b' -> sameWalls w rest rest' ->
    sameWalls w (b :: c :: rest) (b' :: c :: rest').


(** Two mazes with the same grid, destination and size, and as many
    lines; the lines of [m'] are those of [m] with the cells [q]
    stamped; and what a run of the search on [m] with the result [r]
    says of the same run on a maze [n] with the same grid. *)
Definition sameGrid (m n : maze) : Prop :=
  rows m = rows n /\ destX m = destX n /\ destY m = destY n /\
  width m = width n /\ height m = height n /\
  length (lines m) = length (lines n).




(** What [read] makes of [twoCellsJoined], and the maze that [main]
    searches for it with both cells stamped. *)
Definition twoCellsJoinedRead : maze :=
  Maze twoCellsJoined 2 0 [Some [RIGHT; LEFT]] 0 0.

Definition twoCellsJoinedStamped : maze :=
  Maze [lit "      ______"; lit "     |XX XX|"; lit "     |_____|"] 2 0
       [Some [RIGHT; LEFT]] 1 0.

End SolMaze.

(** * Facts on arrays, loops and flags *)

Lemma upd_length {A} (i : nat) (v : A) (l : list A) :
  length (upd i v l) = length l.
Proof.
  revert i; induction l as [|h t IH]; intros [|j]; simpl; auto.
Qed.

Lemma nth_upd_same {A} (i : nat) (v d : A) (l : list A) :
  (i < length l)%nat -> nth i (upd i v l) d = v.
Proof.
  revert i; induction l as [|h t IH]; intros [|j] H; simpl in *; try lia; auto.
  apply IH; lia.
Qed.

Lemma nth_upd_other {A} (i j : nat) (v d : A) (l : list A) :
  i <> j -> nth j (upd i v l) d = nth j l d.
Proof.
  revert i j; induction l as [|h t IH]; intros [|i] [|j] H; simpl; auto.
  congruence.
Qed.

Lemma forUpTo_S {S} (n : nat) (body : nat -> S -> S) (s : S) :
  forUpTo (Datatypes.S n) body s = body n (forUpTo n body s).
Proof.
  unfold forUpTo. rewrite seq_S, fold_left_app. reflexivity.
Qed.

Lemma forUpTo_0 {S} (body : nat -> S -> S) (s : S) : forUpTo 0 body s = s.
Proof. reflexivity. Qed.

(** Loop invariant rule: an invariant indexed by the number of
    iterations done. *)
Lemma forUpTo_ind {S} (P : nat -> S -> Prop) (n : nat)
      (body : nat -> S -> S) (s : S) :
  P O s ->
  (forall i acc, (i < n)%nat -> P i acc -> P (Datatypes.S i) (body i acc)) ->
  P n (forUpTo n body s).
Proof.
  intros H0 Hstep.
  assert (G : forall k, (k <= n)%nat -> P k (forUpTo k body s)).
  { induction k as [|k IH]; intros Hk.
    - exact H0.
    - rewrite forUpTo_S. apply Hstep; [lia | apply IH; lia]. }
  apply G; lia.
Qed.

(** [cell |= F] then [cell & G]. *)
Lemma has_lor (c f g : Z) : has (Z.lor c f) g = has c g || has f g.
Proof.
  unfold has. rewrite Z.land_lor_distr_l.
  destruct (Z.land c g =? 0) eqn:E1, (Z.land f g =? 0) eqn:E2; simpl;
    rewrite ?negb_true_iff, ?negb_false_iff, ?Z.eqb_eq, ?Z.eqb_neq in *.
  - rewrite E1, E2. reflexivity.
  - rewrite E1. simpl. exact E2.
  - intros H. apply Z.lor_eq_0_iff in H. tauto.
  - intros H. apply Z.lor_eq_0_iff in H. tauto.
Qed.

(** * The generator: rendering *)

Section Rendering.
Import GenMaze.

Lemma topCell_length isFirst g r : length (topCell isFirst g r) = 3%nat.
Proof.
  unfold topCell.
  destruct (has (rowAt g r) UP), (has (prevAt g r) RIGHT),
    (has (rowAt g r) RIGHT), isFirst; reflexivity.
Qed.

(** Indexing into a line made of chunks of equal length. *)
Lemma nth_error_chunks {A} (f : nat -> list A) (c : nat) :
  (forall i, length (f i) = c) ->
  forall n s r k, (r < n)%nat -> (k < c)%nat ->
  nth_error (flat_map f (seq s n)) (c * r + k) = nth_error (f (s + r)%nat) k.
Proof.
  intros Hlen. induction n as [|n IH]; intros s r k Hr Hk; [lia|].
  simpl. destruct r as [|r].
  - rewrite Nat.mul_0_r, Nat.add_0_r. simpl.
    apply nth_error_app1. rewrite Hlen. exact Hk.
  - rewrite nth_error_app2 by (rewrite Hlen; nia).
    rewrite Hlen.
    replace (c * S r + k - c)%nat with (c * r + k)%nat by nia.
    rewrite IH by lia. f_equal. f_equal. lia.
Qed.

Lemma topLine_column isFirst g r k :
  (r < width g)%nat -> (k < 3)%nat ->
  nth_error (topLine isFirst g) (BUFFER + 1 + 3 * r + k)
  = nth_error (topCell isFirst g r) k.
Proof.
  intros Hr Hk. unfold topLine.
  rewrite nth_error_app2 by (unfold margin; rewrite repeat_length; lia).
  unfold margin. rewrite repeat_length.
  rewrite nth_error_app2 by (destruct isFirst; simpl; lia).
  replace (BUFFER + 1 + 3 * r + k - BUFFER
           - length (lit (if isFirst then " " else "|")))%nat
    with (3 * r + k)%nat by (destruct isFirst; simpl; lia).
  rewrite (nth_error_chunks (topCell isFirst g) 3 (topCell_length isFirst g))
    by assumption.
  reflexivity.
Qed.

(** C3, as the code has it.  On the top line that [outputASCII] prints,
    the boundary character of column [r] is a space when the cell above
    has RIGHT and the cell lacks it; otherwise a vertical bar when the
    cell above lacks RIGHT and the row is not the first; otherwise an
    underscore. *)
Theorem outputASCII_boundary (isLast isFirst : bool) (g : globals) (r : nat) :
  (r < width g)%nat ->
  exists top rest,
    outputASCII isLast isFirst g = top :: rest /\
    nth_error top (BUFFER + 1 + 3 * r + 2)
    = Some (if has (prevAt g r) RIGHT && negb (has (rowAt g r) RIGHT)
            then " "%char
            else if negb (has (prevAt g r) RIGHT) && negb isFirst
                 then "|"%char
                 else "_"%char).
Proof.
  intros Hr. exists (topLine isFirst g). eexists. split; [reflexivity|].
  rewrite topLine_column by lia.
  unfold topCell.
  destruct (has (rowAt g r) UP), (has (prevAt g r) RIGHT),
    (has (rowAt g r) RIGHT), isFirst; reflexivity.
Qed.

(** C3 on the second row of the maze of width 1 and height 2. *)
Lemma outputASCII_boundary_witness :
  exists top rest,
    outputASCII true false (Globals [1] [DOWN] [UP] 1 false false)
    = top :: rest /\
    nth_error top 8 = Some "|"%char.
Proof.
  apply (outputASCII_boundary true false
           (Globals [1] [DOWN] [UP] 1 false false) 0).
  simpl. lia.
Defined.

(** C3, as worded, fails: the second row of the maze of width 1 and
    height 2 has no RIGHT above its only cell, and its top line, the
    third line printed, ends in a vertical bar, not in an underscore. *)
Lemma outputASCII_boundary_not_as_worded :
  generate ASCII false false 1 2 (fun _ => 0)
  = Some [lit "      ___"; lit "     |  |"; lit "     |  |"; lit "     |  |";
          lit "     |__|"] /\
  makeRow (fun _ => 0) true (Globals [1] [0] [DOWN] 1 false false)
  = Some (Globals [1] [DOWN] [UP] 1 false false) /\
  nth_error (hd [] (outputASCII true false
                      (Globals [1] [DOWN] [UP] 1 false false))) 8
  = Some "|"%char /\
  nth_error (hd [] (outputASCII true false
                      (Globals [1] [DOWN] [UP] 1 false false))) 8
  <> Some (boundaryAsWorded false DOWN UP).
Proof. repeat split. discriminate. Qed.

End Rendering.

(** * The generator: the arrays under the row operations *)

Section Arrays.
Import GenMaze.

Lemma rowAt_orRow_same i f g :
  (i < length (row g))%nat -> rowAt (orRow i f g) i = Z.lor (rowAt g i) f.
Proof. intros H. unfold orRow, rowAt. simpl. apply nth_upd_same, H. Qed.

Lemma rowAt_orRow_other i j f g : i <> j -> rowAt (orRow i f g) j = rowAt g j.
Proof. intros H. unfold orRow, rowAt. simpl. apply nth_upd_other, H. Qed.

Lemma has_orRow i j f f' g :
  (i < length (row g))%nat ->
  has (rowAt (orRow i f g) j) f'
  = has (rowAt g j) f' || ((i =? j)%nat && has f f').
Proof.
  intros H. destruct (Nat.eqb_spec i j) as [->|Hne].
  - rewrite rowAt_orRow_same, has_lor by exact H. reflexivity.
  - rewrite rowAt_orRow_other by exact Hne. simpl. now rewrite orb_false_r.
Qed.

Lemma length_orRow i f g : length (row (orRow i f g)) = length (row g).
Proof. unfold orRow, with_row. simpl. apply upd_length. Qed.

Lemma wf_orRow i f g : wf g -> wf (orRow i f g).
Proof.
  unfold wf, orRow. simpl. rewrite upd_length. tauto.
Qed.

(** [unionSet] rewrites every [b] of [set] to [a] and nothing else. *)
Lemma unionSet_steps a b g k :
  length (set g) = width g -> (k <= width g)%nat ->
  let g' := forUpTo k
              (fun i g => if setAt g i =? b then with_set (upd i a (set g)) g
                          else g) g in
  row g' = row g /\ previousRow g' = previousRow g /\ width g' = width g /\
  debugsets g' = debugsets g /\ debugrows g' = debugrows g /\
  length (set g') = width g /\
  forall j, setAt g' j =
            if (j <? k)%nat then (if setAt g j =? b then a else setAt g j)
            else setAt g j.
Proof.
  intros Hlen. induction k as [|k IH]; intros Hk.
  - simpl. repeat split; auto.
  - rewrite forUpTo_S. specialize (IH ltac:(lia)). cbv zeta in IH.
    destruct IH as (Hr & Hp & Hw & Hds & Hdr & Hl & Hs).
    cbv zeta.
    match goal with |- context [forUpTo k ?f g] => set (gk := forUpTo k f g) in * end.
    pose proof (Hs k) as Hsk. rewrite Nat.ltb_irrefl in Hsk.
    destruct (setAt gk k =? b) eqn:E.
    + unfold with_set; simpl. rewrite upd_length. repeat split; auto.
      intros j. unfold setAt at 1. simpl.
      destruct (Nat.eq_dec k j) as [<-|Hne].
      * rewrite nth_upd_same by lia.
        replace (k <? S k)%nat with true by (symmetry; apply Nat.ltb_lt; lia).
        rewrite <- Hsk, E. reflexivity.
      * rewrite nth_upd_other by exact Hne. fold (setAt gk j). rewrite Hs.
        replace (j <? S k)%nat with (j <? k)%nat; [reflexivity|].
        destruct (Nat.ltb_spec j k), (Nat.ltb_spec j (S k)); auto; lia.
    + repeat split; auto. intros j. rewrite Hs.
      destruct (Nat.ltb_spec j k), (Nat.ltb_spec j (S k)); auto; try lia.
      assert (j = k) by lia. subst j. rewrite <- Hsk, E. reflexivity.
Qed.

Lemma unionSet_spec a b g :
  length (set g) = width g ->
  let g' := unionSet a b g in
  row g' = row g /\ previousRow g' = previousRow g /\ width g' = width g /\
  debugsets g' = debugsets g /\ debugrows g' = debugrows g /\
  length (set g') = width g /\
  forall j, (j < width g)%nat ->
            setAt g' j = if setAt g j =? b then a else setAt g j.
Proof.
  intros Hlen. unfold unionSet.
  destruct (unionSet_steps a b g (width g) Hlen (Nat.le_refl _))
    as (Hr & Hp & Hw & Hds & Hdr & Hl & Hs).
  repeat split; auto.
  intros j Hj. rewrite Hs.
  replace (j <? width g)%nat with true by (symmetry; apply Nat.ltb_lt; lia).
  reflexivity.
Qed.

End Arrays.

(** * The generator: the first loop of makeRow *)

Section Reset.
Import GenMaze.

Lemma scan_live g v :
  existsb (fun r => setAt g r =? v) (seq 0 (width g)) = true <-> live g v.
Proof.
  rewrite existsb_exists. split.
  - intros (r & Hin & E). apply in_seq in Hin. apply Z.eqb_eq in E.
    exists r. split; [lia | exact E].
  - intros (r & Hr & E). exists r. split.
    + apply in_seq. lia.
    + apply Z.eqb_eq, E.
Qed.

Lemma wrap_range z : 0 <= wrap z < 2 ^ 32.
Proof. unfold wrap. apply Z.mod_pos_bound. lia. Qed.

Lemma wrap_small z : 0 <= z < 2 ^ 32 -> wrap z = z.
Proof. unfold wrap. intros H. apply Z.mod_small, H. Qed.

Lemma wrap_shift n j :
  wrap (wrap (n + 1) + Z.of_nat j) = wrap (n + Z.of_nat (S j)).
Proof.
  unfold wrap. rewrite Z.add_mod_idemp_l by lia. f_equal. lia.
Qed.

(** The search stops at the first number, counting up from the start
    with wrap-around, that no column carries. *)
Lemma findNext_some fuel g n v :
  0 <= n < 2 ^ 32 ->
  findNext fuel g n = Some v ->
  exists k, (k < fuel)%nat /\ v = wrap (n + Z.of_nat k) /\ ~ live g v /\
            forall j, (j < k)%nat -> live g (wrap (n + Z.of_nat j)).
Proof.
  revert n. induction fuel as [|fuel IH]; intros n Hn H; simpl in H; [discriminate|].
  destruct (existsb _ _) eqn:E.
  - apply IH in H; [|apply wrap_range].
    destruct H as (k & Hk & Hv & Hnl & Hprev).
    exists (S k). split; [lia|]. split.
    + rewrite Hv. apply wrap_shift.
    + split; [exact Hnl|]. intros [|j] Hj.
      * replace (n + Z.of_nat 0) with n by lia. rewrite wrap_small by exact Hn.
        apply scan_live, E.
      * rewrite <- wrap_shift. apply Hprev. lia.
  - injection H as <-. exists O. split; [lia|]. split.
    + replace (n + Z.of_nat 0) with n by lia. symmetry. apply wrap_small, Hn.
    + split; [|intros j Hj; lia].
      intros Hl. apply scan_live in Hl. congruence.
Qed.

Lemma findNext_none fuel g n :
  0 <= n < 2 ^ 32 ->
  findNext fuel g n = None ->
  forall j, (j < fuel)%nat -> live g (wrap (n + Z.of_nat j)).
Proof.
  revert n. induction fuel as [|fuel IH]; intros n Hn H j Hj; [lia|].
  simpl in H. destruct (existsb _ _) eqn:E; [|discriminate].
  destruct j as [|j].
  - replace (n + Z.of_nat 0) with n by lia. rewrite wrap_small by exact Hn.
    apply scan_live, E.
  - rewrite <- wrap_shift. apply (IH _ (wrap_range _) H). lia.
Qed.

Lemma wrap_offsets_NoDup n c :
  Z.of_nat c <= 2 ^ 32 ->
  NoDup (map (fun j => wrap (n + Z.of_nat j)) (seq 0 c)).
Proof.
  intros Hc. induction c as [|c IH]; [constructor|].
  rewrite seq_S, map_app. simpl.
  apply NoDup_app; [apply IH; lia | repeat constructor; intros [] |].
  intros v Hin [Hv|[]]. apply in_map_iff in Hin. destruct Hin as (j & Hj & Hin).
  apply in_seq in Hin. rewrite <- Hv in Hj. unfold wrap in Hj.
  assert (D : (Z.of_nat c - Z.of_nat j) mod 2 ^ 32 = 0).
  { replace (Z.of_nat c - Z.of_nat j)
      with ((n + Z.of_nat c) - (n + Z.of_nat j)) by lia.
    rewrite Zminus_mod, Hj, Z.sub_diag. reflexivity. }
  rewrite Z.mod_small in D by lia. lia.
Qed.

(** With one round per column and one more, the search always ends:
    [width + 1] numbers in a row cannot all be carried by [width]
    columns. *)
Lemma findNext_total g n :
  Z.of_nat (width g) < 2 ^ 32 -> 0 <= n < 2 ^ 32 ->
  exists v, findNext (S (width g)) g n = Some v.
Proof.
  intros Hw Hn. destruct (findNext (S (width g)) g n) as [v|] eqn:E; [eauto|].
  exfalso.
  pose proof (findNext_none _ _ _ Hn E) as Hall.
  assert (Hincl : incl (map (fun j => wrap (n + Z.of_nat j)) (seq 0 (S (width g))))
                       (map (setAt g) (seq 0 (width g)))).
  { intros v Hin. apply in_map_iff in Hin. destruct Hin as (j & <- & Hin).
    apply in_seq in Hin. destruct (Hall j ltac:(lia)) as (r & Hr & Er).
    apply in_map_iff. exists r. split; [exact Er | apply in_seq; lia]. }
  apply NoDup_incl_length in Hincl; [|apply wrap_offsets_NoDup; lia].
  rewrite !length_map, !length_seq in Hincl. lia.
Qed.

Lemma forUpToM_S {S} (n : nat) (body : nat -> S -> option S) (s : S) :
  forUpToM (Datatypes.S n) body s
  = match forUpToM n body s with Some a => body n a | None => None end.
Proof.
  unfold forUpToM. rewrite seq_S, fold_left_app. reflexivity.
Qed.

Lemma resetCell_spec r g n :
  wf g -> (r < width g)%nat -> 0 <= n < 2 ^ 32 ->
  exists g' n', resetCell r (g, n) = Some (g', n') /\ resetCellPost r g n g' n'.
Proof.
  intros (Hpos & Hw & Hls & Hlp & Hlr) Hr Hn.
  unfold resetCell.
  set (g1 := with_previousRow (upd r (rowAt g r) (previousRow g)) g).
  assert (Hrow1 : rowAt g1 r = rowAt g r) by reflexivity.
  rewrite Hrow1.
  assert (Hprev1 : forall j, prevAt g1 j
                             = if (r =? j)%nat then rowAt g r else prevAt g j).
  { intros j. unfold prevAt, g1. simpl. destruct (Nat.eqb_spec r j) as [<-|Hne].
    - apply nth_upd_same. lia.
    - apply nth_upd_other, Hne. }
  assert (Hprev_other : forall j, j <> r -> prevAt g1 j = prevAt g j).
  { intros j Hj. rewrite Hprev1. destruct (Nat.eqb_spec r j); congruence. }
  assert (Hprev_same : prevAt g1 r = rowAt g r).
  { rewrite Hprev1, Nat.eqb_refl. reflexivity. }
  assert (Hwf1 : forall s c, length s = width g -> length c = width g ->
                 wf (Globals s (previousRow g1) c (width g)
                             (debugsets g) (debugrows g))).
  { intros s c Hs Hc. unfold wf, g1. simpl. rewrite upd_length. auto. }
  destruct (has (rowAt g r) DOWN) eqn:Ed.
  - eexists _, _. split; [reflexivity|]. unfold resetCellPost.
    split. { apply Hwf1; [exact Hls | simpl; rewrite upd_length; exact Hlr]. }
    split; [reflexivity|]. split; [exact Hn|].
    split; [reflexivity|]. split; [reflexivity|].
    split.
    { intros j Hj. split; [|split].
      - unfold rowAt. simpl. apply nth_upd_other. auto.
      - apply Hprev_other, Hj.
      - reflexivity. }
    split; [exact Hprev_same|].
    split; [|intros H; congruence].
    intros _. split; [|split; reflexivity].
    unfold rowAt. simpl. apply nth_upd_same. lia.
  - destruct (findNext_total g1 n Hw Hn) as (v & Ev).
    rewrite Ev.
    apply findNext_some in Ev; [|exact Hn].
    destruct Ev as (k & Hk & Hv & Hnl & Hprev).
    eexists _, _. split; [reflexivity|]. unfold resetCellPost.
    split. { apply Hwf1; simpl; rewrite upd_length; assumption. }
    split; [reflexivity|].
    split. { rewrite Hv. apply wrap_range. }
    split; [reflexivity|]. split; [reflexivity|].
    split.
    { intros j Hj. split; [|split].
      - unfold rowAt. simpl. apply nth_upd_other. auto.
      - apply Hprev_other, Hj.
      - unfold setAt. simpl. apply nth_upd_other. auto. }
    split; [exact Hprev_same|].
    split; [intros H; congruence|].
    intros _. split; [|split; [reflexivity|split]].
    + unfold rowAt. simpl. apply nth_upd_same. lia.
    + unfold setAt. simpl. apply nth_upd_same. lia.
    + exists k. change (width g1) with (width g) in Hk.
      split; [lia|]. split; [exact Hv|]. split.
      * exact Hnl.
      * exact Hprev.
Qed.

Lemma resetUpTo_inv g k :
  wf g -> (k <= width g)%nat ->
  exists gk nk, resetUpTo k g = Some (gk, nk) /\ resetInv g k gk nk.
Proof.
  intros Hwf. induction k as [|k IH]; intros Hk.
  - exists g, 1. split; [reflexivity|]. unfold resetInv.
    repeat split; auto; try lia; try apply Hwf.
  - destruct (IH ltac:(lia)) as (gk & nk & Ek & Hwfk & Hwk & Hnk & Hds & Hdr & Hge & Hlt).
    destruct (resetCell_spec k gk nk Hwfk ltac:(lia) Hnk)
      as (g' & n' & E' & Hwf' & Hw' & Hn' & Hds' & Hdr' & Hoth & Hp & Hdown & Hfresh).
    exists g', n'. split.
    { unfold resetUpTo in *. rewrite forUpToM_S, Ek. exact E'. }
    destruct (Hge k (Nat.le_refl _)) as (Hrk & Hsk).
    unfold resetInv.
    split; [exact Hwf'|]. split; [congruence|]. split; [exact Hn'|].
    split; [congruence|]. split; [congruence|]. split.
    + intros j Hj. destruct (Hoth j ltac:(lia)) as (-> & _ & ->).
      apply Hge. lia.
    + intros j Hj. destruct (Nat.eq_dec j k) as [->|Hne].
      * split; [|split].
        -- rewrite <- Hrk. destruct (has (rowAt gk k) DOWN).
           ++ apply Hdown; reflexivity.
           ++ apply Hfresh; reflexivity.
        -- rewrite Hp. exact Hrk.
        -- intros Hd. rewrite <- Hrk in Hd. destruct (Hdown Hd) as (_ & Hs & _).
           unfold setAt. rewrite Hs. apply Hsk.
      * destruct (Hoth j Hne) as (-> & -> & ->). apply Hlt. lia.
Qed.

(** A set number given in the first loop stays where it was put: the
    later rounds write other columns only. *)
Lemma resetUpTo_later g r g' n' :
  wf g -> resetUpTo (S r) g = Some (g', n') ->
  forall k, (S r <= k)%nat -> (k <= width g)%nat ->
    exists gk nk, resetUpTo k g = Some (gk, nk) /\ setAt gk r = setAt g' r.
Proof.
  intros Hwf E k Hk. induction Hk as [|k Hk IH]; intros Hkw.
  - exists g', n'. split; [exact E | reflexivity].
  - destruct (IH ltac:(lia)) as (gk & nk & Ek & Hs).
    destruct (resetUpTo_inv g k Hwf ltac:(lia))
      as (gk' & nk' & Ek' & Hwfk & Hwk & Hnk & _).
    assert (Eg : gk' = gk) by congruence.
    assert (En : nk' = nk) by congruence.
    subst gk' nk'.
    destruct (resetCell_spec k gk nk Hwfk ltac:(lia) Hnk)
      as (g2 & n2 & E2 & _ & _ & _ & _ & _ & Hoth & _).
    exists g2, n2. split.
    + unfold resetUpTo in *. rewrite forUpToM_S, Ek. exact E2.
    + destruct (Hoth r ltac:(lia)) as (_ & _ & ->). exact Hs.
Qed.

(** C4.  [makeRow], started on any well-formed state, runs its first
    loop [reset] to the end and carves the state [g1] that the loop
    leaves.  In that loop the round for column [r] is reached with a
    counter [nr] left by the rounds before it (1 before the first), and
    the counter [n'] it leaves is the one the next round starts from.
    A column that was going DOWN keeps its set and leaves the counter
    as it was.  A column that was not going DOWN is given [n'], and
    carries it when the loop is over; [n'] is reached from [nr] by [k]
    increments, every number passed on the way is carried by some
    column, and [n'] itself is carried by no column at that moment:
    unless the counter has wrapped around, [n'] is the lowest number
    from [nr] on that no column carries. *)
Theorem makeRow_fresh_label (rand : nat -> Z) (isLast : bool) (g : globals)
        (r : nat) :
  wf g -> (r < width g)%nat ->
  exists g1 n1 gr nr g' n',
    reset g = Some (g1, n1) /\
    carved rand isLast g = Some (carve rand isLast g1) /\
    makeRow rand isLast g
    = Some (if isLast then closeLast (carve rand isLast g1)
            else forceDown (carve rand isLast g1)) /\
    resetUpTo r g = Some (gr, nr) /\
    (r = 0%nat -> nr = 1) /\
    resetCell r (gr, nr) = Some (g', n') /\
    resetUpTo (S r) g = Some (g', n') /\
    rowAt gr r = rowAt g r /\
    (has (rowAt g r) DOWN = true ->
       set g' = set gr /\ n' = nr /\ setAt g1 r = setAt g r) /\
    (has (rowAt g r) DOWN = false ->
       set g' = upd r n' (set gr) /\ setAt g' r = n' /\ setAt g1 r = n' /\
       ~ live gr n' /\
       (exists k, n' = wrap (nr + Z.of_nat k) /\
                  forall j, (j < k)%nat ->
                            live gr (wrap (nr + Z.of_nat j))) /\
       (nr <= n' -> forall v, nr <= v < n' -> live gr v)).
Proof.
  intros Hwf Hr.
  destruct (resetUpTo_inv g r Hwf ltac:(lia))
    as (gr & nr & Er & Hwfr & Hwr & Hnr & _ & _ & Hge & _).
  destruct (resetCell_spec r gr nr Hwfr ltac:(lia) Hnr)
    as (g' & n' & E' & _ & _ & Hn' & _ & _ & _ & _ & Hdown & Hfresh).
  destruct (Hge r (Nat.le_refl _)) as (Hrr & Hsr).
  assert (ES : resetUpTo (S r) g = Some (g', n')).
  { unfold resetUpTo in *. rewrite forUpToM_S, Er. exact E'. }
  destruct (resetUpTo_later g r g' n' Hwf ES (width g) ltac:(lia)
              (Nat.le_refl _)) as (g1 & n1 & E1 & Hkeep).
  fold (reset g) in E1.
  exists g1, n1, gr, nr, g', n'.
  split; [exact E1|]. split; [unfold carved; rewrite E1; reflexivity|].
  split.
  { unfold makeRow, carved. rewrite E1. destruct isLast; reflexivity. }
  split; [exact Er|]. split.
  { intros ->. cbv [resetUpTo forUpToM seq fold_left] in Er. congruence. }
  split; [exact E'|]. split; [exact ES|].
  split; [exact Hrr|]. split.
  - intros Hd. rewrite <- Hrr in Hd. destruct (Hdown Hd) as (_ & Hs & Hn).
    split; [exact Hs|]. split; [exact Hn|].
    rewrite Hkeep. unfold setAt at 1. rewrite Hs. exact Hsr.
  - intros Hd. rewrite <- Hrr in Hd.
    destruct (Hfresh Hd) as (_ & Hs & Hsr' & k & Hkw & Hk & Hnl & Hp).
    split; [exact Hs|]. split; [exact Hsr'|].
    split; [rewrite Hkeep; exact Hsr'|]. split; [exact Hnl|]. split.
    + exists k. split; [exact Hk | exact Hp].
    + intros Hle v Hv.
      destruct Hwfr as (_ & Hw32 & _).
      assert (Hnow : nr + Z.of_nat k < 2 ^ 32).
      { destruct (Z.lt_ge_cases (nr + Z.of_nat k) (2 ^ 32)) as [|Hover];
          [assumption|].
        exfalso.
        assert (Hwrap : wrap (nr + Z.of_nat k) = nr + Z.of_nat k - 2 ^ 32).
        { unfold wrap. symmetry.
          apply (Z.mod_unique_pos _ _ 1). lia. lia. }
        lia. }
      rewrite (wrap_small (nr + Z.of_nat k)) in Hk by lia.
      replace v with (wrap (nr + Z.of_nat (Z.to_nat (v - nr)))).
      * apply Hp. lia.
      * rewrite wrap_small; lia.
Qed.

(** The search goes on from the last number given and does not come
    back: with the sets 1, 2, 3 and no column going DOWN the columns get
    4, 5, 6, although 1 was free again when the second was served. *)
Example reset_scans_forward :
  option_map (fun st => (set (fst st), snd st))
             (reset (Globals [1; 2; 3] [0; 0; 0] [0; 0; 0] 3 false false))
  = Some ([4; 5; 6], 6).
Proof. vm_compute. reflexivity. Qed.

End Reset.

(** * The generator: horizontal passages *)

Section Horizontal.
Import GenMaze.

Lemma opened_left_first i g :
  wf g -> (S i < width g)%nat ->
  opened i g (orRow i RIGHT (orRow (S i) LEFT g)).
Proof.
  intros Hwf Hi. pose proof Hwf as (_ & _ & _ & _ & Hlr).
  split; [apply wf_orRow, wf_orRow, Hwf|]. split; [reflexivity|].
  split; [reflexivity|]. intros j f.
  rewrite has_orRow by (rewrite length_orRow; lia).
  rewrite has_orRow by lia.
  destruct (has (rowAt g j) f), (i =? j)%nat, (S i =? j)%nat,
    (has RIGHT f), (has LEFT f); reflexivity.
Qed.

Lemma opened_right_first i g :
  wf g -> (S i < width g)%nat ->
  opened i g (orRow (S i) LEFT (orRow i RIGHT g)).
Proof.
  intros Hwf Hi. pose proof Hwf as (_ & _ & _ & _ & Hlr).
  split; [apply wf_orRow, wf_orRow, Hwf|]. split; [reflexivity|].
  split; [reflexivity|]. intros j f.
  rewrite has_orRow by (rewrite length_orRow; lia).
  rewrite has_orRow by lia.
  destruct (has (rowAt g j) f), (i =? j)%nat, (S i =? j)%nat,
    (has RIGHT f), (has LEFT f); reflexivity.
Qed.

Lemma hsym_opened i g g' :
  (S i < width g)%nat -> opened i g g' -> hsym g -> hsym g'.
Proof.
  intros Hi (_ & Hw & _ & Hf) (Hs & H0 & Hlast).
  unfold hsym. rewrite Hw. split; [|split].
  - intros j Hj. rewrite !Hf, (Hs j Hj).
    change (has RIGHT LEFT) with false. change (has LEFT LEFT) with true.
    change (has RIGHT RIGHT) with true. change (has LEFT RIGHT) with false.
    rewrite !andb_false_r, !andb_true_r, !orb_false_r.
    change (S i =? S j)%nat with (i =? j)%nat.
    destruct (Nat.eqb_spec i (S j)) as [E|E]; [|reflexivity].
    destruct (Nat.eqb_spec i j); [lia|]. now rewrite orb_false_r.
  - rewrite Hf, H0.
    change (has RIGHT LEFT) with false. rewrite andb_false_r. reflexivity.
  - rewrite Hf, Hlast.
    change (has LEFT RIGHT) with false. rewrite andb_false_r, orb_false_r.
    destruct (Nat.eqb_spec i (width g - 1)); [lia | reflexivity].
Qed.

(** A DOWN passage does not touch the horizontal ones. *)
Lemma hsym_down i g : wf g -> hsym g -> hsym (orRow i DOWN g).
Proof.
  intros Hwf (Hs & H0 & Hlast).
  destruct (Nat.lt_ge_cases i (length (row g))) as [Hi|Hi].
  - unfold hsym. change (width (orRow i DOWN g)) with (width g).
    split; [|split]; [intros j Hj|..]; rewrite !has_orRow by exact Hi;
      change (has DOWN LEFT) with false; change (has DOWN RIGHT) with false;
      rewrite !andb_false_r, !orb_false_r; auto.
  - assert (E : orRow i DOWN g = g).
    { unfold orRow. destruct g as [s p r w ds dr]. unfold with_row. simpl in *.
      f_equal. clear -Hi. revert i Hi.
      induction r as [|h t IH]; intros [|i] Hi; simpl in *; auto; try lia.
      f_equal. apply IH. lia. }
    rewrite E. repeat split; assumption.
Qed.

Lemma hsym_unionSet a b g : wf g -> hsym g -> hsym (unionSet a b g).
Proof.
  intros (_ & _ & Hls & _) H.
  destruct (unionSet_spec a b g Hls) as (Hr & _ & Hw & _).
  unfold hsym, rowAt in *. rewrite Hr, Hw. exact H.
Qed.

Lemma wf_unionSet a b g : wf g -> wf (unionSet a b g).
Proof.
  intros (Hpos & Hw & Hls & Hlp & Hlr).
  destruct (unionSet_spec a b g Hls) as (Hr & Hp & Hw' & _ & _ & Hl & _).
  unfold wf. rewrite Hr, Hp, Hw', Hl. auto.
Qed.

Lemma width_unionSet a b g :
  wf g -> width (unionSet a b g) = width g.
Proof.
  intros (_ & _ & Hls & _). apply (unionSet_spec a b g Hls).
Qed.

(** One round of the second loop. *)
Lemma carveCell_keeps rand isLast i g :
  wf g -> (i < width g)%nat -> hsym g ->
  let g' := carveCell rand isLast i g in
  wf g' /\ width g' = width g /\ hsym g'.
Proof.
  intros Hwf Hi Hh. unfold carveCell.
  match goal with
  | |- context [if ?c then orRow i DOWN ?x else ?y] =>
      set (g1 := y); set (down := c)
  end.
  assert (H1 : wf g1 /\ width g1 = width g /\ hsym g1).
  { unfold g1. destruct (Z.rem (rand (2 * i)%nat) 2 =? 1); [|auto].
    destruct ((0 <? i)%nat && negb (setAt g i =? setAt g (i - 1))) eqn:E; [|auto].
    apply andb_prop in E. destruct E as (E & _). apply Nat.ltb_lt in E.
    destruct i as [|i]; [lia|]. replace (S i - 1)%nat with i by lia.
    pose proof (opened_left_first i g Hwf Hi) as Ho.
    pose proof Ho as (Hwf2 & Hw2 & _).
    split; [apply wf_unionSet, Hwf2|]. split.
    - rewrite width_unionSet by exact Hwf2. exact Hw2.
    - apply hsym_unionSet; [exact Hwf2|]. eapply hsym_opened; eauto. }
  destruct H1 as (Hwf1 & Hw1 & Hh1). cbv zeta.
  destruct down; [|auto].
  split; [apply wf_orRow, Hwf1|]. split; [exact Hw1|]. apply hsym_down; auto.
Qed.

Lemma carve_keeps rand isLast g :
  wf g -> hsym g ->
  let g' := carve rand isLast g in
  wf g' /\ width g' = width g /\ hsym g'.
Proof.
  intros Hwf Hh. unfold carve.
  apply (forUpTo_ind (fun _ g' => wf g' /\ width g' = width g /\ hsym g')).
  - auto.
  - intros i acc Hi (Hwfa & Hwa & Hha).
    destruct (carveCell_keeps rand isLast i acc Hwfa ltac:(lia) Hha)
      as (? & ? & ?).
    split; [assumption|]. split; [congruence | assumption].
Qed.

(** After the first loop no cell has a horizontal passage. *)
Lemma reset_keeps g :
  wf g ->
  exists g1 n, reset g = Some (g1, n) /\ wf g1 /\ width g1 = width g /\ hsym g1.
Proof.
  intros Hwf.
  destruct (resetUpTo_inv g (width g) Hwf (Nat.le_refl _))
    as (g1 & n & E & Hwf1 & Hw1 & _ & _ & _ & _ & Hlt).
  exists g1, n. split; [exact E|]. split; [exact Hwf1|]. split; [exact Hw1|].
  assert (Hno : forall j f, (j < width g)%nat -> f = LEFT \/ f = RIGHT ->
                            has (rowAt g1 j) f = false).
  { intros j f Hj Hf. destruct (Hlt j Hj) as (-> & _).
    destruct (has (rowAt g j) DOWN), Hf; subst f; reflexivity. }
  destruct Hwf as (Hpos & _).
  unfold hsym. rewrite Hw1. split; [|split].
  - intros i Hi. rewrite !Hno by (auto; lia). reflexivity.
  - apply Hno; [lia | auto].
  - apply Hno; [lia | auto].
Qed.

Lemma carved_keeps rand isLast g :
  wf g ->
  exists g2, carved rand isLast g = Some g2 /\
             wf g2 /\ width g2 = width g /\ hsym g2.
Proof.
  intros Hwf. destruct (reset_keeps g Hwf) as (g1 & n & E & Hwf1 & Hw1 & Hh1).
  destruct (carve_keeps rand isLast g1 Hwf1 Hh1) as (Hwf2 & Hw2 & Hh2).
  exists (carve rand isLast g1). unfold carved. rewrite E.
  split; [reflexivity|]. split; [assumption|]. split; [congruence | assumption].
Qed.

End Horizontal.

(** * The generator: the third loop of makeRow *)

Section ForceDown.
Import GenMaze.

Lemma forced_has_down g gk k j :
  forceInv g k gk -> has (rowAt g j) DOWN = true -> has (rowAt gk j) DOWN = true.
Proof.
  intros (_ & _ & _ & _ & _ & _ & Hrow) Hd.
  destruct (Hrow j) as [->|(-> & _)]; [exact Hd|].
  rewrite has_lor, Hd. reflexivity.
Qed.

Lemma forceUpTo_inv g k :
  wf g -> (k <= width g)%nat -> forceInv g k (forceUpTo k g).
Proof.
  intros Hwf. induction k as [|k IH]; intros Hk.
  - unfold forceUpTo. rewrite forUpTo_0. unfold forceInv.
    repeat (split; [solve [auto]|]). split; [intros j Hj; lia | auto].
  - specialize (IH ltac:(lia)). unfold forceUpTo in *. rewrite forUpTo_S.
    set (gk := forUpTo k forceCell g) in *.
    pose proof IH as (Hwfk & Hwk & Hsk & Hhk & Hge & Hlt & Hrow).
    assert (Hsame : forall i, setAt gk i = setAt g i).
    { intros i. unfold setAt. now rewrite Hsk. }
    unfold forceCell.
    destruct (has (rowAt gk k) DOWN) eqn:Ed.
    { (* the column already goes down *)
      unfold forceInv. repeat (split; [solve [auto]|]).
      split; [intros j Hj; apply Hge; lia|]. split.
      - intros j Hj. destruct (Nat.eq_dec j k) as [->|Hne].
        + exists k. split; [lia|]. split; [reflexivity | exact Ed].
        + apply Hlt. lia.
      - intros j. destruct (Hrow j) as [E|(E & Hjk & Hnd & Hf)]; [auto|].
        right. split; [exact E|]. split; [lia | auto]. }
    destruct (existsb _ _) eqn:Ex; simpl.
    { (* some column of the set goes down *)
      apply existsb_exists in Ex. destruct Ex as (i & Hin & Ei).
      apply in_seq in Hin. apply andb_prop in Ei. destruct Ei as (Es & Edi).
      apply Z.eqb_eq in Es. rewrite !Hsame in Es.
      unfold forceInv. repeat (split; [solve [auto]|]).
      split; [intros j Hj; apply Hge; lia|]. split.
      - intros j Hj. destruct (Nat.eq_dec j k) as [->|Hne].
        + exists i. split; [lia|]. split; [exact Es | exact Edi].
        + apply Hlt. lia.
      - intros j. destruct (Hrow j) as [E|(E & Hjk & Hnd & Hf)]; [auto|].
        right. split; [exact E|]. split; [lia | auto]. }
    (* the column is forced down *)
    assert (Hnone : forall i, (i < width g)%nat -> setAt g i = setAt g k ->
                              has (rowAt gk i) DOWN = false).
    { intros i Hi Es. destruct (has (rowAt gk i) DOWN) eqn:Edi; [|reflexivity].
      exfalso. assert (T : existsb (fun i => (setAt gk i =? setAt gk k)
                                    && has (rowAt gk i) DOWN)
                             (seq 0 (width gk)) = true).
      { apply existsb_exists. exists i. split; [apply in_seq; lia|].
        rewrite !Hsame, Es, Z.eqb_refl, Edi. reflexivity. }
      congruence. }
    pose proof Hwfk as (_ & _ & _ & _ & Hlr).
    assert (Hkr : (k < length (row gk))%nat) by lia.
    unfold forceInv.
    split; [apply wf_orRow, Hwfk|]. split; [exact Hwk|]. split; [exact Hsk|].
    split; [intros Hh; apply hsym_down; auto|].
    split; [|split].
    + intros j Hj. rewrite rowAt_orRow_other by lia. apply Hge. lia.
    + intros j Hj. destruct (Nat.eq_dec j k) as [->|Hne].
      * exists k. split; [lia|]. split; [reflexivity|].
        rewrite has_orRow by exact Hkr. rewrite Nat.eqb_refl.
        apply orb_true_r.
      * destruct (Hlt j ltac:(lia)) as (i & Hi & Es & Edi).
        exists i. split; [exact Hi|]. split; [exact Es|].
        rewrite has_orRow by exact Hkr. rewrite Edi. reflexivity.
    + intros j. destruct (Nat.eq_dec j k) as [->|Hne].
      * right. rewrite rowAt_orRow_same by exact Hkr.
        rewrite (Hge k (Nat.le_refl _)).
        split; [reflexivity|]. split; [lia|]. split.
        -- intros i Hi Es. destruct (has (rowAt g i) DOWN) eqn:Edi; [|reflexivity].
           rewrite <- (Hnone i Hi Es). symmetry.
           apply (forced_has_down g gk k i IH Edi).
        -- intros i Hi Es.
           destruct (Hlt i Hi) as (i' & Hi' & Es' & Edi').
           rewrite (Hnone i' Hi') in Edi' by congruence. discriminate.
      * rewrite rowAt_orRow_other by auto.
        destruct (Hrow j) as [E|(E & Hjk & Hnd & Hf)]; [auto|].
        right. split; [exact E|]. split; [lia | auto].
Qed.

(** C5.  On a row that is not the last, [makeRow] returns a state in
    which every column's set has a column going DOWN.  The third loop
    leaves the sets as the carving loops left them; in a set that had no
    column going DOWN after the carving loops, a column goes DOWN in the
    end exactly when it is the leftmost column of the set. *)
Theorem makeRow_every_set_goes_down (rand : nat -> Z) (g : globals) :
  wf g ->
  exists g2 g',
    carved rand false g = Some g2 /\
    makeRow rand false g = Some g' /\
    width g' = width g /\ set g' = set g2 /\
    (forall c, (c < width g)%nat ->
       exists j, (j < width g)%nat /\ setAt g' j = setAt g' c /\
                 has (rowAt g' j) DOWN = true) /\
    (forall c j, (c < width g)%nat -> (j < width g)%nat ->
       noDown g2 c -> setAt g2 j = setAt g2 c ->
       (has (rowAt g' j) DOWN = true <-> firstOfSet g2 j)).
Proof.
  intros Hwf.
  destruct (carved_keeps rand false g Hwf) as (g2 & E2 & Hwf2 & Hw2 & _).
  pose proof (forceUpTo_inv g2 (width g2) Hwf2 (Nat.le_refl _)) as Hinv.
  pose proof Hinv as (Hwf' & Hw' & Hs' & _ & _ & Hlt & Hrow).
  exists g2, (forceDown g2).
  split; [exact E2|]. split; [unfold makeRow; rewrite E2; reflexivity|].
  unfold forceDown. split; [congruence|]. split; [exact Hs'|].
  assert (Hsame : forall i, setAt (forceUpTo (width g2) g2) i = setAt g2 i).
  { intros i. unfold setAt. now rewrite Hs'. }
  rewrite <- Hw2. split.
  - intros c Hc. destruct (Hlt c Hc) as (i & Hi & Es & Ed).
    exists i. rewrite !Hsame. auto.
  - intros c j Hc Hj Hnd Es. split.
    + intros Hd. destruct (Hrow j) as [E|(_ & _ & _ & Hf)]; [|exact Hf].
      rewrite E, (Hnd j Hj Es) in Hd. discriminate.
    + intros Hf. destruct (Hlt j Hj) as (i & Hi & Esi & Ed).
      destruct (Hrow i) as [E|(_ & _ & _ & Hfi)].
      * rewrite E, (Hnd i Hi) in Ed by congruence. discriminate.
      * destruct (Nat.lt_trichotomy i j) as [Hlt'|[->|Hgt]].
        -- exfalso. apply (Hf i Hlt'). exact Esi.
        -- exact Ed.
        -- exfalso. apply (Hfi j Hgt). congruence.
Qed.

End ForceDown.

(** * The generator: the fourth loop of makeRow *)

Section CloseLast.
Import GenMaze.

Lemma closeCell_spec r g :
  wf g -> (S r < width g)%nat ->
  let g' := closeCell r g in
  wf g' /\ width g' = width g /\ (hsym g -> hsym g') /\
  (forall j f, has (rowAt g j) f = true -> has (rowAt g' j) f = true) /\
  (setAt g r <> setAt g (S r) ->
     has (rowAt g' r) RIGHT = true /\ has (rowAt g' (S r)) LEFT = true) /\
  forall j, (j < width g)%nat ->
    setAt g' j = if setAt g j =? setAt g r then setAt g (S r) else setAt g j.
Proof.
  intros Hwf Hr. unfold closeCell. rewrite Nat.add_1_r.
  destruct (Z.eqb_spec (setAt g r) (setAt g (S r))) as [E|E]; cbv zeta.
  - split; [exact Hwf|]. split; [reflexivity|]. split; [auto|].
    split; [auto|]. split; [intros H; contradiction|].
    intros j Hj. destruct (Z.eqb_spec (setAt g j) (setAt g r)); congruence.
  - pose proof (opened_right_first r g Hwf Hr) as Ho.
    pose proof Ho as (Hwf2 & Hw2 & Hs2 & Hf2).
    set (g2 := orRow (S r) LEFT (orRow r RIGHT g)) in *.
    assert (Hsame : forall i, setAt g2 i = setAt g i).
    { intros i. unfold setAt. now rewrite Hs2. }
    pose proof Hwf2 as (_ & _ & Hls2 & _).
    destruct (unionSet_spec (setAt g2 (S r)) (setAt g2 r) g2 Hls2)
      as (Hrow & _ & Hw & _ & _ & _ & Hset).
    split; [apply wf_unionSet, Hwf2|]. split; [congruence|].
    split; [intros Hh; apply hsym_unionSet; [exact Hwf2|];
            eapply hsym_opened; eauto|].
    assert (Hra : forall j, rowAt (unionSet (setAt g2 (S r)) (setAt g2 r) g2) j
                            = rowAt g2 j).
    { intros j. unfold rowAt. now rewrite Hrow. }
    split; [|split].
    + intros j f Hjf. rewrite Hra, Hf2, Hjf. reflexivity.
    + intros _. rewrite !Hra, !Hf2, !Nat.eqb_refl.
      change (has RIGHT RIGHT) with true. change (has LEFT LEFT) with true.
      rewrite !orb_true_r. split; [apply orb_true_l | reflexivity].
    + intros j Hj. rewrite Hset by lia. rewrite !Hsame. reflexivity.
Qed.

Lemma closeUpTo_S k g : closeUpTo (S k) g = closeCell k (closeUpTo k g).
Proof. apply forUpTo_S. Qed.

Lemma closeUpTo_inv g k :
  wf g -> (k < width g)%nat -> closeInv g k (closeUpTo k g).
Proof.
  intros Hwf. induction k as [|k IH]; intros Hk.
  - unfold closeUpTo. rewrite forUpTo_0. unfold closeInv.
    repeat (split; [solve [auto]|]). intros i Hi. f_equal. lia.
  - destruct (IH ltac:(lia)) as (Hwfk & Hwk & Hhk & Heq).
    rewrite closeUpTo_S. set (gk := closeUpTo k g) in *.
    destruct (closeCell_spec k gk Hwfk ltac:(lia))
      as (Hwf' & Hw' & Hh' & _ & _ & Hset).
    unfold closeInv. split; [exact Hwf'|]. split; [congruence|].
    split; [auto|].
    intros i Hi. rewrite !Hset by lia.
    destruct (Nat.eq_dec i (S k)) as [->|Hne]; [reflexivity|].
    + rewrite (Heq i ltac:(lia)), Z.eqb_refl.
      destruct (Z.eqb_spec (setAt gk (S k)) (setAt gk k)); congruence.
Qed.


Lemma closeLast_bound g :
  wf g -> Z.to_nat (wrap (Z.of_nat (width g) - 1)) = (width g - 1)%nat.
Proof.
  intros (Hpos & Hw & _). rewrite wrap_small by lia. lia.
Qed.


(** The pairs are compared as the loop meets them: with the sets 7, 8, 7
    the first round joins all three columns, and the second pair, by
    then in one set, gets no passage. *)
Example closeLast_compares_as_it_goes :
  closeLast (Globals [7; 8; 7] [0; 0; 0] [0; 0; 0] 3 false false)
  = Globals [8; 8; 8] [0; 0; 0] [RIGHT; LEFT; 0] 3 false false.
Proof. vm_compute. reflexivity. Qed.

(** C10.  Every row that [makeRow] returns, last or not, has LEFT at a
    column exactly when the column to its left has RIGHT; its first
    column has no LEFT and its last column no RIGHT. *)
Theorem makeRow_horizontal_symmetry (rand : nat -> Z) (isLast : bool)
        (g : globals) :
  wf g ->
  exists g',
    makeRow rand isLast g = Some g' /\ width g' = width g /\
    (forall i, (1 <= i)%nat -> (i < width g)%nat ->
       (has (rowAt g' i) LEFT = true <-> has (rowAt g' (i - 1)) RIGHT = true)) /\
    has (rowAt g' 0) LEFT = false /\
    has (rowAt g' (width g - 1)) RIGHT = false.
Proof.
  intros Hwf.
  destruct (carved_keeps rand isLast g Hwf) as (g2 & E2 & Hwf2 & Hw2 & Hh2).
  pose proof Hwf2 as (Hpos & _).
  assert (G : exists g', makeRow rand isLast g = Some g' /\
                         width g' = width g /\ hsym g').
  { unfold makeRow. rewrite E2. destruct isLast; simpl.
    - exists (closeLast g2). split; [reflexivity|].
      unfold closeLast. rewrite closeLast_bound by exact Hwf2.
      destruct (closeUpTo_inv g2 (width g2 - 1) Hwf2 ltac:(lia))
        as (_ & Hw' & Hh' & _).
      split; [congruence | auto].
    - exists (forceDown g2). split; [reflexivity|].
      destruct (forceUpTo_inv g2 (width g2) Hwf2 (Nat.le_refl _))
        as (_ & Hw' & _ & Hh' & _).
      unfold forceDown. split; [congruence | auto]. }
  destruct G as (g' & E' & Hw' & Hs & H0 & Hlast).
  exists g'. split; [exact E'|]. split; [exact Hw'|]. rewrite Hw' in *.
  split; [|split; assumption].
  intros i Hi1 Hi. destruct i as [|i]; [lia|].
  replace (S i - 1)%nat with i by lia. rewrite (Hs i Hi). reflexivity.
Qed.

(** [makeRow] keeps the arrays well formed, so [main]'s loop over the
    rows never stops short. *)
Lemma makeRow_wf (rand : nat -> Z) (isLast : bool) (g : globals) :
  wf g ->
  exists g', makeRow rand isLast g = Some g' /\ wf g' /\ width g' = width g.
Proof.
  intros Hwf.
  destruct (carved_keeps rand isLast g Hwf) as (g2 & E2 & Hwf2 & Hw2 & _).
  pose proof Hwf2 as (Hpos & _).
  unfold makeRow. rewrite E2. destruct isLast; simpl.
  - exists (closeLast g2). split; [reflexivity|].
    unfold closeLast. rewrite closeLast_bound by exact Hwf2.
    destruct (closeUpTo_inv g2 (width g2 - 1) Hwf2 ltac:(lia))
      as (Hwf' & Hw' & _).
    split; [exact Hwf' | congruence].
  - exists (forceDown g2). split; [reflexivity|].
    destruct (forceUpTo_inv g2 (width g2) Hwf2 (Nat.le_refl _))
      as (Hwf' & Hw' & _).
    unfold forceDown. split; [exact Hwf' | congruence].
Qed.

Lemma rowsFrom_total (type : MAZETYPE) (height n : nat) :
  forall i rand g, wf g ->
    exists out, rowsFrom type height n i rand g = Some out.
Proof.
  induction n as [|n IH]; intros i rand g Hwf; [eexists; reflexivity|].
  cbn [rowsFrom].
  destruct (makeRow_wf rand (i =? height - 1)%nat g Hwf) as (g' & -> & Hwf' & _).
  destruct (IH (S i) (fun k => rand (2 * width g' + k)%nat) g' Hwf')
    as (rest & ->).
  eexists. reflexivity.
Qed.

End CloseLast.

(** * The solver: checked accesses *)

Section Accesses.
Import SolMaze.

Lemma forUpToF_S {S} (n : nat) (body : nat -> S -> outcome S) (s : S) :
  forUpToF (Datatypes.S n) body s = bind (forUpToF n body s) (body n).
Proof.
  unfold forUpToF. rewrite seq_S, fold_left_app. reflexivity.
Qed.

Lemma bind_Ok {A B} (o : outcome A) (k : A -> outcome B) (b : B) :
  bind o k = Ok b -> exists a, o = Ok a /\ k a = Ok b.
Proof. destruct o; simpl; intros H; try discriminate. eauto. Qed.

Lemma at_Ok {A} (l : list A) (i : Z) (v : A) :
  at_ l i = Ok v ->
  0 <= i < Z.of_nat (length l) /\ nth_error l (Z.to_nat i) = Some v.
Proof.
  unfold at_. destruct (0 <=? i) eqn:E1; [|discriminate].
  destruct (i <? Z.of_nat (length l)) eqn:E2; [|discriminate]. simpl.
  destruct (nth_error l (Z.to_nat i)) eqn:E; [|discriminate].
  intros [= ->]. split; [lia | reflexivity].
Qed.

Lemma at_in_range {A} (l : list A) (i : Z) (d : A) :
  0 <= i < Z.of_nat (length l) -> at_ l i = Ok (nth (Z.to_nat i) l d).
Proof.
  intros H. unfold at_.
  replace (0 <=? i) with true by (symmetry; apply Z.leb_le; lia).
  replace (i <? Z.of_nat (length l)) with true by (symmetry; apply Z.ltb_lt; lia).
  simpl. rewrite (nth_error_nth' l d) by lia. reflexivity.
Qed.

Lemma store_Ok {A} (l l' : list A) (i : Z) (v : A) :
  store l i v = Ok l' ->
  0 <= i < Z.of_nat (length l) /\ l' = upd (Z.to_nat i) v l.
Proof.
  unfold store. destruct (0 <=? i) eqn:E1; [|discriminate].
  destruct (i <? Z.of_nat (length l)) eqn:E2; [|discriminate]. simpl.
  intros [= <-]. split; [lia | reflexivity].
Qed.

Lemma store_in_range {A} (l : list A) (i : Z) (v : A) :
  0 <= i < Z.of_nat (length l) -> store l i v = Ok (upd (Z.to_nat i) v l).
Proof.
  intros H. unfold store.
  replace (0 <=? i) with true by (symmetry; apply Z.leb_le; lia).
  replace (i <? Z.of_nat (length l)) with true by (symmetry; apply Z.ltb_lt; lia).
  reflexivity.
Qed.

Lemma orCell_Ok (l l' : list Z) (i f : Z) :
  orCell l i f = Ok l' ->
  0 <= i < Z.of_nat (length l) /\
  l' = upd (Z.to_nat i) (Z.lor (nth (Z.to_nat i) l 0) f) l.
Proof.
  unfold orCell. intros H. apply bind_Ok in H. destruct H as (v & Hv & Hs).
  apply at_Ok in Hv. destruct Hv as (Hi & Hn).
  apply store_Ok in Hs. destruct Hs as (_ & ->).
  split; [exact Hi|]. f_equal. f_equal.
  apply nth_error_nth with (d := 0) in Hn. congruence.
Qed.

Lemma orCell_in_range (l : list Z) (i f : Z) :
  0 <= i < Z.of_nat (length l) ->
  orCell l i f = Ok (upd (Z.to_nat i) (Z.lor (nth (Z.to_nat i) l 0) f) l).
Proof.
  intros H. unfold orCell. rewrite (at_in_range l i 0 H). simpl.
  apply store_in_range, H.
Qed.

End Accesses.

(** * The solver: convertRow *)

Section ConvertRow.
Import SolMaze.

Lemma has_cellOf a b c i f :
  has (cellOf a b c i) f
  = has (upOf a i) f || (floorOpen c i && has DOWN f)
    || (sepOpen b i && has LEFT f).
Proof.
  unfold cellOf. destruct (floorOpen c i), (sepOpen b i);
    rewrite ?has_lor; simpl; rewrite ?orb_false_r; reflexivity.
Qed.

Lemma has_upOf a i f : f = DOWN \/ f = LEFT \/ f = RIGHT -> has (upOf a i) f = false.
Proof.
  intros Hf. unfold upOf. destruct a as [a|].
  - destruct (has (nth i a 0) DOWN); destruct Hf as [->|[->| ->]]; reflexivity.
  - destruct Hf as [->|[->| ->]]; reflexivity.
Qed.

(** One round that does not fault: what it read, and the array it
    leaves. *)
Lemma convertCell_Ok a b c k row row' :
  Z.of_nat (length row) < 2 ^ 32 ->
  convertCell a b c k row = Ok row' ->
  (k < length row)%nat /\ length row' = length row /\
  (sepOpen b k = true -> (1 <= k)%nat) /\
  nth k row' 0 = cellOf a b c k /\
  forall j, j <> k ->
    nth j row' 0 = if (S j =? k)%nat && sepOpen b k
                   then Z.lor (nth j row 0) RIGHT else nth j row 0.
Proof.
  intros Hlen H. unfold convertCell in H.
  apply bind_Ok in H. destruct H as (up & Hup & H).
  assert (Eup : up = upOf a k).
  { unfold upOf. destruct a as [a|].
    - apply bind_Ok in Hup. destruct Hup as (v & Hv & Hup).
      apply at_Ok in Hv. destruct Hv as (_ & Hv).
      apply nth_error_nth with (d := 0) in Hv. rewrite Nat2Z.id in Hv.
      rewrite Hv. congruence.
    - congruence. }
  apply bind_Ok in H. destruct H as (r1 & H1 & H).
  apply store_Ok in H1. destruct H1 as (Hk & ->). rewrite Nat2Z.id in *.
  apply bind_Ok in H. destruct H as (chc & Hc & H).
  apply bind_Ok in H. destruct H as (r2 & H2 & H).
  apply bind_Ok in H. destruct H as (chb & Hb & H).
  assert (Efl : floorOpen c k = negb (Ascii.eqb chc "_")).
  { unfold floorOpen. rewrite Hc. reflexivity. }
  assert (Ese : sepOpen b k = negb (Ascii.eqb chb "|")).
  { unfold sepOpen. rewrite Hb. reflexivity. }
  rewrite <- Efl in H2. rewrite <- Ese in H. clear Hc Hb Efl Ese chc chb.
  assert (Hk' : (k < length row)%nat) by lia.
  assert (R2 : length r2 = length row /\
               nth k r2 0 = (if floorOpen c k then Z.lor (upOf a k) DOWN
                             else upOf a k) /\
               forall j, j <> k -> nth j r2 0 = nth j row 0).
  { destruct (floorOpen c k).
    - apply orCell_Ok in H2. destruct H2 as (_ & ->). rewrite Nat2Z.id.
      rewrite !upd_length. split; [reflexivity|]. split.
      + rewrite nth_upd_same by (rewrite upd_length; lia).
        rewrite nth_upd_same by lia. congruence.
      + intros j Hj. rewrite !nth_upd_other by auto. reflexivity.
    - injection H2 as <-. rewrite upd_length. split; [reflexivity|]. split.
      + rewrite nth_upd_same by lia. exact Eup.
      + intros j Hj. rewrite nth_upd_other by auto. reflexivity. }
  destruct R2 as (L2 & V2 & O2).
  unfold cellOf. cbv zeta. destruct (sepOpen b k).
  - simpl in H. apply bind_Ok in H. destruct H as (r3 & H3 & H).
    apply orCell_Ok in H3. destruct H3 as (_ & ->). rewrite Nat2Z.id in *.
    apply orCell_Ok in H. destruct H as (Hi & ->).
    rewrite upd_length, L2 in Hi.
    assert (Hk1 : (1 <= k)%nat).
    { destruct k as [|k]; [|lia]. exfalso.
      change (wrap (Z.of_nat 0 - 1)) with (2 ^ 32 - 1) in Hi. lia. }
    rewrite wrap_small in * by lia.
    replace (Z.to_nat (Z.of_nat k - 1)) with (k - 1)%nat by lia.
    split; [exact Hk'|]. rewrite !upd_length.
    split; [exact L2|]. split; [auto|]. split.
    + rewrite nth_upd_other by lia. rewrite nth_upd_same by lia.
      rewrite V2. reflexivity.
    + intros j Hj. rewrite andb_true_r.
      destruct (Nat.eqb_spec (S j) k) as [E|E].
      * replace (k - 1)%nat with j by lia.
        rewrite nth_upd_same by (rewrite upd_length; lia).
        rewrite nth_upd_other by auto. rewrite O2 by auto. reflexivity.
      * rewrite !nth_upd_other by lia. apply O2, Hj.
  - simpl in H. injection H as <-.
    split; [exact Hk'|]. split; [exact L2|].
    split; [discriminate|]. split; [exact V2|].
    intros j Hj. rewrite andb_false_r. apply O2, Hj.
Qed.

(** The array after [k] rounds without a fault. *)
Lemma convertUpTo_Ok a b c row0 k rk :
  Z.of_nat (length row0) < 2 ^ 32 ->
  convertUpTo k a b c row0 = Ok rk ->
  (k <= length row0)%nat /\ length rk = length row0 /\
  (forall i, (i < k)%nat -> sepOpen b i = true -> (1 <= i)%nat) /\
  (forall i, (i < k)%nat ->
     nth i rk 0 = if (S i <? k)%nat && sepOpen b (S i)
                  then Z.lor (cellOf a b c i) RIGHT else cellOf a b c i) /\
  (forall i, (k <= i)%nat -> nth i rk 0 = nth i row0 0).
Proof.
  intros Hlen. revert rk. induction k as [|k IH]; intros rk H.
  - unfold convertUpTo, forUpToF in H. simpl in H. injection H as <-.
    split; [lia|]. split; [reflexivity|].
    split; [intros; lia|]. split; [intros; lia | reflexivity].
  - unfold convertUpTo in *. rewrite forUpToF_S in H.
    apply bind_Ok in H. destruct H as (r & Hr & H).
    destruct (IH r Hr) as (Hk & Lr & Hsep & Hlt & Hge).
    apply convertCell_Ok in H; [|lia].
    destruct H as (Hk' & L' & Hs & Vk & Oth).
    split; [lia|]. split; [congruence|]. split; [|split].
    + intros i Hi. destruct (Nat.eq_dec i k) as [->|Hne]; [exact Hs|].
      apply Hsep. lia.
    + intros i Hi. destruct (Nat.eq_dec i k) as [->|Hne].
      * rewrite Vk. replace (S k <? S k)%nat with false
          by (symmetry; apply Nat.ltb_ge; lia). reflexivity.
      * rewrite Oth by exact Hne. rewrite Hlt by lia.
        destruct (Nat.eqb_spec (S i) k) as [E|E].
        -- subst k. rewrite Nat.ltb_irrefl. simpl.
           replace (S i <? S (S i))%nat with true
             by (symmetry; apply Nat.ltb_lt; lia).
           simpl. reflexivity.
        -- simpl.
           replace (S i <? S k)%nat with (S i <? k)%nat; [reflexivity|].
           destruct (Nat.ltb_spec (S i) k), (Nat.ltb_spec (S i) (S k));
             auto; lia.
    + intros i Hi. rewrite Oth by lia.
      replace (S i =? k)%nat with false by (symmetry; apply Nat.eqb_neq; lia).
      simpl. apply Hge. lia.
Qed.

(** What the new array held does not show in the row returned. *)
Lemma convertUpTo_array_irrelevant a b c row0 row1 r0 r1 :
  length row0 = length row1 -> Z.of_nat (length row0) < 2 ^ 32 ->
  convertUpTo (length row0) a b c row0 = Ok r0 ->
  convertUpTo (length row1) a b c row1 = Ok r1 ->
  r0 = r1.
Proof.
  intros Hl Hlt H0 H1.
  apply convertUpTo_Ok in H0; [|exact Hlt].
  apply convertUpTo_Ok in H1; [|rewrite <- Hl; exact Hlt].
  destruct H0 as (_ & L0 & _ & V0 & _). destruct H1 as (_ & L1 & _ & V1 & _).
  apply (nth_ext _ _ 0 0); [congruence|].
  intros i Hi. rewrite V0, V1 by lia. rewrite Hl. reflexivity.
Qed.

Lemma convertRow_Ok a b c width row :
  convertRow a b c width = Ok row ->
  let w := Z.to_nat (wrap width) in
  length row = w /\
  (forall i, (i < w)%nat -> sepOpen b i = true -> (1 <= i)%nat) /\
  forall i, (i < w)%nat ->
    nth i row 0 = if (S i <? w)%nat && sepOpen b (S i)
                  then Z.lor (cellOf a b c i) RIGHT else cellOf a b c i.
Proof.
  intros H. cbv zeta. unfold convertRow in H.
  apply convertUpTo_Ok in H.
  - rewrite repeat_length in H. destruct H as (_ & L & Hs & Hv & _). auto.
  - rewrite repeat_length. pose proof (wrap_range width). lia.
Qed.

(** C9.  In a row that [convertRow] returns, a column other than the
    first has LEFT exactly when the column to its left has RIGHT. *)
Theorem convertRow_left_right_agree (a : option (list Z)) (b c : text)
        (width : Z) (row : list Z) (i : nat) :
  convertRow a b c width = Ok row ->
  (1 <= i)%nat -> Z.of_nat i < wrap width ->
  (has (nth i row 0) LEFT = true <-> has (nth (i - 1) row 0) RIGHT = true).
Proof.
  intros H Hi1 Hiw. apply convertRow_Ok in H. cbv zeta in H.
  destruct H as (_ & _ & Hv).
  destruct i as [|i]; [lia|]. replace (S i - 1)%nat with i by lia.
  rewrite (Hv (S i)), (Hv i) by lia.
  replace (S i <? Z.to_nat (wrap width))%nat with true
    by (symmetry; apply Nat.ltb_lt; lia).
  simpl.
  assert (HL : forall j, has (cellOf a b c j) LEFT = sepOpen b j).
  { intros j. rewrite has_cellOf, has_upOf by auto.
    change (has DOWN LEFT) with false. change (has LEFT LEFT) with true.
    now rewrite andb_false_r, andb_true_r. }
  assert (HR : forall j, has (cellOf a b c j) RIGHT = false).
  { intros j. rewrite has_cellOf, has_upOf by auto.
    change (has DOWN RIGHT) with false. change (has LEFT RIGHT) with false.
    now rewrite !andb_false_r. }
  destruct (sepOpen b (S i)) eqn:E.
  - rewrite has_lor, HR. simpl.
    destruct ((S (S i) <? Z.to_nat (wrap width))%nat && sepOpen b (S (S i)));
      rewrite ?has_lor, HL, E; simpl; tauto.
  - rewrite HR.
    destruct ((S (S i) <? Z.to_nat (wrap width))%nat && sepOpen b (S (S i)));
      rewrite ?has_lor, HL, E; simpl; split; discriminate.
Qed.

(** One round on lines that are long enough does not fault. *)
Lemma convertCell_total a b c k row :
  (k < length row)%nat -> Z.of_nat (length row) < 2 ^ 32 ->
  Z.of_nat k * 3 + Z.of_nat BUFFER + 1 < 2 ^ 32 ->
  Z.of_nat k * 3 + Z.of_nat BUFFER < Z.of_nat (length b) ->
  Z.of_nat k * 3 + Z.of_nat BUFFER + 1 < Z.of_nat (length c) ->
  match a with None => True | Some a => (k < length a)%nat end ->
  (sepOpen b k = true -> (1 <= k)%nat) ->
  exists row', convertCell a b c k row = Ok row'.
Proof.
  intros Hk Hlen Hw Hb Hc Ha Hsep. unfold convertCell.
  assert (Hup : exists up,
             match a with
             | None => Ok EMPTY
             | Some a0 => v <- at_ a0 (Z.of_nat k);;
                          Ok (if has v DOWN then UP else EMPTY)
             end = Ok up).
  { destruct a as [a|]; [|eauto].
    rewrite (at_in_range a (Z.of_nat k) 0) by lia. cbn [bind]. eauto. }
  destruct Hup as (up & ->). cbn [bind].
  rewrite store_in_range by lia. cbn [bind].
  unfold sepOpen in Hsep.
  rewrite (at_in_range c _ " "%char) by (rewrite wrap_small; lia).
  cbn [bind].
  set (r1 := upd (Z.to_nat (Z.of_nat k)) up row).
  assert (L1 : length r1 = length row) by apply upd_length.
  match goal with
  | |- context [bind (if ?t then orCell r1 ?i DOWN else Ok r1) _] =>
      assert (H2 : exists r2, (if t then orCell r1 i DOWN else Ok r1) = Ok r2
                              /\ length r2 = length row)
  end.
  { destruct (negb _).
    - rewrite orCell_in_range by lia. eexists. split; [reflexivity|].
      rewrite upd_length. exact L1.
    - eauto. }
  destruct H2 as (r2 & -> & L2). cbn [bind].
  rewrite (at_in_range b _ " "%char) in * by (rewrite wrap_small; lia).
  cbn [bind]. destruct (negb _) eqn:E; [|eauto].
  specialize (Hsep eq_refl).
  rewrite orCell_in_range by lia. cbn [bind].
  rewrite orCell_in_range; [eauto|].
  rewrite upd_length, wrap_small by lia. lia.
Qed.

Lemma sepOpen_in_range b i :
  Z.of_nat i * 3 + Z.of_nat BUFFER < Z.of_nat (length b) ->
  Z.of_nat (length b) < 2 ^ 32 ->
  sepOpen b i = negb (Ascii.eqb (nth (i * 3 + BUFFER) b " "%char) "|").
Proof.
  intros H Hl. unfold sepOpen.
  rewrite (at_in_range b _ " "%char) by (rewrite wrap_small; lia).
  rewrite wrap_small by lia. do 3 f_equal. lia.
Qed.

Lemma floorOpen_in_range c i :
  Z.of_nat i * 3 + Z.of_nat BUFFER + 1 < Z.of_nat (length c) ->
  Z.of_nat (length c) < 2 ^ 32 ->
  floorOpen c i = negb (Ascii.eqb (nth (i * 3 + BUFFER + 1) c " "%char) "_").
Proof.
  intros H Hl. unfold floorOpen.
  rewrite (at_in_range c _ " "%char) by (rewrite wrap_small; lia).
  rewrite wrap_small by lia. do 3 f_equal. lia.
Qed.

(** C2, as the code has it.  On lines of at least [3 * width + BUFFER]
    characters, with a bar at the left border of line [b] and a row
    above (when there is one) of [width] cells, [convertRow] stays
    inside the lines and the arrays and returns a row of [width] cells;
    a cell has DOWN exactly when the character under it is not an
    underscore, and LEFT exactly when the separator to its left is not a
    bar. *)
Theorem convertRow_in_bounds (a : option (list Z)) (b c : text) (width : nat) :
  (3 * width + BUFFER <= length b)%nat ->
  (3 * width + BUFFER <= length c)%nat ->
  Z.of_nat (length b) < 2 ^ 32 -> Z.of_nat (length c) < 2 ^ 32 ->
  match a with None => True | Some a => (width <= length a)%nat end ->
  nth_error b BUFFER = Some "|"%char ->
  exists row,
    convertRow a b c (Z.of_nat width) = Ok row /\ length row = width /\
    forall i, (i < width)%nat ->
      has (nth i row 0) DOWN
      = negb (Ascii.eqb (nth (i * 3 + BUFFER + 1) c " "%char) "_") /\
      has (nth i row 0) LEFT
      = negb (Ascii.eqb (nth (i * 3 + BUFFER) b " "%char) "|").
Proof.
  intros Hb Hc Hlb Hlc Ha Hbar.
  assert (Hw : Z.to_nat (wrap (Z.of_nat width)) = width).
  { rewrite wrap_small by lia. apply Nat2Z.id. }
  assert (Hsep0 : forall i, sepOpen b i = true -> (1 <= i)%nat).
  { intros [|i] H; [|lia]. exfalso. unfold sepOpen in H.
    change (wrap (Z.of_nat 0 * 3 + Z.of_nat BUFFER)) with (Z.of_nat BUFFER) in H.
    assert (Hl5 : (BUFFER < length b)%nat).
    { apply nth_error_Some. congruence. }
    rewrite (at_in_range b _ " "%char) in H by lia.
    rewrite Nat2Z.id in H.
    apply nth_error_nth with (d := " "%char) in Hbar. rewrite Hbar in H.
    discriminate. }
  assert (G : forall k, (k <= width)%nat ->
            exists rk, convertUpTo k a b c (repeat 0 width) = Ok rk).
  { induction k as [|k IH]; intros Hk.
    - eexists. reflexivity.
    - destruct (IH ltac:(lia)) as (rk & Ek).
      assert (Hl0 : Z.of_nat (length (repeat 0 width)) < 2 ^ 32)
        by (rewrite repeat_length; lia).
      pose proof (convertUpTo_Ok a b c _ k rk Hl0 Ek) as (_ & L & _).
      rewrite repeat_length in L.
      destruct (convertCell_total a b c k rk) as (r' & E');
        try (unfold BUFFER in *; lia); auto.
      + destruct a as [a|]; [lia | exact I].
      + exists r'. unfold convertUpTo in *. rewrite forUpToF_S, Ek. exact E'. }
  destruct (G width (Nat.le_refl _)) as (row & E).
  assert (E' : convertRow a b c (Z.of_nat width) = Ok row).
  { unfold convertRow. rewrite Hw. exact E. }
  exists row. split; [exact E'|].
  apply convertRow_Ok in E'. cbv zeta in E'. rewrite Hw in E'.
  destruct E' as (L & _ & Hv). split; [exact L|].
  intros i Hi. rewrite (Hv i Hi).
  rewrite <- floorOpen_in_range, <- sepOpen_in_range
    by (unfold BUFFER in *; lia).
  assert (HD : has (cellOf a b c i) DOWN = floorOpen c i).
  { rewrite has_cellOf, has_upOf by auto.
    change (has DOWN DOWN) with true. change (has LEFT DOWN) with false.
    now rewrite andb_false_r, andb_true_r, orb_false_r. }
  assert (HL : has (cellOf a b c i) LEFT = sepOpen b i).
  { rewrite has_cellOf, has_upOf by auto.
    change (has DOWN LEFT) with false. change (has LEFT LEFT) with true.
    now rewrite andb_false_r, andb_true_r. }
  destruct ((S i <? width)%nat && sepOpen b (S i));
    rewrite ?has_lor, HD, HL;
    change (has RIGHT DOWN) with false; change (has RIGHT LEFT) with false;
    rewrite ?orb_false_r; auto.
Qed.

End ConvertRow.

(** * The solver: the order of the search *)

Section SearchOrder.
Import SolMaze.

Lemma reverse_is_LEFT from : (LEFT =? reverse from) = (from =? RIGHT).
Proof.
  unfold reverse.
  destruct (Z.eqb_spec from LEFT) as [->|]; [reflexivity|].
  destruct (Z.eqb_spec from RIGHT) as [->|]; [reflexivity|].
  destruct (Z.eqb_spec from UP) as [->|]; [reflexivity|].
  destruct (Z.eqb_spec from DOWN) as [->|]; reflexivity.
Qed.

Lemma reverse_is_UP from : (UP =? reverse from) = (from =? DOWN).
Proof.
  unfold reverse.
  destruct (Z.eqb_spec from LEFT) as [->|]; [reflexivity|].
  destruct (Z.eqb_spec from RIGHT) as [->|]; [reflexivity|].
  destruct (Z.eqb_spec from UP) as [->|]; [reflexivity|].
  destruct (Z.eqb_spec from DOWN) as [->|]; reflexivity.
Qed.

Lemma reverse_is_DOWN from : (DOWN =? reverse from) = (from =? UP).
Proof.
  unfold reverse.
  destruct (Z.eqb_spec from LEFT) as [->|]; [reflexivity|].
  destruct (Z.eqb_spec from RIGHT) as [->|]; [reflexivity|].
  destruct (Z.eqb_spec from UP) as [->|]; [reflexivity|].
  destruct (Z.eqb_spec from DOWN) as [->|]; reflexivity.
Qed.

Lemma reverse_is_RIGHT from : (RIGHT =? reverse from) = (from =? LEFT).
Proof.
  unfold reverse.
  destruct (Z.eqb_spec from LEFT) as [->|]; [reflexivity|].
  destruct (Z.eqb_spec from RIGHT) as [->|]; [reflexivity|].
  destruct (Z.eqb_spec from UP) as [->|]; [reflexivity|].
  destruct (Z.eqb_spec from DOWN) as [->|]; reflexivity.
Qed.

Lemma attempts_found gs m e : attempts gs (true, m, e) = Ok (true, m, e).
Proof.
  induction gs as [|[g call] gs IH]; [reflexivity|]. cbn. exact IH.
Qed.

Lemma attempts_firstOf gs :
  forall m e,
    attempts gs (false, m, e)
    = '(ok, m', e') <- firstOf gs m ;; Ok (ok, m', e ++ e').
Proof.
  induction gs as [|[g call] gs IH]; intros m e.
  - cbn. now rewrite app_nil_r.
  - cbn [attempts attempt firstOf negb andb]. destruct g.
    + destruct (call m) as [[[[] m1] e1]| |]; cbn [bind]; try reflexivity.
      * apply attempts_found.
      * rewrite IH. destruct (firstOf gs m1) as [[[ok m2] e2]| |];
          cbn [bind]; try reflexivity.
        now rewrite app_assoc.
    + cbn [bind]. apply IH.
Qed.

Lemma attempts_ext gs gs' st :
  Forall2 (fun p p' => fst p = fst p' /\ forall m, snd p m = snd p' m) gs gs' ->
  attempts gs st = attempts gs' st.
Proof.
  intros H. revert st.
  induction H as [|[g c] [g' c'] gs gs' (Hg & Hc) _ IH]; intros st;
    [reflexivity|].
  simpl in Hg, Hc. subst g'. destruct st as [[f m] e].
  cbn [attempts attempt]. destruct (negb f && g); cbn [bind].
  - rewrite Hc. destruct (c' m) as [[[f1 m1] e1]| |]; cbn [bind];
      try reflexivity. apply IH.
  - apply IH.
Qed.

Lemma firstOf_filter (guard : Z -> bool) (call : Z -> maze -> outcome found)
      (ds : list Z) (m : maze) :
  firstOf (map (fun d => (guard d, call d)) ds) m
  = firstSuccess call (filter guard ds) m.
Proof.
  revert m. induction ds as [|d ds IH]; intros m; [reflexivity|].
  cbn [map firstOf filter]. destruct (guard d).
  - cbn [firstSuccess]. destruct (call d m) as [[[[] m1] e1]| |];
      cbn [bind]; try reflexivity.
    now rewrite IH.
  - apply IH.
Qed.

(** The four conditional calls of [solveMaze] are the search in the
    order LEFT, UP, DOWN, RIGHT over the permitted directions, stopped
    at the first success. *)
Lemma solveMaze_as_worded fuel :
  forall m x y from,
    solveMaze fuel m x y from = searchAsWorded fuel m x y from.
Proof.
  induction fuel as [|fuel IH]; intros m x y from; [reflexivity|].
  cbn [solveMaze searchAsWorded].
  destruct (cellAt m x y) as [cell| |]; cbn [bind]; try reflexivity.
  destruct (has cell CHECKED); [reflexivity|].
  destruct (setCell m x y (Z.lor cell CHECKED)) as [m1| |]; cbn [bind];
    try reflexivity.
  destruct ((x =? destX m1) && (y =? destY m1)); [reflexivity|].
  set (guard := fun d => negb (d =? reverse from) && has cell d).
  set (call := fun d m => searchAsWorded fuel m (fst (neighbour x y d))
                                         (snd (neighbour x y d)) d).
  set (final := fun st : found =>
                  let '(foundEnd, m, entered) := st in
                  if foundEnd then m <- solutionCell m x y;; Ok (true, m, entered)
                  else Ok (false, m, entered)).
  transitivity
    (st <- attempts [(negb (from =? RIGHT) && has cell LEFT,
                      fun m => solveMaze fuel m (wrap (x - 1)) y LEFT);
                     (negb (from =? DOWN) && has cell UP,
                      fun m => solveMaze fuel m x (wrap (y - 1)) UP);
                     (negb (from =? UP) && has cell DOWN,
                      fun m => solveMaze fuel m x (wrap (y + 1)) DOWN);
                     (negb (from =? LEFT) && has cell RIGHT,
                      fun m => solveMaze fuel m (wrap (x + 1)) y RIGHT)]
                    (false, m1, [(x, y)]) ;; final st).
  { cbn [attempts attempt negb andb].
    destruct (negb (from =? RIGHT) && has cell LEFT); cbn [bind].
    - destruct (solveMaze fuel m1 (wrap (x - 1)) y LEFT) as [st1| |];
        cbn [bind]; try reflexivity.
      destruct st1 as [[f1 m2] e1]. cbn [bind].
      repeat match goal with
             | |- bind ?a _ = bind (bind ?a _) _ =>
                 destruct a as [[[? ?] ?]| |]; cbn [bind]; try reflexivity
             end.
    - repeat match goal with
             | |- bind ?a _ = bind (bind ?a _) _ =>
                 destruct a as [[[? ?] ?]| |]; cbn [bind]; try reflexivity
             end. }
  rewrite (attempts_ext _ (map (fun d => (guard d, call d)) searchOrder)).
  2:{ unfold searchOrder, guard, call. cbn [map].
      rewrite reverse_is_LEFT, reverse_is_UP, reverse_is_DOWN, reverse_is_RIGHT.
      repeat constructor; cbn [fst snd]; intros; apply IH. }
  rewrite attempts_firstOf, firstOf_filter.
  change (permitted from cell) with (filter guard searchOrder). unfold final.
  destruct (firstSuccess call (filter guard searchOrder) m1)
    as [[[[] m2] e]| |]; reflexivity.
Qed.

End SearchOrder.

(** * The solver: the grid under the search *)

Section Grid.
Import SolMaze.

Lemma at_Ok_iff {A} (l : list A) (i : Z) (v : A) :
  at_ l i = Ok v <-> 0 <= i /\ nth_error l (Z.to_nat i) = Some v.
Proof.
  split.
  - intros H. apply at_Ok in H. tauto.
  - intros (Hi & Hn).
    assert (Hlt : (Z.to_nat i < length l)%nat).
    { apply nth_error_Some. congruence. }
    rewrite (at_in_range l i v) by lia.
    f_equal. apply nth_error_nth. exact Hn.
Qed.

Lemma at_no_timeout {A} (l : list A) (i : Z) : at_ l i <> OutOfFuel.
Proof.
  unfold at_. destruct ((0 <=? i) && (i <? Z.of_nat (length l)));
    [destruct (nth_error l (Z.to_nat i))|]; discriminate.
Qed.

Lemma cellAt_cellN m x y v :
  cellAt m x y = Ok v <->
  0 <= x /\ 0 <= toInt y /\ cellN m (pos (x, y)) = Some v.
Proof.
  unfold cellAt, cellN, pos. cbn [fst snd]. split.
  - intros H. apply bind_Ok in H. destruct H as (r & Hr & H).
    apply at_Ok_iff in Hr. destruct Hr as (Hy & Hr). rewrite Hr.
    destruct r as [cells|]; [|discriminate].
    apply at_Ok_iff in H. tauto.
  - intros (Hx & Hy & H).
    destruct (nth_error (rows m) (Z.to_nat (toInt y))) as [[cells|]|] eqn:E;
      try discriminate.
    assert (Hr : at_ (rows m) (toInt y) = Ok (Some cells))
      by (apply at_Ok_iff; auto).
    rewrite Hr. cbn [bind]. apply at_Ok_iff. auto.
Qed.

Lemma cellAt_no_timeout m x y : cellAt m x y <> OutOfFuel.
Proof.
  unfold cellAt. pose proof (at_no_timeout (rows m) (toInt y)) as H.
  destruct (at_ (rows m) (toInt y)) as [[cells|]| |]; cbn [bind];
    try discriminate; try congruence.
  apply at_no_timeout.
Qed.

(** Sums and counts under an assignment to one cell. *)
Lemma sum_upd {A} (f : A -> nat) (l : list A) (i : nat) (a a' : A) :
  nth_error l i = Some a ->
  (list_sum (map f (upd i a' l)) + f a = list_sum (map f l) + f a')%nat.
Proof.
  revert i. induction l as [|h t IH]; intros [|i] H; simpl in *;
    try discriminate.
  - injection H as ->. lia.
  - specialize (IH i H). lia.
Qed.

Lemma count_as_sum {A} (P : A -> bool) (l : list A) :
  length (filter P l) = list_sum (map (fun v => if P v then 1%nat else 0%nat) l).
Proof.
  induction l as [|h t IH]; simpl; [reflexivity|].
  destruct (P h); simpl; lia.
Qed.

Lemma nth_error_upd {A} (l : list A) (i j : nat) (v : A) :
  (i < length l)%nat ->
  nth_error (upd i v l) j = if (i =? j)%nat then Some v else nth_error l j.
Proof.
  revert i j. induction l as [|h t IH]; intros [|i] [|j] H; simpl in *;
    try lia; try reflexivity.
  apply IH. lia.
Qed.

Lemma has_CHECKED_set v : has (Z.lor v CHECKED) CHECKED = true.
Proof. rewrite has_lor. apply orb_true_r. Qed.

(** Marking a cell that is not CHECKED. *)
Lemma setCell_checked m x y v :
  cellAt m x y = Ok v -> has v CHECKED = false ->
  exists m1,
    setCell m x y (Z.lor v CHECKED) = Ok m1 /\ progress m m1 [pos (x, y)].
Proof.
  intros Hc Hv. pose proof Hc as Hc'.
  apply cellAt_cellN in Hc'. destruct Hc' as (Hx & Hy & Hn).
  unfold cellN, pos in Hn. cbn [fst snd] in Hn.
  destruct (nth_error (rows m) (Z.to_nat (toInt y))) as [[cells|]|] eqn:Er;
    try discriminate.
  assert (Hry : (Z.to_nat (toInt y) < length (rows m))%nat).
  { apply nth_error_Some. congruence. }
  assert (Hcx : (Z.to_nat x < length cells)%nat).
  { apply nth_error_Some. congruence. }
  unfold setCell.
  assert (Hr : at_ (rows m) (toInt y) = Ok (Some cells))
    by (apply at_Ok_iff; auto).
  rewrite Hr. cbn [bind].
  rewrite store_in_range by lia. cbn [bind].
  rewrite store_in_range by lia. cbn [bind].
  eexists. split; [reflexivity|].
  set (cells' := upd (Z.to_nat x) (Z.lor v CHECKED) cells).
  set (rows' := upd (Z.to_nat (toInt y)) (Some cells') (rows m)).
  assert (Hcell : forall p,
            cellN (with_rows rows' m) p
            = if ((Z.to_nat (toInt y) =? fst p) && (Z.to_nat x =? snd p))%nat
              then Some (Z.lor v CHECKED) else cellN m p).
  { intros [i j]. unfold cellN. cbn [fst snd with_rows rows].
    unfold rows'. rewrite nth_error_upd by exact Hry.
    destruct (Nat.eqb_spec (Z.to_nat (toInt y)) i) as [<-|Hne]; cbn [andb].
    - rewrite Er. unfold cells'. rewrite nth_error_upd by exact Hcx.
      reflexivity.
    - reflexivity. }
  assert (Hpos : forall p,
            ((Z.to_nat (toInt y) =? fst p) && (Z.to_nat x =? snd p))%nat = true
            <-> pos (x, y) = p).
  { intros [i j]. unfold pos. cbn [fst snd].
    rewrite andb_true_iff, !Nat.eqb_eq. split.
    - intros (-> & ->). reflexivity.
    - intros [= -> ->]. auto. }
  unfold progress. cbn [with_rows destX destY lines].
  split; [reflexivity|]. split; [reflexivity|]. split; [reflexivity|].
  split; [|split; [|split; [|split]]].
  - intros p Hp. rewrite Hcell.
    destruct (_ && _)%nat eqn:E; [|exact Hp].
    apply Hpos in E. subst p. unfold cellN, pos in Hp. cbn [fst snd] in Hp.
    rewrite Er in Hp. congruence.
  - intros p w Hp Hin. rewrite Hcell.
    destruct (_ && _)%nat eqn:E; [|exact Hp].
    apply Hpos in E. exfalso. apply Hin. left. exact E.
  - intros p [<-|[]]. exists v. split; [|split; [exact Hv|]].
    + unfold cellN, pos. cbn [fst snd]. rewrite Er. exact Hn.
    + rewrite Hcell.
      replace (_ && _)%nat with true; [reflexivity|].
      symmetry. apply Hpos. reflexivity.
  - repeat constructor. intros [].
  - unfold unchecked, with_rows. cbn [rows length]. unfold rows'.
    pose proof (sum_upd uncheckedIn (rows m) _ _ (Some cells') Er) as Hs.
    assert (Hc1 : (uncheckedIn (Some cells') + 1 = uncheckedIn (Some cells))%nat).
    { unfold uncheckedIn, cells'. rewrite !count_as_sum.
      pose proof (sum_upd (fun c => if negb (has c CHECKED) then 1%nat else 0%nat)
                          cells _ _ (Z.lor v CHECKED) Hn) as Hs'.
      cbv beta in Hs'. rewrite Hv, has_CHECKED_set in Hs'. simpl in Hs'. lia. }
    lia.
Qed.

Lemma setCell_no_timeout m x y v : setCell m x y v <> OutOfFuel.
Proof.
  unfold setCell. pose proof (at_no_timeout (rows m) (toInt y)) as H.
  destruct (at_ (rows m) (toInt y)) as [[cells|]| |]; cbn [bind];
    try discriminate; try congruence.
  unfold store.
  destruct ((0 <=? x) && (x <? Z.of_nat (length cells))); cbn [bind];
    [|discriminate].
  destruct ((0 <=? toInt y) && (toInt y <? Z.of_nat (length (rows m))));
    discriminate.
Qed.

(** Writing one character of a line. *)
Lemma putChar_Ok s i ch s' :
  putChar s i ch = Ok s' ->
  0 <= i /\ at_ s' i = Ok ch /\
  forall j c, j <> i -> at_ s j = Ok c -> at_ s' j = Ok c.
Proof.
  unfold putChar. destruct (Z.ltb_spec i 0) as [|Hi]; [discriminate|].
  intros [= <-]. split; [exact Hi|].
  set (ext := s ++ repeat " "%char (S (Z.to_nat i) - length s)).
  assert (Hl : (Z.to_nat i < length ext)%nat).
  { unfold ext. rewrite length_app, repeat_length. lia. }
  split.
  - apply at_Ok_iff. split; [exact Hi|].
    rewrite nth_error_upd by exact Hl. now rewrite Nat.eqb_refl.
  - intros j c Hj Hc. apply at_Ok_iff in Hc. destruct Hc as (Hj0 & Hc).
    apply at_Ok_iff. split; [exact Hj0|].
    rewrite nth_error_upd by exact Hl.
    destruct (Nat.eqb_spec (Z.to_nat i) (Z.to_nat j)) as [E|_]; [lia|].
    unfold ext. rewrite nth_error_app1; [exact Hc|].
    apply nth_error_Some. congruence.
Qed.

Lemma solutionCell_Ok m x y m' :
  solutionCell m x y = Ok m' ->
  rows m' = rows m /\ destX m' = destX m /\ destY m' = destY m /\
  length (lines m') = length (lines m) /\ marked m' x y.
Proof.
  unfold solutionCell. intros H.
  apply bind_Ok in H. destruct H as (l & Hl & H).
  apply bind_Ok in H. destruct H as (l1 & H1 & H).
  apply bind_Ok in H. destruct H as (l2 & H2 & H).
  apply bind_Ok in H. destruct H as (ls & Hs & H).
  injection H as <-. apply store_Ok in Hs. destruct Hs as (Hi & ->).
  cbn [with_lines rows destX destY lines]. rewrite upd_length.
  repeat (split; [reflexivity|]).
  apply putChar_Ok in H1. destruct H1 as (_ & H1 & _).
  apply putChar_Ok in H2. destruct H2 as (_ & H2 & H2').
  exists l2. cbn [with_lines lines]. split; [|split].
  - apply at_Ok_iff. split; [lia|].
    rewrite nth_error_upd by lia. now rewrite Nat.eqb_refl.
  - apply H2'; [lia | exact H1].
  - exact H2.
Qed.

Lemma solutionCell_total m x y :
  0 <= toInt x -> 0 <= toInt y * 2 + 1 < Z.of_nat (length (lines m)) ->
  exists m', solutionCell m x y = Ok m'.
Proof.
  intros Hx Hy. unfold solutionCell.
  rewrite (at_in_range (lines m) _ []) by exact Hy. cbn [bind].
  unfold putChar.
  replace (toInt x * 3 + Z.of_nat BUFFER + 1 <? 0) with false
    by (symmetry; apply Z.ltb_ge; lia).
  cbn [bind].
  replace (toInt x * 3 + Z.of_nat BUFFER + 2 <? 0) with false
    by (symmetry; apply Z.ltb_ge; lia).
  cbn [bind]. rewrite store_in_range by exact Hy. cbn [bind]. eauto.
Qed.

Lemma solutionCell_no_timeout m x y : solutionCell m x y <> OutOfFuel.
Proof.
  unfold solutionCell.
  pose proof (at_no_timeout (lines m) (toInt y * 2 + 1)) as H.
  destruct (at_ (lines m) (toInt y * 2 + 1)) as [l| |]; cbn [bind];
    try discriminate; try congruence.
  unfold putChar.
  destruct (toInt x * 3 + Z.of_nat BUFFER + 1 <? 0); cbn [bind];
    [discriminate|].
  destruct (toInt x * 3 + Z.of_nat BUFFER + 2 <? 0); cbn [bind];
    [discriminate|].
  unfold store. destruct (_ && _); discriminate.
Qed.

(** [progress] composes. *)
Lemma progress_same_rows m m' :
  rows m' = rows m -> destX m' = destX m -> destY m' = destY m ->
  length (lines m') = length (lines m) -> progress m m' [].
Proof.
  intros Hr Hx Hy Hl.
  assert (Hc : forall p, cellN m' p = cellN m p).
  { intros p. unfold cellN. now rewrite Hr. }
  unfold progress. repeat (split; [assumption|]).
  split; [intros p Hp; now rewrite Hc|].
  split; [intros p v Hp _; now rewrite Hc|].
  split; [intros p []|]. split; [constructor|].
  unfold unchecked. rewrite Hr. simpl. lia.
Qed.

Lemma progress_refl m : progress m m [].
Proof. apply progress_same_rows; reflexivity. Qed.

Lemma has_CHECKED_clash v :
  has (Z.lor v CHECKED) CHECKED = false -> False.
Proof. rewrite has_CHECKED_set. discriminate. Qed.

Lemma progress_trans m m1 m2 ps qs :
  progress m m1 ps -> progress m1 m2 qs -> progress m m2 (ps ++ qs).
Proof.
  intros (Hx & Hy & Hl & Hn & Hk & He & Hd & Hc)
         (Hx' & Hy' & Hl' & Hn' & Hk' & He' & Hd' & Hc').
  assert (Hdisj : forall p, In p ps -> ~ In p qs).
  { intros p Hp Hq. destruct (He p Hp) as (v & _ & _ & E1).
    destruct (He' p Hq) as (v1 & E1' & Hv1 & _).
    rewrite E1 in E1'. injection E1' as <-.
    exact (has_CHECKED_clash _ Hv1). }
  unfold progress.
  split; [congruence|]. split; [congruence|]. split; [congruence|].
  split; [auto|]. split; [|split; [|split]].
  - intros p v Hp Hin. apply Hk'.
    + apply Hk; [exact Hp|]. intros H. apply Hin, in_or_app. auto.
    + intros H. apply Hin, in_or_app. auto.
  - intros p Hin. apply in_app_or in Hin. destruct Hin as [Hp|Hq].
    + destruct (He p Hp) as (v & E & Hv & E1).
      exists v. split; [exact E|]. split; [exact Hv|].
      apply Hk'; [exact E1 | apply Hdisj, Hp].
    + destruct (He' p Hq) as (v1 & E1 & Hv1 & E2).
      exists v1. split; [|split; [exact Hv1 | exact E2]].
      destruct (cellN m p) as [v|] eqn:E.
      * destruct (in_dec (fun a b : nat * nat =>
                            ltac:(decide equality; apply Nat.eq_dec)) p ps)
          as [Hp|Hp].
        -- exfalso. exact (Hdisj p Hp Hq).
        -- rewrite (Hk p v E Hp) in E1. exact E1.
      * rewrite (Hn p E) in E1. discriminate.
  - apply NoDup_app; assumption.
  - rewrite length_app. lia.
Qed.

(** The cells of [m'] are those of [m], with the same passages. *)
Lemma progress_back m m' ps p v' :
  progress m m' ps -> cellN m' p = Some v' ->
  exists v, cellN m p = Some v /\
            (forall f, has CHECKED f = false -> has v' f = has v f).
Proof.
  intros (_ & _ & _ & Hn & Hk & He & _) H.
  destruct (cellN m p) as [v|] eqn:E.
  - exists v. split; [reflexivity|]. intros f Hf.
    destruct (in_dec (fun a b : nat * nat =>
                        ltac:(decide equality; apply Nat.eq_dec)) p ps)
      as [Hp|Hp].
    + destruct (He p Hp) as (w & Ew & _ & E').
      rewrite E in Ew. injection Ew as <-.
      rewrite E' in H. injection H as <-.
      rewrite has_lor, Hf. apply orb_false_r.
    + rewrite (Hk p v E Hp) in H. congruence.
  - rewrite (Hn p E) in H. discriminate.
Qed.

Lemma progress_forth m m' ps p v :
  progress m m' ps -> cellN m p = Some v -> exists v', cellN m' p = Some v'.
Proof.
  intros (_ & _ & _ & Hn & Hk & He & _) H.
  destruct (in_dec (fun a b : nat * nat =>
                      ltac:(decide equality; apply Nat.eq_dec)) p ps)
    as [Hp|Hp].
  - destruct (He p Hp) as (w & _ & _ & E'). eauto.
  - exists v. apply Hk; assumption.
Qed.

Lemma progress_inGrid m m' ps x y :
  progress m m' ps -> inGrid m x y -> inGrid m' x y.
Proof.
  intros Hp (v & Hv). apply cellAt_cellN in Hv. destruct Hv as (Hx & Hy & Hv).
  destruct (progress_forth _ _ _ _ _ Hp Hv) as (v' & Hv').
  exists v'. apply cellAt_cellN. auto.
Qed.

Lemma progress_closed m m' ps : progress m m' ps -> closed m -> closed m'.
Proof.
  intros Hp Hc x y v' Hv'.
  apply cellAt_cellN in Hv'. destruct Hv' as (Hx & Hy & Hv').
  destruct (progress_back _ _ _ _ _ Hp Hv') as (v & Hv & Hf).
  assert (Hat : cellAt m x y = Ok v) by (apply cellAt_cellN; auto).
  destruct (Hc x y v Hat) as (H0 & Hl & HL & HU & HD & HR).
  pose proof Hp as (_ & _ & Hlen & _).
  split; [exact H0|]. split; [rewrite Hlen; exact Hl|].
  rewrite !Hf by reflexivity.
  repeat split; intros H; eapply progress_inGrid; eauto.
Qed.

End Grid.

(** * The solver: the search ends, and enters a cell at most once *)

Section Search.
Import SolMaze.

Lemma chainOk_bind fuel m x y (r : outcome found) (k : found -> outcome found) :
  chainOk fuel m x y r ->
  (forall st, chainOk fuel m x y (Ok st) -> chainOk fuel m x y (k st)) ->
  chainOk fuel m x y (bind r k).
Proof.
  intros Hr Hk. destruct r as [st| |]; cbn [bind]; auto.
Qed.

(** One conditional call, given what the call may return. *)
Lemma attempt_chainOk fuel m0 x0 y0 cond call st x' y' :
  chainOk fuel m0 x0 y0 (Ok st) ->
  (forall m, outcomeOk fuel m x' y' (call m)) ->
  ((exists b, cond b = true) -> closed m0 -> inGrid m0 x0 y0 ->
   inGrid m0 x' y') ->
  chainOk fuel m0 x0 y0 (attempt cond call st).
Proof.
  destruct st as [[f m] e]. intros (Hp & He) Hcall Htarget.
  unfold attempt. destruct (cond f) eqn:Ec; [|split; assumption].
  specialize (Hcall m).
  destruct (call m) as [[[f1 m1] e1]|flt|]; cbn [bind outcomeOk chainOk] in *.
  - split.
    + rewrite map_app. eapply progress_trans; eassumption.
    + rewrite length_app. lia.
  - intros (Hcl & Hin). apply Hcall. split.
    + eapply progress_closed; eassumption.
    + eapply progress_inGrid; [eassumption|]. apply Htarget; eauto.
  - destruct Hp as (_ & _ & _ & _ & _ & _ & _ & Hcount).
    rewrite length_map in Hcount. lia.
Qed.

(** The last step of a call: marking the cell when the end was found. *)
Lemma final_chainOk fuel m x y cell st :
  cellAt m x y = Ok cell ->
  chainOk fuel m x y (Ok st) ->
  chainOk fuel m x y
    (let '(foundEnd, m', entered) := st in
     if foundEnd : bool
     then m'' <- solutionCell m' x y ;; Ok (true, m'', entered)
     else Ok (false, m', entered)).
Proof.
  destruct st as [[f m'] e]. intros Hc (Hp & He).
  destruct f; [|split; assumption].
  destruct (solutionCell m' x y) as [m''| |] eqn:Es; cbn [bind chainOk].
  - apply solutionCell_Ok in Es. destruct Es as (Hr & Hx & Hy & Hl & _).
    split; [|exact He].
    rewrite <- (app_nil_r (map pos e)).
    eapply progress_trans; [exact Hp|].
    apply progress_same_rows; assumption.
  - intros (Hcl & _). destruct (Hcl x y cell Hc) as (H0 & Hl & _).
    destruct Hp as (_ & _ & Hlen & _).
    destruct (solutionCell_total m' x y H0) as (m'' & E);
      [rewrite Hlen; exact Hl | congruence].
  - destruct (solutionCell_no_timeout _ _ _ Es).
Qed.

(** What [solveMaze] may return, for every amount of fuel. *)
Lemma solveMaze_outcome fuel :
  forall m x y from, outcomeOk fuel m x y (solveMaze fuel m x y from).
Proof.
  induction fuel as [|fuel IH]; intros m x y from.
  - cbn. lia.
  - cbn [solveMaze].
    destruct (cellAt m x y) as [cell|flt|] eqn:Hc; cbn [bind].
    + destruct (has cell CHECKED) eqn:Hch; [apply progress_refl|].
      destruct (setCell_checked m x y cell Hc Hch) as (m1 & Hs & Hp1).
      rewrite Hs. cbn [bind].
      assert (H0 : chainOk fuel m x y (Ok (false, m1, [(x, y)]))).
      { split; [exact Hp1 | simpl; lia]. }
      assert (Hweak : forall r, chainOk fuel m x y r ->
                                outcomeOk (S fuel) m x y r).
      { intros [[[f m'] e]| |]; cbn; tauto. }
      apply Hweak.
      destruct ((x =? destX m1) && (y =? destY m1)).
      * apply (final_chainOk fuel m x y cell (true, m1, [(x, y)]) Hc).
        split; [exact Hp1 | simpl; lia].
      * assert (Hdir : forall d, has cell d = true ->
                  closed m -> inGrid m x y ->
                  (d = LEFT -> inGrid m (wrap (x - 1)) y) /\
                  (d = UP -> inGrid m x (wrap (y - 1))) /\
                  (d = DOWN -> inGrid m x (wrap (y + 1))) /\
                  (d = RIGHT -> inGrid m (wrap (x + 1)) y)).
        { intros d Hd Hcl _.
          destruct (Hcl x y cell Hc) as (_ & _ & HL & HU & HD & HR).
          repeat split; intros ->; auto. }
        apply chainOk_bind.
        { apply (attempt_chainOk _ _ _ _ _ _ _ (wrap (x - 1)) y H0).
          - intros m'. apply IH.
          - intros (b & Hb) Hcl Hin. apply andb_prop in Hb.
            apply (Hdir LEFT (proj2 Hb) Hcl Hin). reflexivity. }
        intros st1 H1. apply chainOk_bind.
        { apply (attempt_chainOk _ _ _ _ _ _ _ x (wrap (y - 1)) H1).
          - intros m'. apply IH.
          - intros (b & Hb) Hcl Hin. apply andb_prop in Hb.
            destruct Hb as (_ & Hb). apply andb_prop in Hb.
            apply (Hdir UP (proj2 Hb) Hcl Hin). reflexivity. }
        intros st2 H2. apply chainOk_bind.
        { apply (attempt_chainOk _ _ _ _ _ _ _ x (wrap (y + 1)) H2).
          - intros m'. apply IH.
          - intros (b & Hb) Hcl Hin. apply andb_prop in Hb.
            destruct Hb as (_ & Hb). apply andb_prop in Hb.
            apply (Hdir DOWN (proj2 Hb) Hcl Hin). reflexivity. }
        intros st3 H3. apply chainOk_bind.
        { apply (attempt_chainOk _ _ _ _ _ _ _ (wrap (x + 1)) y H3).
          - intros m'. apply IH.
          - intros (b & Hb) Hcl Hin. apply andb_prop in Hb.
            destruct Hb as (_ & Hb). apply andb_prop in Hb.
            apply (Hdir RIGHT (proj2 Hb) Hcl Hin). reflexivity. }
        intros st4 H4. apply (final_chainOk fuel m x y cell st4 Hc H4).
    + intros (_ & v & Hv). congruence.
    + destruct (cellAt_no_timeout _ _ _ Hc).
Qed.

(** A call on a cell that is not CHECKED enters that cell first. *)
Lemma solveMaze_enters fuel m x y from cell b m' entered :
  cellAt m x y = Ok cell -> has cell CHECKED = false ->
  solveMaze fuel m x y from = Ok (b, m', entered) ->
  exists rest, entered = (x, y) :: rest.
Proof.
  intros Hc Hch. rewrite solveMaze_as_worded.
  destruct fuel as [|fuel]; [discriminate|].
  cbn [searchAsWorded]. rewrite Hc. cbn [bind]. rewrite Hch.
  destruct (setCell m x y (Z.lor cell CHECKED)) as [m1| |]; cbn [bind];
    try discriminate.
  destruct ((x =? destX m1) && (y =? destY m1)).
  - destruct (solutionCell m1 x y); cbn [bind]; try discriminate.
    intros [= <- <- <-]. eauto.
  - destruct (firstSuccess _ _ m1) as [[[[] m2] e]| |]; cbn [bind];
      try discriminate.
    + destruct (solutionCell m2 x y); cbn [bind]; try discriminate.
      intros [= <- <- <-]. eauto.
    + intros [= <- <- <-]. eauto.
Qed.

(** C7.  With more fuel than there are cells not CHECKED, [solveMaze]
    does not run out of fuel, on any grid, with or without cycles.  On a
    cell that is CHECKED it returns failure at once and leaves the maze
    as it is.  When it returns, the cells it entered are pairwise
    distinct, each was not CHECKED before the call and is CHECKED after
    it whatever the value returned, the cell of the call is among them
    when it was not CHECKED, and no cell has lost CHECKED.  On a closed
    grid, from a cell of the grid, it does return. *)
Theorem solveMaze_terminates (fuel : nat) (m : maze) (x y from : Z) :
  (unchecked m < fuel)%nat ->
  solveMaze fuel m x y from <> OutOfFuel /\
  (forall cell, cellAt m x y = Ok cell -> has cell CHECKED = true ->
     solveMaze fuel m x y from = Ok (false, m, [])) /\
  (forall b m' entered,
     solveMaze fuel m x y from = Ok (b, m', entered) ->
     NoDup (map pos entered) /\
     (length entered <= unchecked m)%nat /\
     (forall p, In p (map pos entered) ->
        exists v, cellN m p = Some v /\ has v CHECKED = false /\
                  cellN m' p = Some (Z.lor v CHECKED)) /\
     (forall cell, cellAt m x y = Ok cell -> has cell CHECKED = false ->
        In (x, y) entered) /\
     (forall p v, cellN m p = Some v -> has v CHECKED = true ->
        cellN m' p = Some v)) /\
  (closed m -> inGrid m x y ->
   exists b m' entered, solveMaze fuel m x y from = Ok (b, m', entered)).
Proof.
  intros Hfuel. pose proof (solveMaze_outcome fuel m x y from) as H.
  split; [|split; [|split]].
  - intros E. rewrite E in H. cbn in H. lia.
  - intros cell Hc Hch. destruct fuel as [|fuel]; [lia|].
    cbn [solveMaze]. rewrite Hc. cbn [bind]. rewrite Hch. reflexivity.
  - intros b m' entered E. rewrite E in H. cbn in H.
    destruct H as (_ & _ & _ & Hn & Hk & He & Hd & Hcount).
    split; [exact Hd|]. split; [rewrite length_map in Hcount; lia|].
    split; [exact He|]. split.
    + intros cell Hc Hch.
      destruct (solveMaze_enters _ _ _ _ _ _ _ _ _ Hc Hch E) as (rest & ->).
      left. reflexivity.
    + intros p v Hp Hv. apply Hk; [exact Hp|]. intros Hin.
      destruct (He p Hin) as (w & Ew & Hw & _). congruence.
  - intros Hcl Hin.
    destruct (solveMaze fuel m x y from) as [[[b m'] e]|flt|]; cbn in H.
    + eauto.
    + exfalso. apply H. auto.
    + lia.
Qed.

End Search.

(** * The solver: main *)

Section Main.
Import SolMaze.

(** C1.  [main] returns [isSolvable] as the exit code: 1 on the maze it
    solves, written out with its path after the lines that [readline]
    has copied to the output, and 0 on the maze with no path, for which
    it writes the message to the error stream and, after the lines
    copied while reading, nothing more to the output. *)
Theorem main_exit_code_inverted :
  main oneCell
  = Ok (Run [lit "      ___"; lit "     |  |"; lit "     |__|";
             lit "      ___"; lit "     |XX|"; lit "     |__|"] [] 1) /\
  main twoCellsApart
  = Ok (Run [lit "      ______"; lit "     |  |  |"; lit "     |__|__|"]
            [lit "No path found through maze."] 0).
Proof. split; vm_compute; reflexivity. Qed.

(** The model on the examples that the source gives: the row in the
    comment of [convertRow], and the maze in the head of the file with
    its solution. *)
Example convertRow_comment_example :
  convertRow None (lit "     |     |        |        |")
             (lit "     |__   |_____   |  ______|") 8
  = Ok [8; 6; 8; 12; 6; 10; 12; 4].
Proof. vm_compute. reflexivity. Qed.

Example main_header_example :
  main headerMaze = Ok (Run (headerMaze ++ headerSolution) [] 1).
Proof. vm_compute. reflexivity. Qed.









(** On every input, the exit code is 1 with the maze on the output, or 0
    with the message on the error stream and no more than the lines
    copied while reading on the output. *)
Lemma main_exit_code (input : list text) (r : run) :
  main input = Ok r ->
  (exit r = 1 /\ stderr r = []) \/
  (exit r = 0 /\ stdout r = input /\
   stderr r = [lit "No path found through maze."]).
Proof.
  unfold main. intros H.
  apply bind_Ok in H. destruct H as (m & _ & H).
  apply bind_Ok in H. destruct H as ([[isSolvable m'] e] & _ & H).
  apply bind_Ok in H. destruct H as (u & _ & H).
  injection H as <-. destruct isSolvable; cbn [exit stdout stderr]; auto.
  right. unfold echoed. rewrite app_nil_r. auto.
Qed.

End Main.

(** * The statements at concrete inputs *)

Section Instances.

Lemma wf_init (w : nat) (ds dr : bool) :
  (0 < w)%nat -> Z.of_nat w < 2 ^ 32 -> GenMaze.wf (GenMaze.init w ds dr).
Proof.
  intros Hpos Hw. unfold GenMaze.wf, GenMaze.init. cbn.
  rewrite length_map, length_seq, !repeat_length. auto.
Qed.


(** C9 on two cells with a passage between them. *)
Lemma convertRow_left_right_agree_witness :
  has (nth 1 [RIGHT; LEFT] 0) LEFT = true
  <-> has (nth (1 - 1) [RIGHT; LEFT] 0) RIGHT = true.
Proof.
  apply (convertRow_left_right_agree None (lit "     |     |")
           (lit "     |_____|") 2 [RIGHT; LEFT] 1).
  - vm_compute. reflexivity.
  - lia.
  - vm_compute. reflexivity.
Defined.

(** C2 on the one cell of [oneCell]. *)
Lemma convertRow_in_bounds_witness :
  exists row,
    SolMaze.convertRow None (lit "     |  |") (lit "     |__|") (Z.of_nat 1)
    = SolMaze.Ok row /\ length row = 1%nat /\
    forall i, (i < 1)%nat ->
      has (nth i row 0) DOWN
      = negb (Ascii.eqb (nth (i * 3 + BUFFER + 1) (lit "     |__|") " "%char)
                        "_") /\
      has (nth i row 0) LEFT
      = negb (Ascii.eqb (nth (i * 3 + BUFFER) (lit "     |  |") " "%char) "|").
Proof.
  apply (convertRow_in_bounds None (lit "     |  |") (lit "     |__|") 1).
  - vm_compute. lia.
  - vm_compute. lia.
  - vm_compute. reflexivity.
  - vm_compute. reflexivity.
  - exact I.
  - reflexivity.
Defined.

(** C2, as worded, fails.  A floor line that ends before the character
    under the cell is read past its end, and a separator other than a
    bar at the left border makes the round for column 0 go to the cell
    before the row: both are faults, not a wall. *)
Lemma convertRow_no_clamping :
  SolMaze.convertRow None (lit "     |  |") (lit "     |") 1
  = SolMaze.Fault SolMaze.OutOfRange /\
  SolMaze.at_ (lit "     |") (wrap (0 * 3 + Z.of_nat BUFFER + 1))
  = SolMaze.Fault SolMaze.OutOfRange /\
  SolMaze.convertRow None (lit "        |") (lit "     |__|") 1
  = SolMaze.Fault SolMaze.OutOfRange /\
  SolMaze.orCell [LEFT] (wrap (0 - 1)) RIGHT
  = SolMaze.Fault SolMaze.OutOfRange.
Proof. repeat split. Qed.

End Instances.

(** * The generator: what a row keeps of the row before it *)

Section Frames.
Import GenMaze.

Lemma adds_refl mask g : wf g -> adds mask g g.
Proof.
  intros Hwf. unfold adds. repeat (split; [solve [auto]|]).
  intros j. exists 0. split; [reflexivity | now rewrite Z.lor_0_r].
Qed.

Lemma adds_trans mask g g1 g2 :
  adds mask g g1 -> adds mask g1 g2 -> adds mask g g2.
Proof.
  intros (_ & Hw1 & Hp1 & Hs1 & Hr1 & H1) (Hwf2 & Hw2 & Hp2 & Hs2 & Hr2 & H2).
  unfold adds. split; [exact Hwf2|]. repeat (split; [congruence|]).
  intros j. destruct (H1 j) as (e1 & He1 & E1). destruct (H2 j) as (e2 & He2 & E2).
  exists (Z.lor e1 e2). split.
  - rewrite Z.land_lor_distr_l, He1, He2. reflexivity.
  - rewrite E2, E1, Z.lor_assoc. reflexivity.
Qed.

Lemma adds_weaken mask mask' g g' :
  Z.land mask mask' = mask -> adds mask g g' -> adds mask' g g'.
Proof.
  intros Hm (Hwf & Hw & Hp & Hs & Hr & H).
  unfold adds. repeat (split; [assumption|]).
  intros j. destruct (H j) as (e & He & E). exists e. split; [|exact E].
  rewrite <- He at 1. rewrite <- Z.land_assoc, Hm. exact He.
Qed.

Lemma adds_orRow mask i f g :
  wf g -> Z.land f mask = f -> adds mask g (orRow i f g).
Proof.
  intros Hwf Hf. unfold adds.
  split; [apply wf_orRow, Hwf|]. repeat (split; [reflexivity|]).
  intros j. destruct (Nat.eq_dec i j) as [<-|Hne].
  - destruct (Nat.lt_ge_cases i (length (row g))) as [Hi|Hi].
    + exists f. split; [exact Hf|]. apply rowAt_orRow_same, Hi.
    + exists 0. split; [reflexivity|]. rewrite Z.lor_0_r.
      unfold orRow, rowAt. cbn. rewrite !nth_overflow; auto.
      rewrite upd_length. exact Hi.
  - exists 0. split; [reflexivity|]. rewrite Z.lor_0_r.
    apply rowAt_orRow_other, Hne.
Qed.

Lemma adds_unionSet mask a b g : wf g -> adds mask g (unionSet a b g).
Proof.
  intros Hwf. pose proof Hwf as (_ & _ & Hls & _).
  destruct (unionSet_spec a b g Hls) as (Hr & Hp & Hw & Hds & Hdr & _).
  unfold adds. split; [apply wf_unionSet, Hwf|].
  repeat (split; [assumption|]).
  intros j. exists 0. split; [reflexivity|]. rewrite Z.lor_0_r.
  unfold rowAt. now rewrite Hr.
Qed.

Lemma adds_wf mask g g' : adds mask g g' -> wf g'.
Proof. intros H. apply H. Qed.

Lemma carveCell_adds rand isLast i g :
  wf g -> adds (carveMask isLast) g (carveCell rand isLast i g).
Proof.
  intros Hwf. unfold carveCell.
  match goal with
  | |- context [if ?c then orRow i DOWN ?x else ?y] =>
      set (g1 := y); set (down := c)
  end.
  assert (H1 : adds (carveMask isLast) g g1).
  { unfold g1. destruct (Z.rem (rand (2 * i)%nat) 2 =? 1);
      [|apply adds_refl, Hwf].
    destruct ((0 <? i)%nat && negb (setAt g i =? setAt g (i - 1)));
      [|apply adds_refl, Hwf].
    assert (A1 : adds (carveMask isLast) g (orRow i LEFT g)).
    { apply adds_orRow; [exact Hwf | destruct isLast; reflexivity]. }
    assert (A2 : adds (carveMask isLast) (orRow i LEFT g)
                      (orRow (i - 1) RIGHT (orRow i LEFT g))).
    { apply adds_orRow; [apply (adds_wf _ _ _ A1) |
                         destruct isLast; reflexivity]. }
    eapply adds_trans; [exact A1|]. eapply adds_trans; [exact A2|].
    apply adds_unionSet. apply (adds_wf _ _ _ A2). }
  cbv zeta. subst down.
  destruct (Z.rem (rand (2 * i + 1)%nat) 2 =? 1); [|exact H1].
  destruct isLast; [exact H1|]. cbn [negb andb].
  eapply adds_trans; [exact H1|].
  apply adds_orRow; [apply (adds_wf _ _ _ H1) | reflexivity].
Qed.

Lemma carve_adds rand isLast g :
  wf g -> adds (carveMask isLast) g (carve rand isLast g).
Proof.
  intros Hwf. unfold carve.
  apply (forUpTo_ind (fun _ g' => adds (carveMask isLast) g g')).
  - apply adds_refl, Hwf.
  - intros i acc _ Ha. eapply adds_trans; [exact Ha|].
    apply carveCell_adds. apply (adds_wf _ _ _ Ha).
Qed.

Lemma forceDown_adds g : wf g -> adds DOWN g (forceDown g).
Proof.
  intros Hwf. unfold forceDown, forceUpTo.
  apply (forUpTo_ind (fun _ g' => adds DOWN g g')).
  - apply adds_refl, Hwf.
  - intros i acc _ Ha. eapply adds_trans; [exact Ha|].
    pose proof (adds_wf _ _ _ Ha) as Hwfa.
    unfold forceCell. destruct (has (rowAt acc i) DOWN);
      [apply adds_refl, Hwfa|].
    destruct (negb _); [|apply adds_refl, Hwfa].
    apply adds_orRow; [exact Hwfa | reflexivity].
Qed.

Lemma closeUpTo_adds g k :
  wf g -> adds (Z.lor LEFT RIGHT) g (closeUpTo k g).
Proof.
  intros Hwf. unfold closeUpTo.
  apply (forUpTo_ind (fun _ g' => adds (Z.lor LEFT RIGHT) g g')).
  - apply adds_refl, Hwf.
  - intros i acc _ Ha. eapply adds_trans; [exact Ha|].
    pose proof (adds_wf _ _ _ Ha) as Hwfa.
    unfold closeCell. destruct (setAt acc i =? setAt acc (i + 1));
      [apply adds_refl, Hwfa|].
    assert (A1 : adds (Z.lor LEFT RIGHT) acc (orRow i RIGHT acc)).
    { apply adds_orRow; [exact Hwfa | reflexivity]. }
    assert (A2 : adds (Z.lor LEFT RIGHT) (orRow i RIGHT acc)
                      (orRow (i + 1) LEFT (orRow i RIGHT acc))).
    { apply adds_orRow; [apply (adds_wf _ _ _ A1) | reflexivity]. }
    eapply adds_trans; [exact A1|]. eapply adds_trans; [exact A2|].
    apply adds_unionSet. apply (adds_wf _ _ _ A2).
Qed.

(** The row that [makeRow] returns, cell by cell: the flag UP of a cell
    that was going DOWN, and on top of it flags among LEFT, RIGHT and
    (not on the last row) DOWN. *)
Lemma makeRow_cells rand isLast g :
  wf g ->
  exists g',
    makeRow rand isLast g = Some g' /\ wf g' /\ width g' = width g /\
    debugsets g' = debugsets g /\ debugrows g' = debugrows g /\
    forall i, (i < width g)%nat ->
      prevAt g' i = rowAt g i /\
      exists e, Z.land e (carveMask isLast) = e /\
                rowAt g' i
                = Z.lor (if has (rowAt g i) DOWN then UP else EMPTY) e.
Proof.
  intros Hwf.
  destruct (resetUpTo_inv g (width g) Hwf (Nat.le_refl _))
    as (g1 & n & E1 & Hwf1 & Hw1 & _ & Hds1 & Hdr1 & _ & Hlt).
  pose proof (carve_adds rand isLast g1 Hwf1) as A2.
  set (g2 := carve rand isLast g1) in *.
  pose proof (adds_wf _ _ _ A2) as Hwf2.
  assert (A3 : exists g', makeRow rand isLast g = Some g' /\
                          adds (carveMask isLast) g1 g').
  { unfold makeRow, carved. fold (reset g) in E1.
    unfold reset in *. rewrite E1. fold g2.
    destruct isLast; cbn [negb].
    - exists (closeLast g2). split; [reflexivity|].
      eapply adds_trans; [exact A2|]. unfold closeLast.
      apply (adds_weaken (Z.lor LEFT RIGHT)); [reflexivity|].
      apply closeUpTo_adds, Hwf2.
    - exists (forceDown g2). split; [reflexivity|].
      eapply adds_trans; [exact A2|].
      apply (adds_weaken DOWN); [reflexivity|].
      apply forceDown_adds, Hwf2. }
  destruct A3 as (g' & E' & Hwf' & Hw' & Hp' & Hds' & Hdr' & Hrow).
  exists g'. split; [exact E'|]. split; [exact Hwf'|].
  split; [congruence|]. split; [congruence|]. split; [congruence|].
  intros i Hi. destruct (Hlt i Hi) as (Hr & Hp & _). split.
  - unfold prevAt in *. rewrite Hp'. exact Hp.
  - destruct (Hrow i) as (e & He & E). exists e. split; [exact He|].
    rewrite E, Hr. reflexivity.
Qed.

(** A cell made of the four flags is a number below 16, and such a
    number is the sum of its flags. *)
Lemma submask_range e m :
  Z.land e m = e -> Z.land m 15 = m -> 0 <= e < 16.
Proof.
  intros He Hm.
  assert (H : Z.land e 15 = e).
  { rewrite <- He at 1. rewrite <- Z.land_assoc, Hm. exact He. }
  change 15 with (Z.ones 4) in H. rewrite Z.land_ones in H by lia.
  rewrite <- H. apply Z.mod_pos_bound. lia.
Qed.

Lemma submask_lacks e m f :
  Z.land e m = e -> Z.land m f = 0 -> has e f = false.
Proof.
  intros He Hf. unfold has.
  rewrite <- He, <- Z.land_assoc, Hf, Z.land_0_r. reflexivity.
Qed.

Lemma lor_below_16 a b : 0 <= a < 16 -> 0 <= b < 16 -> 0 <= Z.lor a b < 16.
Proof.
  intros Ha Hb. split; [apply Z.lor_nonneg; lia|].
  assert (H : Z.land (Z.lor a b) (Z.ones 4) = Z.lor a b).
  { rewrite Z.land_lor_distr_l, !Z.land_ones by lia.
    rewrite !Z.mod_small by (change (2 ^ 4) with 16; lia). reflexivity. }
  rewrite Z.land_ones in H by lia. rewrite <- H.
  apply Z.mod_pos_bound. lia.
Qed.


(** X1.  [makeRow] saves the row it finds in [previousRow]; in the row
    it returns a cell has UP exactly when the cell above it was going
    DOWN, every cell is made of the four flags only, and on the last
    row no cell goes DOWN. *)
Theorem makeRow_vertical (rand : nat -> Z) (isLast : bool) (g : globals) :
  wf g ->
  exists g',
    makeRow rand isLast g = Some g' /\
    forall i, (i < width g)%nat ->
      prevAt g' i = rowAt g i /\
      has (rowAt g' i) UP = has (rowAt g i) DOWN /\
      0 <= rowAt g' i < 16 /\
      (isLast = true -> has (rowAt g' i) DOWN = false).
Proof.
  intros Hwf.
  destruct (makeRow_cells rand isLast g Hwf)
    as (g' & E & _ & _ & _ & _ & Hc).
  exists g'. split; [exact E|]. intros i Hi.
  destruct (Hc i Hi) as (Hp & e & He & Er).
  split; [exact Hp|]. rewrite Er.
  assert (Hm15 : Z.land (carveMask isLast) 15 = carveMask isLast)
    by (destruct isLast; reflexivity).
  pose proof (submask_range e _ He Hm15) as Hrange.
  assert (HeU : has e UP = false).
  { apply (submask_lacks e _ UP He). destruct isLast; reflexivity. }
  split; [|split].
  - rewrite has_lor, HeU, orb_false_r.
    destruct (has (rowAt g i) DOWN); reflexivity.
  - apply lor_below_16; [|exact Hrange].
    destruct (has (rowAt g i) DOWN); cbv; split; congruence.
  - intros ->. rewrite has_lor.
    rewrite (submask_lacks e _ DOWN He) by reflexivity.
    destruct (has (rowAt g i) DOWN); reflexivity.
Qed.

End Frames.

(** * The generator: sets and passages *)

Section Sets.
Import GenMaze.

(** Opening the passage between [i] and [i + 1] and merging the set of
    [i] into the set of [i + 1] keeps joined columns joined. *)
Lemma joined_merge i g g2 :
  wf g -> (S i < width g)%nat -> joined g -> opened i g g2 ->
  joined (unionSet (setAt g2 (S i)) (setAt g2 i) g2).
Proof.
  intros Hwf Hi Hj (Hwf2 & Hw2 & Hs2 & Hf2).
  pose proof Hwf2 as (_ & _ & Hls2 & _).
  destruct (unionSet_spec (setAt g2 (S i)) (setAt g2 i) g2 Hls2)
    as (Hrow & _ & Hw & _ & _ & _ & Hset).
  assert (Hsame : forall k, setAt g2 k = setAt g k).
  { intros k. unfold setAt. now rewrite Hs2. }
  intros k Hk HR. rewrite Hw, Hw2 in Hk.
  rewrite !Hset by lia. rewrite !Hsame.
  unfold rowAt in HR. rewrite Hrow in HR. fold (rowAt g2 k) in HR.
  rewrite Hf2 in HR.
  change (has RIGHT RIGHT) with true in HR.
  change (has LEFT RIGHT) with false in HR.
  rewrite andb_true_r, andb_false_r, orb_false_r in HR.
  destruct (Nat.eqb_spec i k) as [<-|Hne].
  - rewrite Z.eqb_refl.
    destruct (setAt g (S i) =? setAt g i); reflexivity.
  - rewrite orb_false_r in HR. rewrite (Hj k Hk HR). reflexivity.
Qed.

Lemma upd_overflow {A} (i : nat) (v : A) (l : list A) :
  (length l <= i)%nat -> upd i v l = l.
Proof.
  revert i. induction l as [|h t IH]; intros [|i] H; simpl in *; auto; try lia.
  f_equal. apply IH. lia.
Qed.

(** A step that leaves the sets and the RIGHT flags alone. *)
Lemma joined_same g g' :
  width g' = width g -> set g' = set g ->
  (forall j, has (rowAt g' j) RIGHT = has (rowAt g j) RIGHT) ->
  joined g -> joined g'.
Proof.
  intros Hw Hs Hr Hj k Hk HR. rewrite Hw in Hk. rewrite Hr in HR.
  unfold setAt. rewrite Hs. apply (Hj k Hk HR).
Qed.

Lemma joined_down i g : wf g -> joined g -> joined (orRow i DOWN g).
Proof.
  intros Hwf Hj. apply (joined_same g); [reflexivity | reflexivity | | exact Hj].
  intros j. destruct (Nat.lt_ge_cases i (length (row g))) as [Hi|Hi].
  - rewrite has_orRow by exact Hi. change (has DOWN RIGHT) with false.
    now rewrite andb_false_r, orb_false_r.
  - unfold orRow, rowAt, with_row. cbn [row].
    rewrite upd_overflow by exact Hi. reflexivity.
Qed.

Lemma carveCell_joined rand isLast i g :
  wf g -> (i < width g)%nat -> joined g ->
  wf (carveCell rand isLast i g) /\
  width (carveCell rand isLast i g) = width g /\
  joined (carveCell rand isLast i g).
Proof.
  intros Hwf Hi Hj. unfold carveCell.
  match goal with
  | |- context [if ?c then orRow i DOWN ?x else ?y] =>
      set (g1 := y); set (down := c)
  end.
  assert (H1 : wf g1 /\ width g1 = width g /\ joined g1).
  { unfold g1. destruct (Z.rem (rand (2 * i)%nat) 2 =? 1); [|auto].
    destruct ((0 <? i)%nat && negb (setAt g i =? setAt g (i - 1))) eqn:E;
      [|auto].
    apply andb_prop in E. destruct E as (E & _). apply Nat.ltb_lt in E.
    destruct i as [|i]; [lia|]. replace (S i - 1)%nat with i by lia.
    pose proof (opened_left_first i g Hwf Hi) as Ho.
    pose proof Ho as (Hwf2 & Hw2 & _).
    split; [apply wf_unionSet, Hwf2|]. split.
    - rewrite width_unionSet by exact Hwf2. exact Hw2.
    - apply (joined_merge i g); assumption. }
  destruct H1 as (Hwf1 & Hw1 & Hj1). cbv zeta.
  destruct down; [|auto].
  split; [apply wf_orRow, Hwf1|]. split; [exact Hw1|].
  apply joined_down; assumption.
Qed.

Lemma closeCell_joined r g :
  wf g -> (S r < width g)%nat -> joined g ->
  wf (closeCell r g) /\ width (closeCell r g) = width g /\
  joined (closeCell r g).
Proof.
  intros Hwf Hr Hj. unfold closeCell. rewrite Nat.add_1_r.
  destruct (setAt g r =? setAt g (S r)); [auto|]. cbv zeta.
  pose proof (opened_right_first r g Hwf Hr) as Ho.
  pose proof Ho as (Hwf2 & Hw2 & _).
  split; [apply wf_unionSet, Hwf2|]. split.
  - rewrite width_unionSet by exact Hwf2. exact Hw2.
  - apply (joined_merge r g); assumption.
Qed.

Lemma forceCell_joined r g :
  wf g -> joined g ->
  wf (forceCell r g) /\ width (forceCell r g) = width g /\
  joined (forceCell r g).
Proof.
  intros Hwf Hj. unfold forceCell.
  destruct (has (rowAt g r) DOWN); [auto|].
  destruct (negb _); [|auto].
  split; [apply wf_orRow, Hwf|]. split; [reflexivity|].
  apply joined_down; assumption.
Qed.

(** X2.  In the row that [makeRow] returns, two neighbouring columns
    with a passage between them carry the same set number. *)
Theorem makeRow_passage_in_one_set (rand : nat -> Z) (isLast : bool)
        (g : globals) :
  wf g ->
  exists g',
    makeRow rand isLast g = Some g' /\
    forall i, (S i < width g)%nat ->
      has (rowAt g' i) RIGHT = true -> setAt g' i = setAt g' (S i).
Proof.
  intros Hwf.
  destruct (reset_keeps g Hwf) as (g1 & n & E1 & Hwf1 & Hw1 & Hh1).
  assert (J1 : joined g1).
  { intros k Hk HR. exfalso.
    destruct (resetUpTo_inv g (width g) Hwf (Nat.le_refl _))
      as (g1' & n' & E1' & _ & _ & _ & _ & _ & _ & Hlt).
    unfold reset in E1. rewrite E1 in E1'. injection E1' as <- <-.
    rewrite Hw1 in Hk. destruct (Hlt k ltac:(lia)) as (Hr & _).
    rewrite Hr in HR. destruct (has (rowAt g k) DOWN); discriminate. }
  assert (J2 : wf (carve rand isLast g1) /\
               width (carve rand isLast g1) = width g1 /\
               joined (carve rand isLast g1)).
  { unfold carve.
    apply (forUpTo_ind (fun _ g' => wf g' /\ width g' = width g1 /\ joined g')).
    - auto.
    - intros i acc Hi (Hwfa & Hwa & Hja).
      destruct (carveCell_joined rand isLast i acc Hwfa ltac:(lia) Hja)
        as (? & ? & ?).
      split; [assumption|]. split; [congruence | assumption]. }
  set (g2 := carve rand isLast g1) in *. destruct J2 as (Hwf2 & Hw2 & J2).
  pose proof Hwf2 as (Hpos & _).
  assert (G : exists g', makeRow rand isLast g = Some g' /\
                         width g' = width g /\ joined g').
  { unfold makeRow, carved. rewrite E1. fold g2. destruct isLast; cbn [negb].
    - exists (closeLast g2). split; [reflexivity|].
      unfold closeLast, closeUpTo. rewrite closeLast_bound by exact Hwf2.
      assert (K : forall k, (k < width g2)%nat ->
                  wf (forUpTo k closeCell g2) /\
                  width (forUpTo k closeCell g2) = width g2 /\
                  joined (forUpTo k closeCell g2)).
      { induction k as [|k IH]; intros Hk; [auto|].
        rewrite forUpTo_S. destruct (IH ltac:(lia)) as (Hwfk & Hwk & Hjk).
        destruct (closeCell_joined k _ Hwfk ltac:(lia) Hjk) as (? & ? & ?).
        split; [assumption|]. split; [congruence | assumption]. }
      destruct (K (width g2 - 1)%nat ltac:(lia)) as (_ & Hw' & Hj').
      split; [congruence | exact Hj'].
    - exists (forceDown g2). split; [reflexivity|].
      unfold forceDown, forceUpTo.
      assert (K : wf (forUpTo (width g2) forceCell g2) /\
                  width (forUpTo (width g2) forceCell g2) = width g2 /\
                  joined (forUpTo (width g2) forceCell g2)).
      { apply (forUpTo_ind
                 (fun _ g' => wf g' /\ width g' = width g2 /\ joined g')).
        - auto.
        - intros i acc _ (Hwfa & Hwa & Hja).
          destruct (forceCell_joined i acc Hwfa Hja) as (? & ? & ?).
          split; [assumption|]. split; [congruence | assumption]. }
      destruct K as (_ & Hw' & Hj'). split; [congruence | exact Hj']. }
  destruct G as (g' & E' & Hw' & Hj').
  exists g'. split; [exact E'|]. intros i Hi. apply Hj'. lia.
Qed.

(** The labels after the first [k] rounds of the first loop: a column
    that was given a new number shares it with no other column. *)
Lemma resetUpTo_fresh_alone g k :
  wf g -> (k <= width g)%nat ->
  exists gk nk,
    resetUpTo k g = Some (gk, nk) /\ resetInv g k gk nk /\
    forall i j, (i < k)%nat -> (j < width g)%nat -> i <> j ->
      has (rowAt g i) DOWN = false -> setAt gk i <> setAt gk j.
Proof.
  intros Hwf. induction k as [|k IH]; intros Hk.
  - destruct (resetUpTo_inv g 0 Hwf ltac:(lia)) as (g0 & n0 & E0 & H0).
    exists g0, n0. split; [exact E0|]. split; [exact H0|]. intros; lia.
  - destruct (IH ltac:(lia)) as (gk & nk & Ek & Hinv & Hal).
    pose proof Hinv as (Hwfk & Hwk & Hnk & _ & _ & Hge & _).
    destruct (resetCell_spec k gk nk Hwfk ltac:(lia) Hnk)
      as (g' & n' & E' & Hpost).
    pose proof Hpost as (_ & _ & _ & _ & _ & Hoth & _ & Hdown & Hfresh).
    destruct (resetUpTo_inv g (S k) Hwf Hk) as (g'' & n'' & E'' & Hinv'').
    assert (E3 : resetUpTo (S k) g = Some (g', n')).
    { unfold resetUpTo in *. rewrite forUpToM_S, Ek. exact E'. }
    rewrite E3 in E''. injection E'' as <- <-.
    exists g', n'. split; [exact E3|]. split; [exact Hinv''|].
    destruct (Hge k (Nat.le_refl _)) as (Hrk & _).
    assert (Hlive : forall j, (j < width g)%nat -> live gk (setAt gk j)).
    { intros j Hj. exists j. split; [lia | reflexivity]. }
    intros i j Hi Hj Hij Hd.
    destruct (has (rowAt gk k) DOWN) eqn:Edk.
    + (* column k keeps its set *)
      destruct (Hdown eq_refl) as (_ & Hs & _).
      unfold setAt. rewrite Hs. fold (setAt gk i) (setAt gk j).
      destruct (Nat.eq_dec i k) as [->|Hik]; [congruence|].
      apply Hal; auto; lia.
    + destruct (Hfresh eq_refl) as (_ & Hs & Hsk & kk & _ & _ & Hnl & _).
      destruct (Nat.eq_dec i k) as [->|Hik].
      * rewrite Hsk. destruct (Hoth j ltac:(lia)) as (_ & _ & ->).
        intros Heq. apply Hnl. rewrite Heq. apply Hlive, Hj.
      * destruct (Hoth i Hik) as (_ & _ & ->).
        destruct (Nat.eq_dec j k) as [->|Hjk].
        -- rewrite Hsk. intros Heq. apply Hnl. rewrite <- Heq.
           apply Hlive. lia.
        -- destruct (Hoth j Hjk) as (_ & _ & ->). apply Hal; auto; lia.
Qed.

(** X3.  After the first loop of [makeRow], two different columns carry
    the same set number only if both were going DOWN and carried the
    same set number before: a new number never joins two columns. *)
Theorem reset_never_joins (g : globals) :
  wf g ->
  exists g1 n,
    reset g = Some (g1, n) /\
    forall i j, (i < width g)%nat -> (j < width g)%nat -> i <> j ->
      setAt g1 i = setAt g1 j ->
      has (rowAt g i) DOWN = true /\ has (rowAt g j) DOWN = true /\
      setAt g i = setAt g j.
Proof.
  intros Hwf.
  destruct (resetUpTo_fresh_alone g (width g) Hwf (Nat.le_refl _))
    as (g1 & n & E & Hinv & Hal).
  exists g1, n. split; [exact E|].
  destruct Hinv as (_ & _ & _ & _ & _ & _ & Hlt).
  intros i j Hi Hj Hij Heq.
  destruct (has (rowAt g i) DOWN) eqn:Edi.
  - destruct (has (rowAt g j) DOWN) eqn:Edj.
    + split; [reflexivity|]. split; [reflexivity|].
      destruct (Hlt i Hi) as (_ & _ & Hsi). destruct (Hlt j Hj) as (_ & _ & Hsj).
      rewrite <- (Hsi Edi), <- (Hsj Edj). exact Heq.
    + exfalso. apply (Hal j i Hj Hi ltac:(auto) Edj). auto.
  - exfalso. apply (Hal i j Hi Hj Hij Edi). exact Heq.
Qed.

(** X4.  [unionSet(a, b)] gives the number [a] to every column that
    carried [b] and leaves every other column, and the rows, as they
    were; when the two numbers differ no column carries [b] after it. *)
Theorem unionSet_merges (a b : Z) (g : globals) :
  length (set g) = width g ->
  row (unionSet a b g) = row g /\
  previousRow (unionSet a b g) = previousRow g /\
  (forall j, (j < width g)%nat ->
     setAt (unionSet a b g) j = if setAt g j =? b then a else setAt g j) /\
  (a <> b -> forall j, (j < width g)%nat -> setAt (unionSet a b g) j <> b).
Proof.
  intros Hl.
  destruct (unionSet_spec a b g Hl) as (Hr & Hp & _ & _ & _ & _ & Hs).
  split; [exact Hr|]. split; [exact Hp|]. split; [exact Hs|].
  intros Hab j Hj. rewrite (Hs j Hj).
  destruct (Z.eqb_spec (setAt g j) b); congruence.
Qed.

End Sets.

(** * From the generator to the solver: a rendered row read back *)

Section ReadBack.
Import GenMaze SolMaze.

Lemma length_chunks {A} (f : nat -> list A) (c : nat) (l : list nat) :
  (forall i, length (f i) = c) -> length (flat_map f l) = (c * length l)%nat.
Proof.
  intros Hf. induction l as [|h t IH]; simpl; [lia|].
  rewrite length_app, Hf, IH. lia.
Qed.

(** A cell below 16 is printed in two columns. *)
Lemma fmt_d2_small v : 0 <= v < 16 -> length (fmt_d2 v) = 2%nat.
Proof.
  intros H.
  assert (C : v = 0 \/ v = 1 \/ v = 2 \/ v = 3 \/ v = 4 \/ v = 5 \/ v = 6 \/
              v = 7 \/ v = 8 \/ v = 9 \/ v = 10 \/ v = 11 \/ v = 12 \/
              v = 13 \/ v = 14 \/ v = 15) by lia.
  repeat (destruct C as [->|C]; [reflexivity|]). subst v. reflexivity.
Qed.

(** A cell of the middle line is two characters and the separator. *)
Lemma middleCell_shape g r :
  twoWide g ->
  exists a b,
    middleCell g r
    = [a; b; if has (rowAt g r) RIGHT then " "%char else "|"%char].
Proof.
  intros (Hs & Hr). unfold middleCell. rewrite Hs.
  set (inside := if debugrows g then _ else _).
  assert (H : exists a b, inside = [a; b]).
  { unfold inside. destruct (debugrows g) eqn:Ed.
    - destruct Hr as [Hr|Hr]; [discriminate|].
      pose proof (fmt_d2_small _ (Hr r)) as L.
      destruct (fmt_d2 (rowAt g r)) as [|a [|b [|c t]]]; try discriminate L.
      eauto.
    - exists " "%char, " "%char. reflexivity. }
  destruct H as (a & b & ->). exists a, b.
  destruct (has (rowAt g r) RIGHT); reflexivity.
Qed.

Lemma middleCell_length g r : twoWide g -> length (middleCell g r) = 3%nat.
Proof.
  intros H. destruct (middleCell_shape g r H) as (a & b & ->). reflexivity.
Qed.

Lemma twoWide_plain w g : plain w g -> twoWide g.
Proof.
  intros (Hwf & Hw & Hs & _ & Hrange). split; [exact Hs|]. right.
  intros i. destruct (Nat.lt_ge_cases i w) as [Hi|Hi]; [apply Hrange, Hi|].
  unfold rowAt. rewrite nth_overflow; [lia|].
  destruct Hwf as (_ & _ & _ & _ & Hlr). lia.
Qed.

Lemma bottomCell_length g r : length (bottomCell g r) = 3%nat.
Proof. unfold bottomCell. destruct (has (rowAt g r) LEFT); reflexivity. Qed.

Lemma topLine_length isFirst g :
  length (topLine isFirst g) = (BUFFER + 1 + 3 * GenMaze.width g)%nat.
Proof.
  unfold topLine, margin. rewrite !length_app, repeat_length.
  rewrite (length_chunks _ 3) by apply topCell_length.
  rewrite length_seq. destruct isFirst; simpl; lia.
Qed.

Lemma middleLine_length g :
  twoWide g ->
  length (middleLine g) = (BUFFER + 1 + 3 * GenMaze.width g)%nat.
Proof.
  intros Hs. unfold middleLine, margin.
  rewrite !length_app, repeat_length.
  rewrite (length_chunks _ 3) by (intros; apply middleCell_length; assumption).
  rewrite length_seq. simpl. lia.
Qed.

Lemma bottomLine_length g :
  length (bottomLine g) = (BUFFER + 1 + 3 * GenMaze.width g)%nat.
Proof.
  unfold bottomLine, margin. rewrite !length_app, repeat_length.
  rewrite (length_chunks _ 3) by apply bottomCell_length.
  rewrite length_seq. simpl. lia.
Qed.

Lemma middleLine_column g r k :
  twoWide g ->
  (r < GenMaze.width g)%nat -> (k < 3)%nat ->
  nth_error (middleLine g) (BUFFER + 1 + 3 * r + k)
  = nth_error (middleCell g r) k.
Proof.
  intros Hs Hr Hk. unfold middleLine.
  rewrite nth_error_app2 by (unfold margin; rewrite repeat_length; lia).
  unfold margin. rewrite repeat_length.
  rewrite nth_error_app2 by (simpl; lia).
  replace (BUFFER + 1 + 3 * r + k - BUFFER - length (lit "|"))%nat
    with (3 * r + k)%nat by (simpl; lia).
  rewrite (nth_error_chunks (middleCell g) 3)
    by (auto; intros; apply middleCell_length; assumption).
  reflexivity.
Qed.


(** What the parser tests, on the lines that the generator prints. *)
Lemma at_nth_error {A} (l : list A) (i : nat) (v : A) :
  nth_error l i = Some v -> at_ l (Z.of_nat i) = Ok v.
Proof.
  intros H. apply at_Ok_iff. split; [lia|]. now rewrite Nat2Z.id.
Qed.

Lemma sepOpen_middleLine g i :
  twoWide g ->
  (i < GenMaze.width g)%nat -> Z.of_nat (3 * GenMaze.width g + 6) < 2 ^ 32 ->
  sepOpen (middleLine g) i
  = match i with O => false | S j => has (rowAt g j) RIGHT end.
Proof.
  intros Hs Hi Hw. unfold sepOpen.
  rewrite wrap_small by (unfold BUFFER; lia).
  destruct i as [|j].
  - replace (Z.of_nat 0 * 3 + Z.of_nat BUFFER) with (Z.of_nat BUFFER) by lia.
    rewrite (at_nth_error _ _ "|"%char); [reflexivity|].
    unfold middleLine, margin.
    rewrite nth_error_app2 by (rewrite repeat_length; lia).
    rewrite repeat_length, Nat.sub_diag. reflexivity.
  - replace (Z.of_nat (S j) * 3 + Z.of_nat BUFFER)
      with (Z.of_nat (BUFFER + 1 + 3 * j + 2)) by lia.
    rewrite (at_nth_error _ _ (if has (rowAt g j) RIGHT then " " else "|")%char).
    + destruct (has (rowAt g j) RIGHT); reflexivity.
    + rewrite middleLine_column by (auto; lia).
      destruct (middleCell_shape g j Hs) as (a & b & ->). reflexivity.
Qed.

Lemma floorOpen_topLine isFirst g i :
  (i < GenMaze.width g)%nat -> Z.of_nat (3 * GenMaze.width g + 6) < 2 ^ 32 ->
  floorOpen (topLine isFirst g) i = has (rowAt g i) UP.
Proof.
  intros Hi Hw. unfold floorOpen.
  rewrite wrap_small by (unfold BUFFER; lia).
  replace (Z.of_nat i * 3 + Z.of_nat BUFFER + 1)
    with (Z.of_nat (BUFFER + 1 + 3 * i + 0)) by lia.
  rewrite (at_nth_error _ _ (if has (rowAt g i) UP then " " else "_")%char).
  - destruct (has (rowAt g i) UP); reflexivity.
  - rewrite topLine_column by (auto; lia).
    unfold topCell. destruct (has (rowAt g i) UP); reflexivity.
Qed.




End ReadBack.

(** * The solver: read *)

Section ReadText.
Import SolMaze.

Lemma toInt_small z : 0 <= z < 2 ^ 31 -> toInt z = z.
Proof.
  intros H. unfold toInt. rewrite wrap_small by lia.
  destruct (Z.ltb_spec z (2 ^ 31)); lia.
Qed.

Lemma nth_error_last {A} (l : list A) (d : A) :
  l <> [] -> nth_error l (length l - 1) = Some (last l d).
Proof.
  induction l as [|h t IH]; intros H; [congruence|].
  destruct t as [|h' t']; [reflexivity|].
  cbn [length last] in *. replace (S (S (length t')) - 1)%nat
    with (S (S (length t') - 1)) by lia.
  cbn [nth_error]. apply IH. discriminate.
Qed.

(** A line that [read] only stores: any line at an odd count but the
    second. *)
Lemma readLine_stores ln m k :
  0 <= k -> k + 1 < 2 ^ 31 -> k mod 2 = 1 -> k <> 1 ->
  readLine ln (m, k) = Ok (with_lines (lines m ++ [ln]) m, k + 1).
Proof.
  intros H0 Hk Hodd H1. unfold readLine.
  replace (k =? 1) with false by (symmetry; apply Z.eqb_neq; lia).
  cbn [bind].
  rewrite Z.rem_mod_nonneg by lia. rewrite Hodd. cbn [Z.eqb negb orb].
  rewrite wrap_small by lia. reflexivity.
Qed.

(** The line that completes a row: [rs] are the rows read so far, [b]
    the line before this one. *)
Lemma readLine_parses c m k rs b :
  k = 2 * Z.of_nat (length rs) + 2 -> k + 1 < 2 ^ 31 ->
  Z.of_nat (length (lines m)) = k ->
  nth_error (lines m) (Z.to_nat (k - 1)) = Some b ->
  rows m = map Some rs ++ [None; None] ->
  readLine c (m, k)
  = (col <- convertRow (last (map Some rs) None) b c (width m) ;;
     Ok (with_rows (map Some (rs ++ [col]) ++ [None; None])
                   (with_lines (lines m ++ [c]) m), k + 1)).
Proof.
  intros Hk Hlt Hlen Hb Hrows. unfold readLine.
  set (j := Z.of_nat (length rs)) in *.
  replace (k =? 1) with false by (symmetry; apply Z.eqb_neq; lia).
  cbn [bind].
  rewrite Z.rem_mod_nonneg by lia.
  replace (k mod 2) with 0 by (subst k; Z.div_mod_to_equations; lia).
  cbn [Z.eqb negb orb]. rewrite (wrap_small (k + 1)) by lia.
  replace (k + 1 <=? 2) with false by (symmetry; apply Z.leb_gt; lia).
  assert (Hdiv : (k + 1) / 2 = j + 1)
    by (subst k; Z.div_mod_to_equations; lia).
  rewrite Hdiv.
  cbn [with_lines lines rows width].
  assert (Hlast : (if 3 <? k + 1
                   then at_ (rows m) (toInt (wrap (j + 1 - 2)))
                   else Ok None)
                  = Ok (last (map Some rs) None)).
  { destruct (Z.ltb_spec 3 (k + 1)) as [H3|H3].
    - rewrite wrap_small, toInt_small by lia.
      apply at_Ok_iff. split; [lia|]. rewrite Hrows.
      assert (Hj : (Z.to_nat (j + 1 - 2) = length (map Some rs) - 1)%nat)
        by (rewrite length_map; lia).
      rewrite Hj. rewrite nth_error_app1 by (rewrite length_map; lia).
      apply nth_error_last. destruct rs; [cbn in *; lia | discriminate].
    - assert (length rs = 0%nat) by lia.
      destruct rs; [reflexivity | discriminate]. }
  rewrite Hlast. cbn [bind].
  rewrite (wrap_small (k + 1 - 2)), (wrap_small (k + 1 - 1)) by lia.
  rewrite !toInt_small by lia.
  assert (Eb : at_ (lines m ++ [c]) (k + 1 - 2) = Ok b).
  { apply at_Ok_iff. split; [lia|].
    replace (k + 1 - 2) with (k - 1) by lia.
    rewrite nth_error_app1; [exact Hb|]. lia. }
  assert (Ec : at_ (lines m ++ [c]) (k + 1 - 1) = Ok c).
  { apply at_Ok_iff. split; [lia|].
    replace (Z.to_nat (k + 1 - 1)) with (length (lines m)) by lia.
    rewrite nth_error_app2 by lia. rewrite Nat.sub_diag. reflexivity. }
  rewrite Eb, Ec. cbn [bind].
  destruct (convertRow (last (map Some rs) None) b c (width m)) as [col| |];
    cbn [bind]; try reflexivity.
  change (rows (with_lines (lines m ++ [c]) m)) with (rows m).
  rewrite Hrows. rewrite (toInt_small (j + 1)) by lia.
  assert (Hl2 : Z.of_nat (length (map Some rs ++ [@None (list Z); None]))
                = j + 2).
  { rewrite length_app, length_map. cbn [length]. lia. }
  rewrite Hl2.
  replace (j + 2 <=? j + 1) with false by (symmetry; apply Z.leb_gt; lia).
  change (rows (with_lines (lines m ++ [c]) m)) with (rows m).
  rewrite Hrows.
  rewrite (wrap_small (j + 1 - 1)) by lia. rewrite toInt_small by lia.
  unfold insertAt. rewrite Hl2.
  replace ((0 <=? j + 1 - 1) && (j + 1 - 1 <=? j + 2)) with true
    by (symmetry; apply andb_true_iff; split; apply Z.leb_le; lia).
  cbn [bind].
  replace (Z.to_nat (j + 1 - 1)) with (length (map Some rs))
    by (rewrite length_map; lia).
  rewrite firstn_app, skipn_app, firstn_all, skipn_all, Nat.sub_diag.
  cbn [firstn skipn app].
  rewrite app_nil_r, map_app. cbn [map].
  rewrite <- app_assoc. reflexivity.
Qed.

Lemma parseFrom_length a w ls rs :
  parseFrom a w ls = Ok rs -> length rs = (length ls / 2)%nat.
Proof.
  revert a ls rs.
  assert (G : forall n a ls rs, (length ls <= n)%nat ->
              parseFrom a w ls = Ok rs -> length rs = (length ls / 2)%nat).
  { induction n as [|n IH]; intros a ls rs Hn H.
    - destruct ls; [injection H as <-; reflexivity | simpl in Hn; lia].
    - destruct ls as [|b [|c rest]]; try (injection H as <-; reflexivity).
      cbn [parseFrom] in H.
      apply bind_Ok in H. destruct H as (r & _ & H).
      apply bind_Ok in H. destruct H as (rs' & Hrs' & H). injection H as <-.
      apply IH in Hrs'; [|simpl in Hn; lia].
      cbn [length]. rewrite Hrs'.
      change (S (S (length rest))) with (2 + length rest)%nat.
      replace (2 + length rest)%nat with (length rest + 1 * 2)%nat by lia.
      rewrite Nat.div_add by lia. lia. }
  intros a ls rs. apply (G (length ls)). lia.
Qed.

(** From a state that has just stored the passage line [b] of a row,
    the rest of the text is read two lines at a time. *)
Lemma readLines_pairs n :
  forall rest m k rs b,
    (length rest <= n)%nat ->
    k = 2 * Z.of_nat (length rs) + 2 ->
    k + Z.of_nat (length rest) < 2 ^ 31 ->
    Z.of_nat (length (lines m)) = k ->
    nth_error (lines m) (Z.to_nat (k - 1)) = Some b ->
    rows m = map Some rs ++ [None; None] ->
    readLines rest (m, k)
    = (rs' <- parseFrom (last (map Some rs) None) (width m) (b :: rest) ;;
       Ok (with_rows (map Some (rs ++ rs') ++ [None; None])
                     (with_lines (lines m ++ rest) m),
           k + Z.of_nat (length rest))).
Proof.
  induction n as [|n IH]; intros rest m k rs b Hn Hk Hlt Hlen Hb Hrows.
  - destruct rest; [|simpl in Hn; lia]. cbn.
    rewrite !app_nil_r, <- Hrows, Z.add_0_r. destruct m; reflexivity.
  - destruct rest as [|c more].
    { cbn. rewrite !app_nil_r, <- Hrows, Z.add_0_r. destruct m; reflexivity. }
    cbn [readLines length] in *.
    rewrite (readLine_parses c m k rs b) by (auto; lia).
    cbn [parseFrom].
    destruct (convertRow (last (map Some rs) None) b c (width m))
      as [col| |]; cbn [bind]; try reflexivity.
    set (m1 := with_rows (map Some (rs ++ [col]) ++ [None; None])
                         (with_lines (lines m ++ [c]) m)).
    destruct more as [|b' more'].
    { reflexivity. }
    cbn [readLines length] in *.
    rewrite (readLine_stores b' m1 (k + 1))
      by (try lia; subst k; Z.div_mod_to_equations; lia).
    cbn [bind].
    set (m2 := with_lines (lines m1 ++ [b']) m1).
    rewrite (IH more' m2 (k + 1 + 1) (rs ++ [col]) b').
    + change (width m2) with (width m).
      replace (last (map Some (rs ++ [col])) None) with (Some col)
        by (rewrite map_app; cbn [map]; now rewrite last_last).
      destruct (parseFrom (Some col) (width m) (b' :: more')) as [rs''| |];
        cbn [bind]; try reflexivity.
      unfold m2, m1, with_rows, with_lines. cbn.
      rewrite <- !app_assoc. cbn [app].
      f_equal. f_equal. lia.
    + lia.
    + rewrite length_app. cbn [length]. lia.
    + lia.
    + unfold m2, m1. cbn. rewrite !length_app. cbn [length]. lia.
    + unfold m2, m1. cbn.
      replace (Z.to_nat (k + 1 + 1 - 1)) with (length (lines m ++ [c]))
        by (rewrite length_app; cbn [length]; lia).
      rewrite nth_error_app2 by lia. rewrite Nat.sub_diag. reflexivity.
    + reflexivity.
Qed.

(** [read] on a text of two lines or more, as the rows of its pairs of
    lines. *)
Lemma read_pairs (l0 l1 : text) (tl : list text) :
  Z.of_nat (length (l0 :: l1 :: tl)) < 2 ^ 31 ->
  read (l0 :: l1 :: tl) emptyMaze
  = (rs <- parseFrom None (widthOf l1) (l1 :: tl) ;;
     Ok (Maze (l0 :: l1 :: tl) (widthOf l1)
              (wrap (Z.of_nat (length (l0 :: l1 :: tl)) / 2 - 1))
              (map Some rs ++
               (if Nat.even (length (l0 :: l1 :: tl)) then [None] else []))
              0 0)).
Proof.
  intros Hlt. unfold read. cbn [readLines length] in *.
  assert (E0 : readLine l0 (emptyMaze, 0)
               = Ok (with_lines [l0] emptyMaze, 1)) by reflexivity.
  rewrite E0. cbn [bind].
  assert (E1 : readLine l1 (with_lines [l0] emptyMaze, 1)
               = Ok (with_width (widthOf l1)
                       (with_lines [l0; l1] emptyMaze), 2)) by reflexivity.
  rewrite E1. cbn [bind].
  set (m := with_width (widthOf l1) (with_lines [l0; l1] emptyMaze)).
  rewrite (readLines_pairs (length tl) tl m 2 [] l1);
    try reflexivity; try lia.
  change (width m) with (widthOf l1). cbn [map last].
  destruct (parseFrom None (widthOf l1) (l1 :: tl)) as [rs| |] eqn:Ep;
    cbn [bind]; try reflexivity.
  apply parseFrom_length in Ep. cbn [length] in Ep.
  unfold m, with_rows, with_lines, with_width, with_height, emptyMaze.
  cbn [lines width height rows destX destY app].
  set (n := length tl) in *.
  assert (Hdiv : (2 + Z.of_nat n) / 2 = 1 + Z.of_nat n / 2).
  { replace (2 + Z.of_nat n) with (Z.of_nat n + 1 * 2) by lia.
    rewrite Z.div_add by lia. lia. }
  assert (Hdn : Z.of_nat (n / 2) = Z.of_nat n / 2).
  { rewrite Nat2Z.inj_div. reflexivity. }
  assert (Hrs : Z.of_nat (length rs) = Z.of_nat (S n) / 2).
  { rewrite Ep, Nat2Z.inj_div. reflexivity. }
  replace (Z.of_nat (S (S n))) with (2 + Z.of_nat n) by lia.
  rewrite Hdiv. f_equal. f_equal.
  unfold resize. rewrite toInt_small by (Z.div_mod_to_equations; lia).
  rewrite length_app, length_map. cbn [length].
  change (Nat.even (S (S n))) with (Nat.even n).
  destruct (Nat.even n) eqn:Ev.
  - (* an even number of lines: one row array is missing *)
    apply Nat.even_spec in Ev. destruct Ev as (q & Hq).
    assert (Hlen : length rs = q).
    { rewrite Ep. replace (S n) with (1 + q * 2)%nat by lia.
      rewrite Nat.div_add by lia. reflexivity. }
    assert (Hq2 : Z.of_nat n / 2 = Z.of_nat q)
      by (Z.div_mod_to_equations; lia).
    replace (Z.to_nat (1 + Z.of_nat n / 2)) with (length (map Some rs) + 1)%nat
      by (rewrite length_map, Hlen, Hq2; lia).
    rewrite firstn_app, firstn_all2 by lia.
    replace (length (map Some rs) + 1 - length (map Some rs))%nat
      with 1%nat by lia.
    rewrite length_map.
    replace (length rs + 1 - (length rs + 2))%nat with 0%nat by lia.
    cbn. now rewrite app_nil_r.
  - assert (Hodd : Nat.odd n = true).
    { unfold Nat.odd. now rewrite Ev. }
    apply Nat.odd_spec in Hodd. destruct Hodd as (q & Hq).
    assert (Hlen : length rs = (q + 1)%nat).
    { rewrite Ep. replace (S n) with ((q + 1) * 2)%nat by lia.
      rewrite Nat.div_mul by lia. reflexivity. }
    assert (Hq2 : Z.of_nat n / 2 = Z.of_nat q)
      by (Z.div_mod_to_equations; lia).
    replace (Z.to_nat (1 + Z.of_nat n / 2)) with (length (map Some rs))
      by (rewrite length_map, Hlen, Hq2; lia).
    rewrite firstn_app, firstn_all, Nat.sub_diag.
    rewrite length_map.
    replace (length rs - (length rs + 2))%nat with 0%nat by lia.
    cbn. now rewrite !app_nil_r.
Qed.

(** X5.  [read], given a text of two lines or more, keeps the text as it
    is, takes the width from the second line, and parses the rows from
    the lines after the first, two at a time, each row with the row
    above it; the height is the number of line pairs less one.  A last
    line without a partner leaves a null row at the end. *)
Theorem read_as_pairs (l0 l1 : text) (tl : list text) :
  Z.of_nat (length (l0 :: l1 :: tl)) < 2 ^ 31 ->
  read (l0 :: l1 :: tl) emptyMaze
  = (rs <- parseFrom None (widthOf l1) (l1 :: tl) ;;
     Ok (Maze (l0 :: l1 :: tl) (widthOf l1)
              (wrap (Z.of_nat (length (l0 :: l1 :: tl)) / 2 - 1))
              (map Some rs ++
               (if Nat.even (length (l0 :: l1 :: tl)) then [None] else []))
              0 0)).
Proof.
  intros Hn. apply read_pairs. exact Hn.
Qed.

End ReadText.

(** * From the generator to the solver: the whole maze read back *)

Section RoundTrip.
Import GenMaze SolMaze.

Lemma makeRow_hsym rand isLast g :
  wf g -> exists g', makeRow rand isLast g = Some g' /\ hsym g'.
Proof.
  intros Hwf.
  destruct (carved_keeps rand isLast g Hwf) as (g2 & E2 & Hwf2 & Hw2 & Hh2).
  pose proof Hwf2 as (Hpos & _).
  unfold makeRow. rewrite E2. destruct isLast; simpl.
  - exists (closeLast g2). split; [reflexivity|].
    unfold closeLast. rewrite closeLast_bound by exact Hwf2.
    destruct (closeUpTo_inv g2 (GenMaze.width g2 - 1) Hwf2 ltac:(lia))
      as (_ & _ & Hh' & _).
    auto.
  - exists (forceDown g2). split; [reflexivity|].
    destruct (forceUpTo_inv g2 (GenMaze.width g2) Hwf2 (Nat.le_refl _))
      as (_ & _ & _ & Hh' & _).
    unfold forceDown. auto.
Qed.

(** A row made by [makeRow] when no set numbers are printed can be
    taken back by the parser, goes UP where the row before it went
    DOWN, and on the last row does not go DOWN. *)
Lemma makeRow_plain rand isLast g g' :
  wf g -> debugsets g = false ->
  makeRow rand isLast g = Some g' ->
  plain (GenMaze.width g) g' /\
  (forall i, (i < GenMaze.width g)%nat ->
             has (rowAt g' i) UP = has (rowAt g i) DOWN) /\
  (isLast = true ->
   forall i, (i < GenMaze.width g)%nat -> has (rowAt g' i) DOWN = false).
Proof.
  intros Hwf Hs E.
  destruct (makeRow_cells rand isLast g Hwf)
    as (g1 & E1 & Hwf1 & Hw1 & Hds1 & Hdr1 & Hc).
  destruct (makeRow_hsym rand isLast g Hwf) as (g2 & E2 & Hh).
  assert (g1 = g') by congruence. assert (g2 = g') by congruence.
  subst g1 g2.
  assert (Hm15 : Z.land (carveMask isLast) 15 = carveMask isLast)
    by (destruct isLast; reflexivity).
  assert (Hcell : forall i, (i < GenMaze.width g)%nat ->
            0 <= rowAt g' i < 16 /\
            has (rowAt g' i) UP = has (rowAt g i) DOWN /\
            (isLast = true -> has (rowAt g' i) DOWN = false)).
  { intros i Hi. destruct (Hc i Hi) as (_ & e & He & ->).
    pose proof (submask_range e _ He Hm15) as Hrange.
    split; [|split].
    - apply lor_below_16; [|exact Hrange].
      destruct (has (rowAt g i) DOWN); cbv; split; congruence.
    - rewrite has_lor.
      rewrite (submask_lacks e _ UP He) by (destruct isLast; reflexivity).
      destruct (has (rowAt g i) DOWN); reflexivity.
    - intros ->. rewrite has_lor.
      rewrite (submask_lacks e _ DOWN He) by reflexivity.
      destruct (has (rowAt g i) DOWN); reflexivity. }
  split; [|split].
  - unfold plain. split; [exact Hwf1|]. split; [exact Hw1|].
    split; [congruence|]. split; [exact Hh|].
    intros i Hi. apply Hcell, Hi.
  - intros i Hi. apply Hcell, Hi.
  - intros Hl i Hi. apply Hcell; assumption.
Qed.









End RoundTrip.

(** * The solver: what the search finds *)

Section Paths.
Import SolMaze.

Lemma direction_cases d :
  In d searchOrder -> d = LEFT \/ d = UP \/ d = DOWN \/ d = RIGHT.
Proof.
  unfold searchOrder. cbn [In]. intuition.
Qed.

Lemma direction_not_CHECKED d : In d searchOrder -> has CHECKED d = false.
Proof.
  intros H. destruct (direction_cases d H) as [->|[->|[->| ->]]]; reflexivity.
Qed.

Lemma neighbour_uint x y d :
  uint x -> uint y ->
  uint (fst (neighbour x y d)) /\ uint (snd (neighbour x y d)).
Proof.
  intros Hx Hy. unfold neighbour.
  destruct (d =? LEFT); [|destruct (d =? UP); [|destruct (d =? DOWN)]];
    cbn [fst snd]; split; try assumption; apply wrap_range.
Qed.

Lemma wrap_back_forth z : uint z -> wrap (wrap (z - 1) + 1) = z.
Proof.
  intros Hz. unfold wrap, uint in *.
  rewrite Zplus_mod_idemp_l. replace (z - 1 + 1) with z by lia.
  apply Z.mod_small. exact Hz.
Qed.

Lemma wrap_forth_back z : uint z -> wrap (wrap (z + 1) - 1) = z.
Proof.
  intros Hz. unfold wrap, uint in *.
  rewrite Zminus_mod_idemp_l. replace (z + 1 - 1) with z by lia.
  apply Z.mod_small. exact Hz.
Qed.

(** Going through a passage and then the reverse way leads back. *)
Lemma neighbour_back x y d :
  uint x -> uint y -> In d searchOrder ->
  neighbour (fst (neighbour x y d)) (snd (neighbour x y d)) (reverse d)
  = (x, y).
Proof.
  intros Hx Hy Hd.
  destruct (direction_cases d Hd) as [->|[->|[->| ->]]];
    cbn [neighbour reverse fst snd Z.eqb LEFT RIGHT UP DOWN Pos.eqb];
    unfold neighbour, reverse; cbn [Z.eqb LEFT RIGHT UP DOWN Pos.eqb fst snd];
    rewrite ?wrap_back_forth, ?wrap_forth_back by assumption; reflexivity.
Qed.

Lemma reverse_direction from d :
  In d searchOrder -> (d =? reverse from) = true -> In from searchOrder.
Proof.
  intros Hd E. apply Z.eqb_eq in E. subst d. unfold reverse in Hd.
  destruct (from =? LEFT) eqn:E1; [apply Z.eqb_eq in E1; subst; cbv; auto|].
  destruct (from =? RIGHT) eqn:E2; [apply Z.eqb_eq in E2; subst; cbv; auto|].
  destruct (from =? UP) eqn:E3; [apply Z.eqb_eq in E3; subst; cbv; auto|].
  destruct (from =? DOWN) eqn:E4; [apply Z.eqb_eq in E4; subst; cbv; auto|].
  apply direction_cases in Hd. cbv in Hd. intuition discriminate.
Qed.

(** Passages are the same before and after a piece of the search. *)
Lemma passage_back m m' ps c c1 :
  progress m m' ps -> passage m' c c1 -> passage m c c1.
Proof.
  intros Hp (v' & d & Hc & Hd & Hv & ->).
  apply cellAt_cellN in Hc. destruct Hc as (Hx & Hy & Hc).
  destruct (progress_back _ _ _ _ _ Hp Hc) as (v & Hcv & Hf).
  exists v, d. split; [apply cellAt_cellN; auto|].
  split; [exact Hd|]. split; [|reflexivity].
  rewrite <- (Hf d (direction_not_CHECKED d Hd)). exact Hv.
Qed.

Lemma passage_forth m m' ps c c1 :
  progress m m' ps -> passage m c c1 -> passage m' c c1.
Proof.
  intros Hp (v & d & Hc & Hd & Hv & ->).
  apply cellAt_cellN in Hc. destruct Hc as (Hx & Hy & Hc).
  destruct (progress_forth _ _ _ _ _ Hp Hc) as (v' & Hc').
  destruct (progress_back _ _ _ _ _ Hp Hc') as (v0 & Hcv & Hf).
  assert (v0 = v) by congruence. subst v0.
  exists v', d. split; [apply cellAt_cellN; auto|].
  split; [exact Hd|]. split; [|reflexivity].
  rewrite (Hf d (direction_not_CHECKED d Hd)). exact Hv.
Qed.

Lemma linked_back m m' ps rest :
  progress m m' ps ->
  forall c goal, linked m' c rest goal -> linked m c rest goal.
Proof.
  intros Hp. induction rest as [|c1 rest IH]; intros c goal; cbn [linked].
  - auto.
  - intros (H1 & H2). split; [eapply passage_back; eassumption|auto].
Qed.

Lemma setCell_lines m x y v m1 : setCell m x y v = Ok m1 -> lines m1 = lines m.
Proof.
  unfold setCell. destruct (at_ (rows m) (toInt y)) as [[cells|]| |];
    cbn [bind]; try discriminate.
  destruct (store cells x v); cbn [bind]; try discriminate.
  destruct (store (rows m) (toInt y) _); cbn [bind]; try discriminate.
  intros [= <-]. reflexivity.
Qed.

(** [solutionCell] and [stamp] look at the lines only. *)
Lemma solutionCell_by_lines m n x y m' :
  lines m = lines n -> solutionCell m x y = Ok m' ->
  exists n', solutionCell n x y = Ok n' /\ lines n' = lines m'.
Proof.
  intros E. unfold solutionCell. rewrite <- E.
  destruct (at_ (lines m) _) as [l| |]; cbn [bind]; try discriminate.
  destruct (putChar l _ _) as [l1| |]; cbn [bind]; try discriminate.
  destruct (putChar l1 _ _) as [l2| |]; cbn [bind]; try discriminate.
  destruct (store (lines m) _ l2) as [ls| |]; cbn [bind]; try discriminate.
  intros [= <-]. eexists. split; reflexivity.
Qed.

Lemma stamp_by_lines p :
  forall m n ms, lines m = lines n -> stamp p m = Ok ms ->
                 exists ns, stamp p n = Ok ns /\ lines ns = lines ms.
Proof.
  induction p as [|[x y] p IH]; intros m n ms E; cbn [stamp].
  - intros [= <-]. eauto.
  - destruct (stamp p m) as [m1| |] eqn:E1; cbn [bind]; try discriminate.
    intros Hs. destruct (IH m n m1 E E1) as (n1 & -> & E2). cbn [bind].
    apply (solutionCell_by_lines m1 n1); auto.
Qed.

Lemma outcome_progress fuel m x y from b m' e :
  searchAsWorded fuel m x y from = Ok (b, m', e) ->
  progress m m' (map pos e).
Proof.
  intros E. pose proof (solveMaze_outcome fuel m x y from) as H.
  rewrite solveMaze_as_worded, E in H. exact H.
Qed.

Lemma firstSuccess_result fuel x y :
  (forall m x' y' from r,
     searchAsWorded fuel m x' y' from = Ok r -> resultOk m (x', y') r) ->
  forall dirs m1 ok m2 e2,
    firstSuccess
      (fun d m => searchAsWorded fuel m (fst (neighbour x y d))
                                 (snd (neighbour x y d)) d) dirs m1
    = Ok (ok, m2, e2) ->
    if ok then
      exists d rest ms,
        In d dirs /\
        linked m1 (neighbour x y d) rest (destX m1, destY m1) /\
        stamp (neighbour x y d :: rest) m1 = Ok ms /\ lines m2 = lines ms /\
        incl (neighbour x y d :: rest) e2 /\ NoDup (neighbour x y d :: rest)
    else lines m2 = lines m1.
Proof.
  intros IH. induction dirs as [|d ds IHd]; intros m1 ok m2 e2;
    cbn [firstSuccess].
  - intros [= <- <- <-]. reflexivity.
  - destruct (searchAsWorded fuel m1 _ _ d) as [[[ok1 ma] ea]| |] eqn:E1;
      cbn [bind]; try discriminate.
    pose proof (IH _ _ _ _ _ E1) as H1.
    pose proof (outcome_progress _ _ _ _ _ _ _ _ E1) as Hp1.
    rewrite <- surjective_pairing in H1. cbn [resultOk] in H1.
    destruct ok1.
    + intros [= <- <- <-].
      destruct H1 as (rest & ms & Hl & Hs & Hlines & Hincl & Hnd).
      exists d, rest, ms. cbn [In]. auto 10.
    + destruct (firstSuccess _ ds ma) as [[[ok' mb] eb]| |] eqn:E2;
        cbn [bind]; try discriminate.
      intros [= <- <- <-]. specialize (IHd _ _ _ _ E2).
      destruct ok'.
      * destruct IHd as (d' & rest & ms & Hin & Hl & Hs & Hlines & Hincl & Hnd).
        destruct (stamp_by_lines _ ma m1 ms H1 Hs) as (ns & Hs' & El).
        exists d', rest, ns. split; [right; exact Hin|].
        split.
        { destruct Hp1 as (Hdx & Hdy & _). rewrite <- Hdx, <- Hdy.
          eapply linked_back; [|exact Hl].
          exact (outcome_progress _ _ _ _ _ _ _ _ E1). }
        split; [exact Hs'|]. split; [congruence|].
        split; [|exact Hnd].
        intros c Hc. apply in_or_app. right. apply Hincl, Hc.
      * congruence.
Qed.

Lemma searchAsWorded_result fuel :
  forall m x y from r,
    searchAsWorded fuel m x y from = Ok r -> resultOk m (x, y) r.
Proof.
  induction fuel as [|fuel IH]; intros m x y from r; [discriminate|].
  intros E. pose proof E as E0. revert E. cbn [searchAsWorded].
  destruct (cellAt m x y) as [cell| |] eqn:Hc; cbn [bind]; try discriminate.
  destruct (has cell CHECKED) eqn:Hch.
  { intros [= <-]. reflexivity. }
  destruct (setCell_checked m x y cell Hc Hch) as (m1 & Hs & Hp1).
  rewrite Hs. cbn [bind]. pose proof (setCell_lines _ _ _ _ _ Hs) as Hl1.
  pose proof Hp1 as (Hdx & Hdy & _).
  destruct ((x =? destX m1) && (y =? destY m1)) eqn:Hdest.
  - destruct (solutionCell m1 x y) as [m2| |] eqn:Es; cbn [bind];
      try discriminate.
    intros [= <-]. cbn [resultOk].
    destruct (solutionCell_by_lines m1 m x y m2 Hl1 Es) as (n2 & Es' & El).
    exists [], n2. cbn [linked stamp bind].
    apply andb_prop in Hdest. destruct Hdest as (Ex & Ey).
    apply Z.eqb_eq in Ex, Ey.
    split; [congruence|]. split; [exact Es'|]. split; [congruence|].
    split; [apply incl_refl|]. constructor; [intros []|constructor].
  - destruct (firstSuccess _ (permitted from cell) m1)
      as [[[ok m2] e2]| |] eqn:Ef; cbn [bind]; try discriminate.
    pose proof (firstSuccess_result fuel x y IH _ _ _ _ _ Ef) as Hf.
    destruct ok.
    + destruct (solutionCell m2 x y) as [m3| |] eqn:Es; cbn [bind];
        try discriminate.
      intros [= <-]. cbn [resultOk].
      destruct Hf as (d & rest & ms & Hin & Hl & Hst & Hlines & Hincl & Hnd).
      destruct (stamp_by_lines _ m1 m ms Hl1 Hst) as (ns & Hst' & El).
      assert (El2 : lines m2 = lines ns) by congruence.
      destruct (solutionCell_by_lines m2 ns x y m3 El2 Es) as (n3 & Es' & El3).
      exists (neighbour x y d :: rest), n3.
      split.
      { cbn [linked]. split.
        - exists cell, d. cbn [fst snd]. split; [exact Hc|].
          unfold permitted in Hin. apply filter_In in Hin.
          destruct Hin as (Hin & Hg). apply andb_prop in Hg.
          split; [exact Hin|]. split; [apply Hg | reflexivity].
        - rewrite <- Hdx, <- Hdy. eapply linked_back; [exact Hp1 | exact Hl]. }
      split.
      { change (stamp ((x, y) :: neighbour x y d :: rest) m)
          with (m' <- stamp (neighbour x y d :: rest) m ;; solutionCell m' x y).
        rewrite Hst'. cbn [bind]. exact Es'. }
      split; [congruence|].
      split.
      { intros c [<-|Hcin]; [left; reflexivity|]. right. apply Hincl, Hcin. }
      constructor; [|exact Hnd].
      intros Hbad. apply Hincl in Hbad.
      pose proof (outcome_progress _ _ _ _ _ _ _ _ E0) as Hp.
      destruct Hp as (_ & _ & _ & _ & _ & _ & Hnodup & _).
      cbn [map] in Hnodup. inversion Hnodup as [|? ? Hnot _]; subst.
      apply Hnot. apply in_map. exact Hbad.
    + intros [= <-]. cbn [resultOk]. congruence.
Qed.

Lemma inGrid_back m m' ps x y :
  progress m m' ps -> inGrid m' x y -> inGrid m x y.
Proof.
  intros Hp (v' & Hc). apply cellAt_cellN in Hc.
  destruct Hc as (Hx & Hy & Hc).
  destruct (progress_back _ _ _ _ _ Hp Hc) as (v & Hv & _).
  exists v. apply cellAt_cellN. auto.
Qed.

Lemma pos_injective c c' :
  uint (fst c) -> uint (snd c) -> uint (fst c') -> uint (snd c') ->
  0 <= toInt (snd c) -> 0 <= toInt (snd c') ->
  pos c = pos c' -> c = c'.
Proof.
  destruct c as [x y], c' as [x' y']. unfold pos, uint. cbn [fst snd].
  intros Hx Hy Hx' Hy' H0 H0' [= E1 E2].
  assert (Ht : forall z, 0 <= z < 2 ^ 32 -> 0 <= toInt z -> toInt z = z).
  { intros z Hz. unfold toInt. rewrite (wrap_small z Hz).
    destruct (z <? 2 ^ 31); lia. }
  rewrite (Ht y Hy H0), (Ht y' Hy' H0') in *.
  f_equal; lia.
Qed.

Lemma position_dec (p q : nat * nat) : {p = q} + {p <> q}.
Proof.
  decide equality; apply Nat.eq_dec.
Qed.

Lemma progress_checkedAt m m' ps c :
  progress m m' ps -> checkedAt m c -> checkedAt m' c.
Proof.
  intros Hp (v & Hc & Hv). apply cellAt_cellN in Hc.
  destruct Hc as (Hx & Hy & Hc).
  destruct Hp as (_ & _ & _ & _ & Hk & He & _).
  exists v. split; [|exact Hv]. apply cellAt_cellN.
  split; [exact Hx|]. split; [exact Hy|].
  apply Hk; [exact Hc|]. intros Hin.
  destruct (He _ Hin) as (v0 & Hv0 & Hch & _). congruence.
Qed.

(** A call that returns leaves its cell CHECKED. *)
Lemma checked_after fuel m x y from b m' e :
  searchAsWorded fuel m x y from = Ok (b, m', e) -> checkedAt m' (x, y).
Proof.
  intros E. pose proof (outcome_progress _ _ _ _ _ _ _ _ E) as Hp.
  destruct fuel as [|fuel]; [discriminate|].
  destruct (cellAt m x y) as [cell| |] eqn:Hc.
  - destruct (has cell CHECKED) eqn:Hch.
    + apply (progress_checkedAt m m' _ (x, y) Hp). exists cell. auto.
    + rewrite <- solveMaze_as_worded in E.
      destruct (solveMaze_enters _ _ _ _ _ _ _ _ _ Hc Hch E) as (rest & ->).
      apply cellAt_cellN in Hc. destruct Hc as (Hx & Hy & Hc).
      destruct Hp as (_ & _ & _ & _ & _ & He & _).
      destruct (He (pos (x, y)) (or_introl eq_refl)) as (v & Hv & _ & Hv').
      exists (Z.lor v CHECKED). split; [|apply has_CHECKED_set].
      apply cellAt_cellN. auto.
  - cbn [searchAsWorded] in E. rewrite Hc in E. discriminate.
  - destruct (cellAt_no_timeout _ _ _ Hc).
Qed.

Lemma firstSuccess_progress fuel x y :
  forall dirs m1 ok m2 e2,
    firstSuccess
      (fun d m => searchAsWorded fuel m (fst (neighbour x y d))
                                 (snd (neighbour x y d)) d) dirs m1
    = Ok (ok, m2, e2) ->
    progress m1 m2 (map pos e2).
Proof.
  induction dirs as [|d ds IHd]; intros m1 ok m2 e2; cbn [firstSuccess].
  - intros [= <- <- <-]. apply progress_refl.
  - destruct (searchAsWorded fuel m1 _ _ d) as [[[ok1 ma] ea]| |] eqn:E1;
      cbn [bind]; try discriminate.
    pose proof (outcome_progress _ _ _ _ _ _ _ _ E1) as Hp1.
    destruct ok1.
    + intros [= <- <- <-]. exact Hp1.
    + destruct (firstSuccess _ ds ma) as [[[ok' mb] eb]| |] eqn:E2;
        cbn [bind]; try discriminate.
      intros [= <- <- <-]. rewrite map_app.
      eapply progress_trans; [exact Hp1|]. eapply IHd, E2.
Qed.

Lemma firstSuccess_fails fuel x y :
  uint x -> uint y ->
  (forall m x' y' from m' e,
     uint x' -> uint y' ->
     searchAsWorded fuel m x' y' from = Ok (false, m', e) ->
     failureOk m (x', y') from m' e) ->
  forall dirs m1 m2 e2,
    (forall d, In d dirs -> In d searchOrder) ->
    firstSuccess
      (fun d m => searchAsWorded fuel m (fst (neighbour x y d))
                                 (snd (neighbour x y d)) d) dirs m1
    = Ok (false, m2, e2) ->
    (forall c, In c e2 ->
       uint (fst c) /\ uint (snd c) /\ inGrid m1 (fst c) (snd c) /\
       c <> (destX m1, destY m1)) /\
    (forall d, In d dirs -> checkedAt m2 (neighbour x y d)) /\
    (forall c c1, In c e2 -> passage m1 c c1 ->
                  c1 = (x, y) \/ checkedAt m2 c1).
Proof.
  intros Hx Hy IH.
  induction dirs as [|d ds IHd]; intros m1 m2 e2 Hdirs; cbn [firstSuccess].
  - intros [= <- <-]. split; [intros c []|]. split; [intros d []|].
    intros c c1 [].
  - destruct (searchAsWorded fuel m1 _ _ d) as [[[ok1 ma] ea]| |] eqn:E1;
      cbn [bind]; try discriminate.
    destruct ok1; [discriminate|].
    destruct (firstSuccess _ ds ma) as [[[ok' mb] eb]| |] eqn:E2;
      cbn [bind]; try discriminate.
    intros [= -> <- <-].
    assert (Hd : In d searchOrder) by (apply Hdirs; left; reflexivity).
    destruct (neighbour_uint x y d Hx Hy) as (Hnx & Hny).
    destruct (IH _ _ _ _ _ _ Hnx Hny E1) as (Ha1 & Ha2).
    pose proof (outcome_progress _ _ _ _ _ _ _ _ E1) as Hp1.
    pose proof (firstSuccess_progress _ _ _ _ _ _ _ _ E2) as Hp2.
    destruct (IHd ma mb eb (fun d' H => Hdirs d' (or_intror H)) E2)
      as (Hb1 & Hb2 & Hb3).
    pose proof Hp1 as (Hdx & Hdy & _).
    split; [|split].
    + intros c Hc. apply in_app_or in Hc. destruct Hc as [Hc|Hc].
      * apply Ha1, Hc.
      * rewrite <- Hdx, <- Hdy.
        destruct (Hb1 c Hc) as (H1 & H2 & H3 & H4).
        split; [exact H1|]. split; [exact H2|]. split; [|exact H4].
        eapply inGrid_back; eassumption.
    + intros d' [<-|Hd'].
      * apply (progress_checkedAt ma mb _ (neighbour x y d) Hp2).
        pose proof (checked_after _ _ _ _ _ _ _ _ E1) as Hch.
        rewrite <- surjective_pairing in Hch. exact Hch.
      * apply Hb2, Hd'.
    + intros c c1 Hc Hpass. apply in_app_or in Hc. destruct Hc as [Hc|Hc].
      * destruct (Ha2 c c1 Hc Hpass) as [(_ & _ & ->)|Hch].
        -- left. cbn [fst snd]. apply neighbour_back; assumption.
        -- right. apply (progress_checkedAt ma mb _ c1 Hp2 Hch).
      * apply (Hb3 c c1 Hc). eapply passage_forth; eassumption.
Qed.

Lemma searchAsWorded_fails fuel :
  forall m x y from m' e,
    uint x -> uint y ->
    searchAsWorded fuel m x y from = Ok (false, m', e) ->
    failureOk m (x, y) from m' e.
Proof.
  induction fuel as [|fuel IH]; intros m x y from m' e Hx Hy;
    [discriminate|].
  cbn [searchAsWorded].
  destruct (cellAt m x y) as [cell| |] eqn:Hc; cbn [bind]; try discriminate.
  destruct (has cell CHECKED) eqn:Hch.
  { intros [= <- <-]. split; [intros c []|intros c c1 []]. }
  destruct (setCell_checked m x y cell Hc Hch) as (m1 & Hs & Hp1).
  rewrite Hs. cbn [bind]. pose proof Hp1 as (Hdx & Hdy & _).
  destruct ((x =? destX m1) && (y =? destY m1)) eqn:Hdest.
  { destruct (solutionCell m1 x y); cbn [bind]; discriminate. }
  destruct (firstSuccess _ (permitted from cell) m1)
    as [[[ok m2] e2]| |] eqn:Ef; cbn [bind]; try discriminate.
  destruct ok.
  { destruct (solutionCell m2 x y); cbn [bind]; discriminate. }
  intros [= <- <-].
  assert (Hperm : forall d, In d (permitted from cell) -> In d searchOrder).
  { intros d Hd. unfold permitted in Hd. apply filter_In in Hd. tauto. }
  destruct (firstSuccess_fails fuel x y Hx Hy IH _ _ _ _ Hperm Ef)
    as (Hf1 & Hf2 & Hf3).
  pose proof (firstSuccess_progress _ _ _ _ _ _ _ _ Ef) as Hp2.
  assert (Hown : checkedAt m2 (x, y)).
  { apply (progress_checkedAt m1 m2 _ (x, y) Hp2).
    apply cellAt_cellN in Hc. destruct Hc as (H0x & H0y & Hc).
    destruct Hp1 as (_ & _ & _ & _ & _ & He & _).
    destruct (He (pos (x, y)) (or_introl eq_refl)) as (v & Hv & _ & Hv').
    exists (Z.lor v CHECKED). split; [|apply has_CHECKED_set].
    apply cellAt_cellN. auto. }
  split.
  - intros c [<-|Hcin].
    + cbn [fst snd]. split; [exact Hx|]. split; [exact Hy|].
      split; [exists cell; exact Hc|].
      intros [= Ex Ey]. rewrite Hdx, Hdy, <- Ex, <- Ey, !Z.eqb_refl in Hdest.
      discriminate.
    + rewrite <- Hdx, <- Hdy.
      destruct (Hf1 c Hcin) as (H1 & H2 & H3 & H4).
      split; [exact H1|]. split; [exact H2|]. split; [|exact H4].
      eapply inGrid_back; eassumption.
  - intros c c1 [<-|Hcin] Hpass.
    + destruct Hpass as (v & d & Hcv & Hd & Hv & ->). cbn [fst snd] in *.
      assert (v = cell) by congruence. subst v.
      destruct (d =? reverse from) eqn:Er.
      * left. split; [reflexivity|].
        split; [eapply reverse_direction; eassumption|].
        apply Z.eqb_eq in Er. subst d. reflexivity.
      * right. apply Hf2. unfold permitted. apply filter_In.
        split; [exact Hd|]. rewrite Er, Hv. reflexivity.
    + destruct (Hf3 c c1 Hcin (passage_forth _ _ _ _ _ Hp1 Hpass)) as [->|H].
      * right. exact Hown.
      * right. exact H.
Qed.

(** X7.  What the search finds is a way.  When [solveMaze] returns
    true, there are cells that go from the cell of the call to the
    destination, each step through a passage of the cell it leaves, no
    cell twice, all of them among the cells the call entered; and the
    lines of the maze returned are the lines it was given with exactly
    these cells stamped, the destination first.  When it returns false
    the lines are as they were. *)
Theorem solveMaze_marks_a_way (fuel : nat) (m : maze) (x y from : Z)
        (b : bool) (m' : maze) (e : list (Z * Z)) :
  solveMaze fuel m x y from = Ok (b, m', e) ->
  if b then
    exists rest ms,
      linked m (x, y) rest (destX m, destY m) /\
      stamp ((x, y) :: rest) m = Ok ms /\ lines m' = lines ms /\
      incl ((x, y) :: rest) e /\ NoDup ((x, y) :: rest)
  else lines m' = lines m.
Proof.
  rewrite solveMaze_as_worded. intros E.
  apply (searchAsWorded_result fuel m x y from (b, m', e) E).
Qed.

Lemma unsearched_cells_entered m m' e c :
  unsearched m -> progress m m' (map pos e) ->
  (forall c', In c' e ->
     uint (fst c') /\ uint (snd c') /\ inGrid m (fst c') (snd c')) ->
  uint (fst c) -> uint (snd c) ->
  checkedAt m' c -> In c e.
Proof.
  intros Hun Hp Hu Hcx Hcy (v & Hc & Hv).
  apply cellAt_cellN in Hc. destruct Hc as (H0x & H0y & Hc).
  destruct (in_dec position_dec (pos (fst c, snd c)) (map pos e))
    as [Hin|Hout].
  - apply in_map_iff in Hin. destruct Hin as (c' & Epos & Hin).
    replace c with c'; [exact Hin|].
    destruct (Hu c' Hin) as (Hx' & Hy' & (v' & Hg)).
    apply cellAt_cellN in Hg. destruct Hg as (_ & H0y' & _).
    rewrite <- surjective_pairing in Epos.
    apply pos_injective; assumption.
  - destruct (progress_back _ _ _ _ _ Hp Hc) as (v0 & Hv0 & _).
    destruct Hp as (_ & _ & _ & _ & Hk & _).
    rewrite (Hk _ _ Hv0 Hout) in Hc. injection Hc as ->.
    rewrite (Hun _ _ Hv0) in Hv. discriminate.
Qed.

(** On a grid with no cell CHECKED, a call from no direction that
    fails has entered every cell that passages lead to. *)
Lemma search_fails_no_way (fuel : nat) (m : maze) (x y : Z)
        (m' : maze) (e : list (Z * Z)) :
  unsearched m -> uint x -> uint y ->
  searchAsWorded fuel m x y EMPTY = Ok (false, m', e) ->
  ~ reach m (x, y) (destX m, destY m).
Proof.
  intros Hun Hx Hy E.
  destruct (searchAsWorded_fails fuel m x y EMPTY m' e Hx Hy E) as (H1 & H2).
  pose proof (outcome_progress _ _ _ _ _ _ _ _ E) as Hp.
  assert (Hstep : forall c c1, In c e -> passage m c c1 -> In c1 e).
  { intros c c1 Hc Hpass.
    destruct (H1 c Hc) as (Hcx & Hcy & _).
    assert (Hu1 : uint (fst c1) /\ uint (snd c1)).
    { destruct Hpass as (v & d & _ & _ & _ & ->).
      apply neighbour_uint; assumption. }
    destruct (H2 c c1 Hc Hpass) as [(_ & Hbad & _)|Hch].
    - apply direction_cases in Hbad. cbv in Hbad. intuition discriminate.
    - apply (unsearched_cells_entered m m' e c1 Hun Hp); try tauto.
      intros c' Hc'. destruct (H1 c' Hc'). tauto. }
  assert (Hstart : In (x, y) e).
  { pose proof (checked_after _ _ _ _ _ _ _ _ E) as Hch.
    apply (unsearched_cells_entered m m' e (x, y) Hun Hp); auto.
    intros c' Hc'. destruct (H1 c' Hc'). tauto. }
  intros (rest & Hl).
  assert (Hgoal : forall rest c, In c e ->
                    linked m c rest (destX m, destY m) ->
                    In (destX m, destY m) e).
  { clear Hl rest. induction rest as [|c1 rest IH]; intros c Hc; cbn [linked].
    - intros <-. exact Hc.
    - intros (Hpass & Hl). apply (IH c1); [|exact Hl].
      eapply Hstep; eassumption. }
  destruct (H1 _ (Hgoal rest (x, y) Hstart Hl)) as (_ & _ & _ & Hne).
  apply Hne. reflexivity.
Qed.

(** X8.  What the search misses is not there.  On a grid with no cell
    CHECKED, as [read] leaves it, when the call that [main] makes (with
    no direction to come from) returns false, no sequence of passages
    goes from the cell of the call to the destination. *)
Theorem solveMaze_misses_no_way (fuel : nat) (m : maze) (x y : Z)
        (m' : maze) (e : list (Z * Z)) :
  unsearched m -> uint x -> uint y ->
  solveMaze fuel m x y EMPTY = Ok (false, m', e) ->
  ~ reach m (x, y) (destX m, destY m).
Proof.
  intros Hun Hx Hy E. rewrite solveMaze_as_worded in E.
  exact (search_fails_no_way fuel m x y m' e Hun Hx Hy E).
Qed.

Lemma firstSuccess_ext (f g : Z -> maze -> outcome found) :
  (forall d m, f d m = g d m) ->
  forall dirs m, firstSuccess f dirs m = firstSuccess g dirs m.
Proof.
  intros H. induction dirs as [|d ds IH]; intros m; cbn [firstSuccess];
    [reflexivity|].
  rewrite H. destruct (g d m) as [[[ok m1] e]| |]; cbn [bind];
    try reflexivity.
  destruct ok; [reflexivity|]. rewrite IH. reflexivity.
Qed.

(** C8.  [solveMaze] is the search that takes the passages of the cell
    in the order LEFT, UP, DOWN, RIGHT, leaves out the reverse of
    [from], and stops at the first call that succeeds.  Whenever it
    returns true the cell of the call carries the path marker.  On a
    cell of the grid that is not CHECKED and has its line of text, the
    cell becomes CHECKED, and then: at the destination the cell is
    marked and true is returned, and no other cell is entered;
    elsewhere, when the calls for the permitted directions, taken in
    that order up to the first success, come back with a success, the
    cell is marked in the maze as those calls leave it and true is
    returned, and when they come back without one, false is returned
    and nothing is marked. *)
Theorem solveMaze_order (fuel : nat) (m : maze) (x y from : Z) :
  solveMaze fuel m x y from = searchAsWorded fuel m x y from /\
  (forall m' entered,
     solveMaze fuel m x y from = Ok (true, m', entered) -> marked m' x y) /\
  (forall cell,
     cellAt m x y = Ok cell -> has cell CHECKED = false ->
     0 <= toInt x -> 0 <= toInt y * 2 + 1 < Z.of_nat (length (lines m)) ->
     exists m1,
       setCell m x y (Z.lor cell CHECKED) = Ok m1 /\
       (x = destX m -> y = destY m ->
        exists m2,
          solutionCell m1 x y = Ok m2 /\ marked m2 x y /\
          solveMaze (S fuel) m x y from = Ok (true, m2, [(x, y)])) /\
       ((x =? destX m) && (y =? destY m) = false ->
        forall (ok : bool) m2 e,
          firstSuccess
            (fun d m => solveMaze fuel m (fst (neighbour x y d))
                                  (snd (neighbour x y d)) d)
            (permitted from cell) m1
          = Ok (ok, m2, e) ->
          if ok
          then exists m3,
                 solutionCell m2 x y = Ok m3 /\ marked m3 x y /\
                 solveMaze (S fuel) m x y from = Ok (true, m3, (x, y) :: e)
          else solveMaze (S fuel) m x y from = Ok (false, m2, (x, y) :: e))).
Proof.
  split; [apply solveMaze_as_worded|]. split.
  - intros m' entered. rewrite solveMaze_as_worded.
    destruct fuel as [|fuel]; [discriminate|].
    cbn [searchAsWorded].
    destruct (cellAt m x y) as [cell| |]; cbn [bind]; try discriminate.
    destruct (has cell CHECKED); [discriminate|].
    destruct (setCell m x y (Z.lor cell CHECKED)) as [m1| |]; cbn [bind];
      try discriminate.
    destruct ((x =? destX m1) && (y =? destY m1)).
    + destruct (solutionCell m1 x y) as [m2| |] eqn:Es; cbn [bind];
        try discriminate.
      intros [= <- _]. apply (solutionCell_Ok _ _ _ _ Es).
    + destruct (firstSuccess _ _ m1) as [[[[] m2] e]| |]; cbn [bind];
        try discriminate.
      destruct (solutionCell m2 x y) as [m3| |] eqn:Es; cbn [bind];
        try discriminate.
      intros [= <- _]. apply (solutionCell_Ok _ _ _ _ Es).
  - intros cell Hc Hch Hx Hy.
    destruct (setCell_checked m x y cell Hc Hch) as (m1 & Hs & Hp1).
    exists m1. split; [exact Hs|].
    pose proof Hp1 as (Hdx & Hdy & Hl1 & _).
    split.
    + intros Ex Ey.
      destruct (solutionCell_total m1 x y Hx) as (m2 & E2);
        [rewrite Hl1; exact Hy|].
      exists m2. split; [exact E2|].
      split; [apply (solutionCell_Ok _ _ _ _ E2)|].
      cbn [solveMaze]. rewrite Hc. cbn [bind]. rewrite Hch, Hs. cbn [bind].
      rewrite Hdx, Hdy, <- Ex, <- Ey, !Z.eqb_refl. cbn [andb].
      rewrite E2. reflexivity.
    + intros Hnd ok m2 e Ef.
      rewrite (firstSuccess_ext _
                 (fun d m => searchAsWorded fuel m (fst (neighbour x y d))
                                            (snd (neighbour x y d)) d)) in Ef
        by (intros; apply solveMaze_as_worded).
      pose proof (firstSuccess_progress fuel x y _ _ _ _ _ Ef)
        as (_ & _ & Hl2 & _).
      rewrite solveMaze_as_worded. cbn [searchAsWorded].
      rewrite Hc. cbn [bind]. rewrite Hch, Hs. cbn [bind].
      rewrite Hdx, Hdy, Hnd, Ef. cbn [bind].
      destruct ok; [|reflexivity].
      destruct (solutionCell_total m2 x y Hx) as (m3 & E3);
        [rewrite Hl2, Hl1; exact Hy|].
      exists m3. split; [exact E3|].
      split; [apply (solutionCell_Ok _ _ _ _ E3)|].
      rewrite E3. reflexivity.
Qed.

End Paths.

(** * The solver: the verdict of main *)

Section Verdict.
Import SolMaze.







Lemma readLine_lines line m n m' n' :
  readLine line (m, n) = Ok (m', n') -> lines m' = lines m ++ [line].
Proof.
  unfold readLine.
  set (m0 := with_lines (lines m ++ [line]) m).
  assert (Hm0 : lines m0 = lines m ++ [line]) by reflexivity.
  clearbody m0.
  destruct (if n =? 1 then _ else Ok m0) as [m1| |] eqn:E1; cbn [bind];
    try discriminate.
  assert (Hm1 : lines m1 = lines m ++ [line]).
  { destruct (n =? 1).
    - destruct (at_ (lines m0) 1); cbn [bind] in E1; try discriminate.
      injection E1 as <-. exact Hm0.
    - injection E1 as <-. exact Hm0. }
  destruct (negb (Z.rem n 2 =? 0) || (wrap (n + 1) <=? 2)).
  { intros [= <- _]. exact Hm1. }
  destruct (if 3 <? wrap (n + 1) then _ else Ok None) as [lastRow| |];
    cbn [bind]; try discriminate.
  destruct (at_ (lines m1) _) as [b| |]; cbn [bind]; try discriminate.
  destruct (at_ (lines m1) _) as [c| |]; cbn [bind]; try discriminate.
  destruct (convertRow lastRow b c (width m1)) as [col| |];
    cbn [bind]; try discriminate.
  destruct (insertAt _ (Some col) _) as [r| |]; cbn [bind];
    try discriminate.
  intros [= <- _]. cbn [lines with_rows].
  destruct (Z.of_nat (length (rows m1)) <=? toInt (wrap (n + 1) / 2));
    exact Hm1.
Qed.

Lemma readLines_lines input :
  forall m n m' n',
    readLines input (m, n) = Ok (m', n') -> lines m' = lines m ++ input.
Proof.
  induction input as [|line rest IH]; intros m n m' n'; cbn [readLines].
  - intros [= <- _]. rewrite app_nil_r. reflexivity.
  - destruct (readLine line (m, n)) as [[m1 n1]| |] eqn:E1; cbn [bind];
      try discriminate.
    intros E. rewrite (IH _ _ _ _ E), (readLine_lines _ _ _ _ _ E1).
    rewrite <- app_assoc. reflexivity.
Qed.

Lemma read_lines input m : read input emptyMaze = Ok m -> lines m = input.
Proof.
  unfold read.
  destruct (readLines input (emptyMaze, 0)) as [[m1 n1]| |] eqn:E;
    cbn [bind]; try discriminate.
  intros [= <-]. apply readLines_lines in E. exact E.
Qed.




(** The number of lines of a text on which [main] returns. *)
Lemma main_lines (input : list text) (r : run) :
  Z.of_nat (length input) < 2 ^ 31 ->
  main input = Ok r ->
  Nat.odd (length input) = true /\ (3 <= length input)%nat.
Proof.
  intros Hn E.
  destruct input as [|l0 [|l1 tl]]; [discriminate E | discriminate E |].
  destruct (Nat.odd (length (l0 :: l1 :: tl))) eqn:Hodd.
  { split; [reflexivity|].
    destruct tl; [discriminate Hodd | cbn [length]; lia]. }
  exfalso. unfold main in E.
  change (Maze [] 0 0 (resize 2 None []) 0 0) with emptyMaze in E.
  rewrite (read_pairs l0 l1 tl Hn) in E.
  destruct (parseFrom None (widthOf l1) (l1 :: tl)) as [rs| |] eqn:Ep;
    cbn [bind] in E; try discriminate.
  apply parseFrom_length in Ep.
  set (n := length (l0 :: l1 :: tl)) in *.
  assert (Heven : Nat.even n = true).
  { rewrite <- Nat.negb_odd, Hodd. reflexivity. }
  rewrite Heven in E.
  apply Nat.even_spec in Heven. destruct Heven as (q & Hq).
  assert (Hlen : length rs = (q - 1)%nat).
  { rewrite Ep. change (length (l1 :: tl)) with (n - 1)%nat.
    rewrite Hq. replace (2 * q - 1)%nat with (1 + (q - 1) * 2)%nat.
    - rewrite Nat.div_add by lia. reflexivity.
    - subst n. cbn [length] in Hq. lia. }
  assert (Hq1 : (1 <= q)%nat) by (subst n; cbn [length] in Hq; lia).
  assert (Hh : wrap (Z.of_nat n / 2 - 1) = Z.of_nat (q - 1)).
  { replace (Z.of_nat n / 2 - 1) with (Z.of_nat (q - 1))
      by (rewrite Hq; Z.div_mod_to_equations; lia).
    apply wrap_small. lia. }
  rewrite Hh in E.
  assert (Hcell : forall m, rows m = map Some rs ++ [None] ->
                    cellAt m 0 (Z.of_nat (q - 1)) = Fault NullRow).
  { intros m Hr. unfold cellAt. rewrite Hr, toInt_small by lia.
    rewrite (at_nth_error _ (q - 1) None); [reflexivity|].
    rewrite nth_error_app2 by (rewrite length_map; lia).
    rewrite length_map, Hlen, Nat.sub_diag. reflexivity. }
  cbn [solveMaze height with_dest] in E.
  rewrite Hcell in E by reflexivity.
  discriminate E.
Qed.

(** X10.  The text that [main] can work on.  When [main] returns, its
    input had an odd number of lines, three at least: on no line, on
    one line and on an even number of lines the program reads outside
    its rows or through a row that is null. *)
Theorem main_needs_odd_lines (input : list text) (r : run) :
  Z.of_nat (length input) < 2 ^ 31 ->
  main input = Ok r ->
  Nat.odd (length input) = true /\ (3 <= length input)%nat.
Proof.
  intros Hn E. apply (main_lines input r); assumption.
Qed.


Lemma fold_Fault {A} (body : nat -> A -> outcome A) (f : fault) (l : list nat) :
  fold_left (fun acc i => bind acc (body i)) l (Fault f) = Fault f.
Proof.
  induction l as [|a l IH]; [reflexivity | exact IH].
Qed.

(** A second line too short for one cell makes the first round of
    [convertRow] read outside it, or leaves rows without cells. *)
Lemma at_fault {A} (l : list A) (i : Z) (f : fault) :
  at_ l i = Fault f -> f = OutOfRange.
Proof.
  unfold at_. destruct (_ && _); [|congruence].
  destruct (nth_error l _); congruence.
Qed.

Lemma convertRow_short_line b c w :
  (length b < 3)%nat -> 0 < wrap w -> convertRow None b c w = Fault OutOfRange.
Proof.
  intros Hb Hw. unfold convertRow, convertUpTo, forUpToF.
  destruct (Z.to_nat (wrap w)) as [|k] eqn:Ek; [lia|].
  cbn [seq fold_left bind].
  assert (Hcell : convertCell None b c 0 (repeat 0 (S k)) = Fault OutOfRange).
  { unfold convertCell. cbn [bind Z.of_nat].
    rewrite store_in_range by (rewrite repeat_length; lia). cbn [bind].
    set (row0 := upd (Z.to_nat 0) EMPTY (repeat 0 (S k))).
    assert (Hl0 : 0 <= 0 < Z.of_nat (length row0)).
    { unfold row0. rewrite upd_length, repeat_length. lia. }
    assert (Hb5 : at_ b (wrap (0 * 3 + Z.of_nat BUFFER)) = Fault OutOfRange).
    { unfold at_. change (wrap (0 * 3 + Z.of_nat BUFFER)) with 5.
      replace (5 <? Z.of_nat (length b)) with false
        by (symmetry; apply Z.ltb_ge; lia).
      rewrite andb_false_r. reflexivity. }
    destruct (at_ c _) as [ch|f|] eqn:Ec; cbn [bind].
    - destruct (negb (Ascii.eqb ch "_")).
      + unfold orCell. rewrite (at_in_range row0 0 0) by exact Hl0.
        cbn [bind]. rewrite store_in_range by exact Hl0. cbn [bind].
        rewrite Hb5. reflexivity.
      + cbn [bind]. rewrite Hb5. reflexivity.
    - apply at_fault in Ec. subst f. reflexivity.
    - destruct (at_no_timeout _ _ Ec). }
  rewrite Hcell. apply fold_Fault.
Qed.

Lemma parseFrom_no_width n :
  forall ls a, (length ls <= n)%nat ->
               exists q, parseFrom a 0 ls = Ok (repeat [] q).
Proof.
  induction n as [|n IH]; intros ls a Hl.
  - destruct ls; [|cbn in Hl; lia]. exists 0%nat. reflexivity.
  - destruct ls as [|b [|c rest]]; try (exists 0%nat; reflexivity).
    cbn [parseFrom].
    change (convertRow a b c 0) with (Ok (@nil Z)). cbn [bind].
    destruct (IH rest (Some []) ltac:(cbn [length] in Hl; lia)) as (q & ->).
    exists (S q). reflexivity.
Qed.

(** X17.  The width that [main] can work on.  When [main] returns, the
    second line of its input had at least eight characters, the left
    margin and one cell: on a shorter line the width comes out as zero
    or as [2^32 - 1], and the program reads outside a row or outside
    the line. *)
Theorem main_needs_a_cell (input : list text) (r : run) :
  Z.of_nat (length input) < 2 ^ 31 ->
  main input = Ok r ->
  (8 <= length (nth 1 input []))%nat.
Proof.
  intros Hn E. destruct (main_lines input r Hn E) as (Hodd & H3).
  destruct input as [|l0 [|l1 [|c tl]]]; try (cbn [length] in H3; lia).
  cbn [nth]. destruct (le_lt_dec 8 (length l1)) as [Hok|Hshort];
    [exact Hok|exfalso].
  unfold main in E.
  change (Maze [] 0 0 (resize 2 None []) 0 0) with emptyMaze in E.
  rewrite (read_pairs l0 l1 (c :: tl) Hn) in E.
  rewrite <- Nat.negb_odd, Hodd in E. cbn [negb] in E.
  destruct (le_lt_dec 3 (length l1)) as [H3'|H3'].
  - assert (Hw : widthOf l1 = 0).
    { unfold widthOf.
      destruct (length l1) as [|[|[|[|[|[|[|[|n]]]]]]]]; try lia; reflexivity. }
    rewrite Hw in E.
    destruct (parseFrom_no_width _ (l1 :: c :: tl) None (Nat.le_refl _))
      as (q & Hq).
    rewrite Hq in E. cbn [bind] in E. rewrite app_nil_r in E.
    cbn [solveMaze height with_dest] in E.
    match type of E with
    | context [cellAt ?m ?x ?y] =>
        assert (Hc : cellAt m x y = Fault OutOfRange)
    end.
    { unfold cellAt, with_dest. cbn [rows].
      destruct (at_ (map Some (repeat (@nil Z) q)) _) as [row|f|] eqn:Er;
        cbn [bind].
      - apply at_Ok in Er. destruct Er as (_ & Er).
        apply nth_error_In, in_map_iff in Er.
        destruct Er as (cells & <- & Hin). apply repeat_spec in Hin.
        subst cells. reflexivity.
      - apply at_fault in Er. subst f. reflexivity.
      - destruct (at_no_timeout _ _ Er). }
    rewrite Hc in E. discriminate E.
  - assert (Hw : widthOf l1 = 2 ^ 32 - 1).
    { unfold widthOf.
      destruct (length l1) as [|[|[|n]]]; try lia; reflexivity. }
    cbn [parseFrom] in E.
    rewrite convertRow_short_line in E; [discriminate E | exact H3'|].
    rewrite Hw. reflexivity.
Qed.

End Verdict.

(** * The generator: every cell is connected to every other *)

Section Connected.
Import GenMaze.

(** The loops of [makeRow] after the first, as steps of two kinds: a
    passage opened between two neighbouring columns of different sets,
    which are then merged, and a cell made to go DOWN. *)
Lemma makeRow_by_steps (P : globals -> Prop) rand isLast g g1 n :
  wf g -> reset g = Some (g1, n) -> P g1 ->
  (forall i g g2, wf g -> (S i < width g)%nat ->
     setAt g i <> setAt g (S i) -> P g -> opened i g g2 ->
     P (unionSet (setAt g2 (S i)) (setAt g2 i) g2)) ->
  (forall i g, wf g -> P g -> P (orRow i DOWN g)) ->
  exists g', makeRow rand isLast g = Some g' /\ wf g' /\
             width g' = width g /\ P g'.
Proof.
  intros Hwf E1 P1 Hunion Hdown.
  destruct (reset_keeps g Hwf) as (g1' & n' & E1' & Hwf1 & Hw1 & _).
  assert (g1' = g1) by congruence. subst g1'.
  assert (Hcarve : forall i acc, wf acc -> (i < width acc)%nat -> P acc ->
            wf (carveCell rand isLast i acc) /\
            width (carveCell rand isLast i acc) = width acc /\
            P (carveCell rand isLast i acc)).
  { intros i acc Hwfa Hi Pa. unfold carveCell.
    match goal with
    | |- context [if ?c then orRow i DOWN ?x else ?y] =>
        set (ga := y); set (down := c)
    end.
    assert (H1 : wf ga /\ width ga = width acc /\ P ga).
    { unfold ga. destruct (Z.rem (rand (2 * i)%nat) 2 =? 1); [|auto].
      destruct ((0 <? i)%nat && negb (setAt acc i =? setAt acc (i - 1)))
        eqn:E; [|auto].
      apply andb_prop in E. destruct E as (E & Ene). apply Nat.ltb_lt in E.
      destruct i as [|i]; [lia|].
      replace (S i - 1)%nat with i in * by lia.
      pose proof (opened_left_first i acc Hwfa Hi) as Ho.
      pose proof Ho as (Hwf2 & Hw2 & _).
      split; [apply wf_unionSet, Hwf2|]. split.
      - rewrite width_unionSet by exact Hwf2. exact Hw2.
      - apply (Hunion i acc); try assumption.
        apply negb_true_iff, Z.eqb_neq in Ene. congruence. }
    destruct H1 as (Hwf1' & Hw1' & P1'). cbv zeta.
    destruct down; [|auto].
    split; [apply wf_orRow, Hwf1'|]. split; [exact Hw1'|].
    apply Hdown; assumption. }
  assert (J2 : wf (carve rand isLast g1) /\
               width (carve rand isLast g1) = width g1 /\
               P (carve rand isLast g1)).
  { unfold carve.
    apply (forUpTo_ind (fun _ g' => wf g' /\ width g' = width g1 /\ P g')).
    - auto.
    - intros i acc Hi (Hwfa & Hwa & Pa).
      destruct (Hcarve i acc Hwfa ltac:(lia) Pa) as (? & ? & ?).
      split; [assumption|]. split; [congruence | assumption]. }
  set (g2 := carve rand isLast g1) in *. destruct J2 as (Hwf2 & Hw2 & P2).
  pose proof Hwf2 as (Hpos & _).
  unfold makeRow, carved. rewrite E1. fold g2. destruct isLast; cbn [negb].
  - exists (closeLast g2). split; [reflexivity|].
    unfold closeLast, closeUpTo. rewrite closeLast_bound by exact Hwf2.
    assert (K : forall k, (k < width g2)%nat ->
                wf (forUpTo k closeCell g2) /\
                width (forUpTo k closeCell g2) = width g2 /\
                P (forUpTo k closeCell g2)).
    { induction k as [|k IH]; intros Hk; [auto|].
      rewrite forUpTo_S. destruct (IH ltac:(lia)) as (Hwfk & Hwk & Pk).
      set (gk := forUpTo k closeCell g2) in *.
      unfold closeCell. rewrite Nat.add_1_r.
      destruct (setAt gk k =? setAt gk (S k)) eqn:Ene; [auto|]. cbv zeta.
      pose proof (opened_right_first k gk Hwfk ltac:(lia)) as Ho.
      pose proof Ho as (Hwfo & Hwo & _).
      split; [apply wf_unionSet, Hwfo|]. split.
      - rewrite width_unionSet by exact Hwfo. congruence.
      - apply (Hunion k gk); try assumption; [lia|].
        apply Z.eqb_neq in Ene. exact Ene. }
    destruct (K (width g2 - 1)%nat ltac:(lia)) as (Hwf' & Hw' & P').
    split; [exact Hwf'|]. split; [congruence | exact P'].
  - exists (forceDown g2). split; [reflexivity|].
    unfold forceDown, forceUpTo.
    assert (K : wf (forUpTo (width g2) forceCell g2) /\
                width (forUpTo (width g2) forceCell g2) = width g2 /\
                P (forUpTo (width g2) forceCell g2)).
    { apply (forUpTo_ind
               (fun _ g' => wf g' /\ width g' = width g2 /\ P g')).
      - auto.
      - intros i acc _ (Hwfa & Hwa & Pa). unfold forceCell.
        destruct (has (rowAt acc i) DOWN); [auto|].
        destruct (negb _); [|auto].
        split; [apply wf_orRow, Hwfa|]. split; [exact Hwa|].
        apply Hdown; assumption. }
    destruct K as (Hwf' & Hw' & P'). split; [exact Hwf'|].
    split; [congruence | exact P'].
Qed.

Lemma rowConn_mono g0 g g' c1 c2 :
  width g' = width g ->
  (forall j, has (rowAt g j) RIGHT = true -> has (rowAt g' j) RIGHT = true) ->
  rowConn g0 g c1 c2 -> rowConn g0 g' c1 c2.
Proof.
  intros Hw Hr H. induction H.
  - apply rc_refl.
  - apply rc_sym. assumption.
  - eapply rc_trans; eassumption.
  - apply rc_right; [rewrite Hw; assumption | auto].
  - apply rc_above; assumption.
Qed.

Lemma labelled_same g0 g g' :
  width g' = width g -> set g' = set g ->
  (forall j, has (rowAt g j) RIGHT = true -> has (rowAt g' j) RIGHT = true) ->
  labelled g0 g -> labelled g0 g'.
Proof.
  intros Hw Hs Hr Hl c1 c2 H1 H2 E. rewrite Hw in H1, H2.
  unfold setAt in E. rewrite Hs in E.
  apply (rowConn_mono g0 g g'); auto.
Qed.

Lemma labelled_down g0 i g :
  wf g -> labelled g0 g -> labelled g0 (orRow i DOWN g).
Proof.
  intros Hwf Hl.
  apply (labelled_same g0 g); [reflexivity | reflexivity | | exact Hl].
  intros j. destruct (Nat.lt_ge_cases i (length (row g))) as [Hi|Hi].
  - rewrite has_orRow by exact Hi. intros ->. reflexivity.
  - unfold orRow, rowAt, with_row. cbn [row].
    rewrite upd_overflow by exact Hi. auto.
Qed.

Lemma labelled_merge g0 i g g2 :
  wf g -> (S i < width g)%nat -> labelled g0 g -> opened i g g2 ->
  labelled g0 (unionSet (setAt g2 (S i)) (setAt g2 i) g2).
Proof.
  intros Hwf Hi Hl (Hwf2 & Hw2 & Hs2 & Hf2).
  pose proof Hwf2 as (_ & _ & Hls2 & _).
  destruct (unionSet_spec (setAt g2 (S i)) (setAt g2 i) g2 Hls2)
    as (Hrow & _ & Hw & _ & _ & _ & Hset).
  set (g3 := unionSet (setAt g2 (S i)) (setAt g2 i) g2) in *.
  assert (Hsame : forall k, setAt g2 k = setAt g k).
  { intros k. unfold setAt. now rewrite Hs2. }
  assert (Hw3 : width g3 = width g) by congruence.
  assert (Hflag : forall j f, has (rowAt g3 j) f
                  = has (rowAt g j) f || ((i =? j)%nat && has RIGHT f)
                    || ((S i =? j)%nat && has LEFT f)).
  { intros j f. unfold rowAt. rewrite Hrow. apply Hf2. }
  assert (Hold : forall c1 c2, rowConn g0 g c1 c2 -> rowConn g0 g3 c1 c2).
  { intros c1 c2. apply rowConn_mono; [exact Hw3|].
    intros j Hj. rewrite Hflag, Hj. reflexivity. }
  assert (Hnew : rowConn g0 g3 i (S i)).
  { apply rc_right; [lia|]. rewrite Hflag, Nat.eqb_refl.
    change (has RIGHT RIGHT) with true.
    rewrite andb_true_r, orb_true_r. reflexivity. }
  assert (Hrep : forall c, (c < width g)%nat ->
            exists c', (c' < width g)%nat /\ rowConn g0 g3 c c' /\
                       setAt g c' = setAt g3 c).
  { intros c Hc. rewrite Hset, !Hsame by lia.
    destruct (setAt g c =? setAt g i) eqn:E.
    - apply Z.eqb_eq in E. exists (S i). split; [exact Hi|].
      split; [|reflexivity].
      apply (rc_trans _ _ c i); [|exact Hnew].
      apply Hold, Hl; [exact Hc | lia | exact E].
    - exists c. split; [exact Hc|]. split; [apply rc_refl | reflexivity]. }
  intros c1 c2 H1 H2 E. rewrite Hw3 in H1, H2.
  destruct (Hrep c1 H1) as (d1 & Hd1 & K1 & E1).
  destruct (Hrep c2 H2) as (d2 & Hd2 & K2 & E2).
  apply (rc_trans _ _ c1 d1); [exact K1|].
  apply (rc_trans _ _ d1 d2); [|apply rc_sym; exact K2].
  apply Hold, Hl; [exact Hd1 | exact Hd2 | congruence].
Qed.

Lemma labelled_reset g0 g1 n :
  wf g0 -> reset g0 = Some (g1, n) -> labelled g0 g1.
Proof.
  intros Hwf E.
  destruct (resetUpTo_fresh_alone g0 (width g0) Hwf (Nat.le_refl _))
    as (g1' & n' & E' & Hinv & Hfresh).
  unfold reset in E. rewrite E in E'. injection E' as <- <-.
  destruct Hinv as (_ & Hw1 & _ & _ & _ & _ & Hlt).
  intros c1 c2 H1 H2 Es. rewrite Hw1 in H1, H2.
  destruct (Nat.eq_dec c1 c2) as [->|Hne]; [apply rc_refl|].
  destruct (has (rowAt g0 c1) DOWN) eqn:D1.
  2:{ destruct (Hfresh c1 c2 H1 H2 Hne D1 Es). }
  destruct (has (rowAt g0 c2) DOWN) eqn:D2.
  2:{ destruct (Hfresh c2 c1 H2 H1 (not_eq_sym Hne) D2 (eq_sym Es)). }
  destruct (Hlt c1 H1) as (_ & _ & K1). destruct (Hlt c2 H2) as (_ & _ & K2).
  apply rc_above; try assumption.
  rewrite <- (K1 D1), <- (K2 D2). exact Es.
Qed.

(** In the row that [makeRow] returns, two columns of one set are
    connected. *)
Lemma makeRow_labelled rand isLast g0 g :
  wf g0 -> makeRow rand isLast g0 = Some g ->
  wf g /\ width g = width g0 /\ labelled g0 g.
Proof.
  intros Hwf E.
  destruct (reset_keeps g0 Hwf) as (g1 & n & E1 & _).
  destruct (makeRow_by_steps (labelled g0) rand isLast g0 g1 n Hwf E1)
    as (g' & E' & Hwf' & Hw' & Hl').
  - eapply labelled_reset; eassumption.
  - intros i ga g2 Hwfa Hi _ Hla Ho. eapply labelled_merge; eassumption.
  - intros i ga Hwfa Hla. apply labelled_down; assumption.
  - assert (g' = g) by congruence. subst g'. auto.
Qed.

(** What the third and the fourth loop leave: every set goes down, and
    on the last row there is one set. *)
Lemma makeRow_goes_down rand g0 g :
  wf g0 -> makeRow rand false g0 = Some g ->
  forall c, (c < width g0)%nat ->
    exists j, (j < width g0)%nat /\ setAt g j = setAt g c /\
              has (rowAt g j) DOWN = true.
Proof.
  intros Hwf E.
  destruct (carved_keeps rand false g0 Hwf) as (g2 & E2 & Hwf2 & Hw2 & _).
  pose proof (forceUpTo_inv g2 (width g2) Hwf2 (Nat.le_refl _))
    as (_ & _ & Hs' & _ & _ & Hlt & _).
  unfold makeRow in E. rewrite E2 in E. cbn in E. injection E as <-.
  unfold forceDown.
  assert (Hsame : forall i, setAt (forceUpTo (width g2) g2) i = setAt g2 i).
  { intros i. unfold setAt. now rewrite Hs'. }
  rewrite <- Hw2. intros c Hc. destruct (Hlt c Hc) as (i & Hi & Es & Ed).
  exists i. rewrite !Hsame. auto.
Qed.

Lemma makeRow_one_set rand g0 g :
  wf g0 -> makeRow rand true g0 = Some g ->
  forall i j, (i < width g0)%nat -> (j < width g0)%nat ->
              setAt g i = setAt g j.
Proof.
  intros Hwf E.
  destruct (carved_keeps rand true g0 Hwf) as (g2 & E2 & Hwf2 & Hw2 & _).
  pose proof Hwf2 as (Hpos & _).
  pose proof (closeUpTo_inv g2 (width g2 - 1) Hwf2 ltac:(lia))
    as (_ & _ & _ & Heq).
  unfold makeRow in E. rewrite E2 in E. cbn in E. injection E as <-.
  unfold closeLast. rewrite closeLast_bound by exact Hwf2.
  rewrite <- Hw2. intros i j Hi Hj.
  rewrite (Heq i), (Heq j) by lia. reflexivity.
Qed.

Lemma statesFrom_chained height n :
  forall i rand g sts,
    statesFrom height n i rand g = Some sts ->
    length sts = n /\ chained height i g sts.
Proof.
  induction n as [|n IH]; intros i rand g sts; cbn [statesFrom].
  - intros [= <-]. split; [reflexivity | exact I].
  - destruct (makeRow rand (i =? height - 1)%nat g) as [g'|] eqn:Em;
      [|discriminate].
    destruct (statesFrom height n (S i) _ g') as [rest|] eqn:Er;
      [|discriminate].
    intros [= <-]. destruct (IH _ _ _ _ Er) as (Hlen & Hch).
    split; [cbn [length]; lia|]. cbn [chained]. split; [eauto | exact Hch].
Qed.

(** The rows from the [i]-th on, given that the cells above them are
    connected to the row [i] and that the columns of one set that go
    down from the row above are connected. *)
Lemma connect_rows (sts : list globals) (w : nat) :
  forall rest i g,
    (i + length rest = length sts)%nat ->
    (forall k, nth_error rest k = nth_error sts (i + k)) ->
    wf g -> width g = w ->
    chained (length sts) i g rest ->
    (forall c1 c2, (c1 < w)%nat -> (c2 < w)%nat ->
       has (rowAt g c1) DOWN = true -> has (rowAt g c2) DOWN = true ->
       setAt g c1 = setAt g c2 -> mazeConn sts (i, c1) (i, c2)) ->
    (forall r c, (r < i)%nat -> (c < w)%nat ->
       exists c', (c' < w)%nat /\ mazeConn sts (r, c) (i, c')) ->
    rest <> [] ->
    forall r c, (r < length sts)%nat -> (c < w)%nat ->
                mazeConn sts (r, c) (length sts - 1, 0)%nat.
Proof.
  induction rest as [|g' rest IH]; intros i g Hi Hnth Hwf Hw Hch J1 J2 Hne;
    [congruence|].
  cbn [chained] in Hch. destruct Hch as ((rand & Em) & Hch).
  destruct (makeRow_labelled _ _ _ _ Hwf Em) as (Hwf' & Hw' & Hlab).
  rewrite Hw in Hw'.
  assert (Hrow : nth_error sts i = Some g').
  { rewrite <- (Nat.add_0_r i), <- Hnth. reflexivity. }
  assert (L0 : forall c1 c2, rowConn g g' c1 c2 ->
                 (c1 < w)%nat -> (c2 < w)%nat ->
                 mazeConn sts (i, c1) (i, c2)).
  { assert (Hin : forall c1 c2, rowConn g g' c1 c2 ->
                    ((c1 < w)%nat <-> (c2 < w)%nat)).
    { intros c1 c2 H. induction H; try tauto; try lia. }
    intros c1 c2 H.
    induction H as [c|c1 c2 H IH1|c1 c2 c3 Ha IHa Hb IHb|c Hc HR
                    |c1 c2 Hc1 Hc2 D1 D2 E]; intros Hlt1 Hlt2.
    - apply mc_refl.
    - apply mc_sym. auto.
    - pose proof (Hin _ _ Ha) as Hc2.
      apply (mc_trans _ _ (i, c2)); [apply IHa | apply IHb]; tauto.
    - apply (mc_right sts i c g'); assumption.
    - apply J1; assumption. }
  assert (L1 : forall c1 c2, (c1 < w)%nat -> (c2 < w)%nat ->
                 setAt g' c1 = setAt g' c2 -> mazeConn sts (i, c1) (i, c2)).
  { intros c1 c2 H1 H2 E. apply L0; [|assumption|assumption].
    apply Hlab; [lia | lia | exact E]. }
  assert (L2 : forall r c, (r <= i)%nat -> (c < w)%nat ->
                 exists c', (c' < w)%nat /\ mazeConn sts (r, c) (i, c')).
  { intros r c Hr Hc. destruct (Nat.eq_dec r i) as [->|Hri].
    - exists c. split; [exact Hc | apply mc_refl].
    - destruct (J2 r c ltac:(lia) Hc) as (c0 & Hc0 & K0).
      exists c0. split; [exact Hc0 | exact K0]. }
  destruct rest as [|g'' rest'].
  - cbn [length] in Hi.
    replace (i =? length sts - 1)%nat with true in Em
      by (symmetry; apply Nat.eqb_eq; lia).
    pose proof (makeRow_one_set _ _ _ Hwf Em) as Hone. rewrite Hw in Hone.
    replace (length sts - 1)%nat with i by lia.
    intros r c Hr Hc.
    destruct (L2 r c ltac:(lia) Hc) as (c' & Hc' & K).
    destruct Hwf' as (Hpos & _).
    apply (mc_trans _ _ (i, c')); [exact K|].
    apply L1; [exact Hc' | lia | apply Hone; lia].
  - cbn [length] in Hi.
    replace (i =? length sts - 1)%nat with false in Em
      by (symmetry; apply Nat.eqb_neq; lia).
    pose proof (makeRow_goes_down _ _ _ Hwf Em) as Hdown.
    rewrite Hw in Hdown.
    assert (Hstep : forall c, (c < w)%nat ->
              has (rowAt g' c) DOWN = true ->
              mazeConn sts (i, c) (S i, c)).
    { intros c Hc Hd. apply (mc_down sts i c g'); auto; lia. }
    apply (IH (S i) g'); try assumption.
    + cbn [length]. lia.
    + intros k. rewrite Nat.add_succ_l, <- Nat.add_succ_r, <- Hnth.
      reflexivity.
    + intros c1 c2 H1 H2 D1 D2 E.
      apply (mc_trans _ _ (i, c1)); [apply mc_sym, Hstep; assumption|].
      apply (mc_trans _ _ (i, c2)); [|apply Hstep; assumption].
      apply L1; assumption.
    + intros r c Hr Hc.
      destruct (L2 r c ltac:(lia) Hc) as (c0 & Hc0 & K0).
      destruct (Hdown c0 Hc0) as (j & Hj & Ej & Dj).
      exists j. split; [exact Hj|].
      apply (mc_trans _ _ (i, c0)); [exact K0|].
      apply (mc_trans _ _ (i, j)); [|apply Hstep; assumption].
      apply L1; [exact Hc0 | exact Hj | congruence].
    + discriminate.
Qed.

Lemma generated_connected (ds dr : bool) (w h : nat) (rand : nat -> Z)
      (sts : list globals) :
  (0 < w)%nat -> Z.of_nat w < 2 ^ 32 -> (0 < h)%nat ->
  statesFrom h h 0 rand (init w ds dr) = Some sts ->
  forall r c, (r < h)%nat -> (c < w)%nat ->
              mazeConn sts (r, c) (h - 1, 0)%nat.
Proof.
  intros Hw Hw32 Hh Es.
  destruct (statesFrom_chained _ _ _ _ _ _ Es) as (Hlen & Hch).
  rewrite <- Hlen in *.
  apply (connect_rows sts w sts 0%nat (init w ds dr)).
  - reflexivity.
  - intros k. reflexivity.
  - apply wf_init; assumption.
  - reflexivity.
  - exact Hch.
  - intros c1 c2 H1 _ D1. exfalso.
    unfold init, rowAt in D1. cbn [row] in D1.
    rewrite nth_repeat in D1. discriminate.
  - intros r c Hr. lia.
  - destruct sts; [cbn in Hh; lia | discriminate].
Qed.

Lemma statesFrom_total (h : nat) :
  forall n i rnd g, wf g -> exists sts, statesFrom h n i rnd g = Some sts.
Proof.
  induction n as [|n IH]; intros i rnd g Hg; [eexists; reflexivity|].
  cbn [statesFrom].
  destruct (makeRow_wf rnd (i =? h - 1)%nat g Hg) as (g' & -> & Hg' & _).
  destruct (IH (S i) (fun k => rnd (2 * width g' + k)%nat) g' Hg')
    as (rest & ->).
  eexists. reflexivity.
Qed.

(** X11.  Every maze of the generator is connected.  For every width
    and height, not zero, and every sequence of random numbers, the
    rows that the loop of [main] makes form a maze in which every cell
    is connected to every other cell through passages to the right and
    passages down. *)
Theorem generated_maze_connected (w h : nat) (rand : nat -> Z) :
  (0 < w)%nat -> Z.of_nat w < 2 ^ 32 -> (0 < h)%nat ->
  exists sts,
    statesFrom h h 0 rand (init w false false) = Some sts /\
    length sts = h /\
    forall r c r' c', (r < h)%nat -> (c < w)%nat ->
                      (r' < h)%nat -> (c' < w)%nat ->
                      mazeConn sts (r, c) (r', c').
Proof.
  intros Hw Hw32 Hh.
  assert (Hwf : wf (init w false false)) by (apply wf_init; assumption).
  destruct (statesFrom_total h h 0%nat rand _ Hwf) as (sts & Es).
  exists sts. split; [exact Es|].
  split; [apply (statesFrom_chained _ _ _ _ _ _ Es)|].
  intros r c r' c' Hr Hc Hr' Hc'.
  apply (mc_trans _ _ (h - 1, 0)%nat).
  - apply (generated_connected false false w h rand sts); assumption.
  - apply mc_sym.
    apply (generated_connected false false w h rand sts); assumption.
Qed.

End Connected.

(** * The solver on the mazes of the generator *)

Section Solvable.
Import GenMaze SolMaze.





Lemma toInt_nonneg y : 0 <= toInt y -> toInt y = wrap y /\ wrap y < 2 ^ 31.
Proof.
  unfold toInt. pose proof (wrap_range y).
  destruct (wrap y <? 2 ^ 31) eqn:E; [apply Z.ltb_lt in E|apply Z.ltb_ge in E];
    lia.
Qed.

Lemma toInt_pred y : 1 <= toInt y -> toInt (wrap (y - 1)) = toInt y - 1.
Proof.
  intros H. destruct (toInt_nonneg y ltac:(lia)) as (E & Hlt).
  assert (Hw : wrap (y - 1) = wrap y - 1).
  { unfold wrap in *. rewrite Zminus_mod, (Z.mod_small 1) by lia.
    apply Z.mod_small. lia. }
  rewrite Hw, E. apply toInt_small. lia.
Qed.

Lemma toInt_succ y :
  0 <= toInt y -> toInt y + 1 < 2 ^ 31 ->
  toInt (wrap (y + 1)) = toInt y + 1.
Proof.
  intros H H1. destruct (toInt_nonneg y H) as (E & Hlt).
  assert (Hw : wrap (y + 1) = wrap y + 1).
  { unfold wrap in *. rewrite Zplus_mod, (Z.mod_small 1) by lia.
    apply Z.mod_small. lia. }
  rewrite Hw, E. apply toInt_small. lia.
Qed.














End Solvable.

(** * The generator: the number of passages *)

Section Counting.
Import GenMaze.

Lemma same_elements_length {A} (l1 l2 : list A) :
  NoDup l1 -> NoDup l2 -> (forall x, In x l1 <-> In x l2) ->
  length l1 = length l2.
Proof.
  intros H1 H2 H. apply Nat.le_antisymm.
  - apply NoDup_incl_length; [exact H1|]. intros x. apply H.
  - apply NoDup_incl_length; [exact H2|]. intros x. apply H.
Qed.

Lemma nodup_same_elements (l1 l2 : list Z) :
  (forall x, In x l1 <-> In x l2) ->
  length (nodup Z.eq_dec l1) = length (nodup Z.eq_dec l2).
Proof.
  intros H. apply same_elements_length; try apply NoDup_nodup.
  intros x. rewrite !nodup_In. apply H.
Qed.

Lemma In_labels g x :
  In x (labels g) <-> exists c, (c < width g)%nat /\ setAt g c = x.
Proof.
  unfold labels. rewrite in_map_iff. split.
  - intros (c & E & Hc). apply in_seq in Hc. exists c. split; [lia | exact E].
  - intros (c & Hc & E). exists c. split; [exact E|]. apply in_seq. lia.
Qed.

Lemma In_downLabels g x :
  In x (downLabels g) <->
  exists c, (c < width g)%nat /\ has (rowAt g c) DOWN = true /\ setAt g c = x.
Proof.
  unfold downLabels. rewrite in_map_iff. split.
  - intros (c & E & Hc). apply filter_In in Hc. destruct Hc as (Hc & Hd).
    apply in_seq in Hc. exists c. split; [lia|]. auto.
  - intros (c & Hc & Hd & E). exists c. split; [exact E|].
    apply filter_In. split; [apply in_seq; lia | exact Hd].
Qed.

(** Merging one set into another leaves one set less. *)
Lemma sets_unionSet a b g :
  wf g -> a <> b -> In a (labels g) -> In b (labels g) ->
  (sets (unionSet a b g) + 1 = sets g)%nat.
Proof.
  intros Hwf Hab Ha Hb. pose proof Hwf as (_ & _ & Hls & _).
  destruct (unionSet_spec a b g Hls) as (_ & _ & Hw & _ & _ & _ & Hset).
  unfold sets. rewrite Nat.add_1_r.
  change (S (length (nodup Z.eq_dec (labels (unionSet a b g)))))
    with (length (b :: nodup Z.eq_dec (labels (unionSet a b g)))).
  apply same_elements_length.
  - constructor; [|apply NoDup_nodup].
    rewrite nodup_In, In_labels. intros (c & Hc & E).
    rewrite Hw in Hc. rewrite Hset in E by exact Hc.
    destruct (setAt g c =? b) eqn:Eb; [congruence|].
    apply Z.eqb_neq in Eb. congruence.
  - apply NoDup_nodup.
  - intros x. cbn [In]. rewrite !nodup_In, !In_labels. rewrite Hw. split.
    + intros [<-|(c & Hc & E)].
      * apply In_labels in Hb. exact Hb.
      * rewrite Hset in E by exact Hc.
        destruct (setAt g c =? b); [|eauto].
        subst x. apply In_labels in Ha. exact Ha.
    + intros (c & Hc & E).
      destruct (Z.eq_dec b x) as [Hbx|Hbx]; [left; exact Hbx|].
      right. exists c. split; [exact Hc|]. rewrite Hset by exact Hc.
      destruct (setAt g c =? b) eqn:Eb; [|exact E].
      apply Z.eqb_eq in Eb. congruence.
Qed.

Lemma countFlag_same f g g' :
  width g' = width g ->
  (forall j, (j < width g)%nat -> has (rowAt g' j) f = has (rowAt g j) f) ->
  countFlag f g' = countFlag f g.
Proof.
  intros Hw H. unfold countFlag. rewrite Hw. f_equal.
  apply filter_ext_in. intros c Hc. apply in_seq in Hc. apply H. lia.
Qed.

(** A flag set on one more cell. *)
Lemma countFlag_one_more f g g' i :
  width g' = width g -> (i < width g)%nat ->
  has (rowAt g i) f = false ->
  (forall j, has (rowAt g' j) f = has (rowAt g j) f || (i =? j)%nat) ->
  countFlag f g' = S (countFlag f g).
Proof.
  intros Hw Hi Hno H. unfold countFlag. rewrite Hw.
  assert (G : forall n,
            length (filter (fun c => has (rowAt g' c) f) (seq 0 n))
            = (length (filter (fun c => has (rowAt g c) f) (seq 0 n))
               + if (i <? n)%nat then 1 else 0)%nat).
  { induction n as [|n IH]; [reflexivity|].
    rewrite seq_S, !filter_app, !length_app, IH. cbn [filter Nat.add].
    rewrite H. destruct (Nat.eqb_spec i n) as [->|Hne].
    - rewrite Hno, Nat.ltb_irrefl. cbn [orb length].
      replace (n <? S n)%nat with true by (symmetry; apply Nat.ltb_lt; lia).
      lia.
    - rewrite orb_false_r.
      destruct (Nat.ltb_spec i n), (Nat.ltb_spec i (S n)); lia. }
  rewrite G.
  replace (i <? width g)%nat with true by (symmetry; apply Nat.ltb_lt; lia).
  lia.
Qed.

Lemma balanced_merge k i g g2 :
  wf g -> (S i < width g)%nat -> setAt g i <> setAt g (S i) ->
  balanced k g -> opened i g g2 ->
  balanced k (unionSet (setAt g2 (S i)) (setAt g2 i) g2).
Proof.
  intros Hwf Hi Hne (Hj & Hk) Ho. split.
  { apply (joined_merge i g); assumption. }
  destruct Ho as (Hwf2 & Hw2 & Hs2 & Hf2).
  pose proof Hwf2 as (_ & _ & Hls2 & _).
  destruct (unionSet_spec (setAt g2 (S i)) (setAt g2 i) g2 Hls2)
    as (Hrow & _ & Hw & _ & _ & _ & _).
  set (g3 := unionSet (setAt g2 (S i)) (setAt g2 i) g2) in *.
  assert (Hsame : forall c, setAt g2 c = setAt g c).
  { intros c. unfold setAt. now rewrite Hs2. }
  assert (Hlab : labels g2 = labels g).
  { unfold labels. rewrite Hw2. apply map_ext. exact Hsame. }
  assert (Hsets : (sets g3 + 1 = sets g)%nat).
  { replace (sets g) with (sets g2) by (unfold sets; now rewrite Hlab).
    apply sets_unionSet; [exact Hwf2 | rewrite !Hsame; congruence | |].
    - apply In_labels. exists (S i). split; [lia | reflexivity].
    - apply In_labels. exists i. split; [lia | reflexivity]. }
  assert (Hcount : countFlag RIGHT g3 = S (countFlag RIGHT g)).
  { apply (countFlag_one_more RIGHT g g3 i); [congruence | lia | |].
    - destruct (has (rowAt g i) RIGHT) eqn:E; [|reflexivity].
      destruct Hne. apply Hj; [exact Hi | exact E].
    - intros j. unfold rowAt. rewrite Hrow. fold (rowAt g2 j).
      rewrite Hf2. change (has RIGHT RIGHT) with true.
      change (has LEFT RIGHT) with false.
      rewrite andb_true_r, andb_false_r, orb_false_r. reflexivity. }
  lia.
Qed.

Lemma balanced_down k i g :
  wf g -> balanced k g -> balanced k (orRow i DOWN g).
Proof.
  intros Hwf (Hj & Hk). split; [apply joined_down; assumption|].
  replace (sets (orRow i DOWN g)) with (sets g) by reflexivity.
  rewrite (countFlag_same RIGHT g); [exact Hk | reflexivity|].
  intros j _. destruct (Nat.lt_ge_cases i (length (row g))) as [Hi|Hi].
  - rewrite has_orRow by exact Hi. change (has DOWN RIGHT) with false.
    now rewrite andb_false_r, orb_false_r.
  - unfold orRow, rowAt, with_row. cbn [row].
    rewrite upd_overflow by exact Hi. reflexivity.
Qed.

(** After the first loop: no passage yet, and as many sets as went
    down plus one for each column that did not. *)
Lemma balanced_reset g g1 n :
  wf g -> reset g = Some (g1, n) ->
  exists k, balanced k g1 /\
            (k + countFlag DOWN g = setsDown g + width g)%nat.
Proof.
  intros Hwf E.
  destruct (resetUpTo_fresh_alone g (width g) Hwf (Nat.le_refl _))
    as (g1' & n' & E' & Hinv & Hfresh).
  unfold reset in E. rewrite E in E'. injection E' as <- <-.
  destruct Hinv as (_ & Hw1 & _ & _ & _ & _ & Hlt).
  assert (Hnone : forall j, (j < width g)%nat ->
                            has (rowAt g1 j) RIGHT = false).
  { intros j Hj. destruct (Hlt j Hj) as (-> & _).
    destruct (has (rowAt g j) DOWN); reflexivity. }
  assert (Hc0 : countFlag RIGHT g1 = 0%nat).
  { unfold countFlag. rewrite Hw1.
    rewrite (filter_ext_in _ (fun _ => false)).
    - induction (seq 0 (width g)) as [|a l IH]; [reflexivity | exact IH].
    - intros c Hc. apply in_seq in Hc. apply Hnone. lia. }
  exists (sets g1). split.
  { split; [|rewrite Hc0; reflexivity].
    intros j Hj HR. rewrite Hw1 in Hj. rewrite Hnone in HR by lia.
    discriminate. }
  set (others := filter (fun c => negb (has (rowAt g c) DOWN))
                        (seq 0 (width g))).
  assert (Hothers : (length others + countFlag DOWN g = width g)%nat).
  { unfold others, countFlag.
    pose proof (filter_length (fun c => has (rowAt g c) DOWN)
                              (seq 0 (width g))) as H.
    rewrite length_seq in H. lia. }
  assert (Hsets : sets g1 = (setsDown g + length others)%nat).
  { unfold sets, setsDown.
    rewrite <- (length_map (setAt g1) others), <- length_app.
    apply same_elements_length.
    - apply NoDup_nodup.
    - apply NoDup_app.
      + apply NoDup_nodup.
      + apply NoDup_map_NoDup_ForallPairs.
        * intros c1 c2 H1 H2 Es.
          apply filter_In in H1, H2.
          destruct H1 as (H1 & D1), H2 as (H2 & _).
          apply in_seq in H1, H2. apply negb_true_iff in D1.
          destruct (Nat.eq_dec c1 c2) as [Heq|Hne]; [exact Heq|].
          destruct (Hfresh c1 c2 ltac:(lia) ltac:(lia) Hne D1 Es).
        * apply NoDup_filter, seq_NoDup.
      + intros x Hx Hx'. rewrite nodup_In, In_downLabels in Hx.
        destruct Hx as (c & Hc & Hd & <-).
        apply in_map_iff in Hx'. destruct Hx' as (c' & Es & Hc').
        apply filter_In in Hc'. destruct Hc' as (Hc' & Hd').
        apply in_seq in Hc'. apply negb_true_iff in Hd'.
        destruct (Hlt c Hc) as (_ & _ & Hkeep).
        apply (Hfresh c' c ltac:(lia) Hc); [congruence | exact Hd'|].
        rewrite Es. symmetry. apply Hkeep, Hd.
    - intros x. rewrite nodup_In, In_labels, in_app_iff, nodup_In,
        In_downLabels, in_map_iff. rewrite Hw1. split.
      + intros (c & Hc & <-).
        destruct (has (rowAt g c) DOWN) eqn:Hd.
        * left. exists c. destruct (Hlt c Hc) as (_ & _ & Hkeep).
          split; [exact Hc|]. split; [exact Hd|]. symmetry. auto.
        * right. exists c. split; [reflexivity|]. apply filter_In.
          split; [apply in_seq; lia|]. rewrite Hd. reflexivity.
      + intros [(c & Hc & Hd & <-)|(c & <- & Hc)].
        * exists c. destruct (Hlt c Hc) as (_ & _ & Hkeep). auto.
        * apply filter_In in Hc. destruct Hc as (Hc & _).
          apply in_seq in Hc. exists c. split; [lia | reflexivity]. }
  lia.
Qed.

(** One row: its passages to the right and the passages down into it,
    against the sets before and after. *)
Lemma makeRow_count rand isLast g g' :
  wf g -> makeRow rand isLast g = Some g' ->
  (countFlag RIGHT g' + sets g' + countFlag DOWN g
   = setsDown g + width g)%nat.
Proof.
  intros Hwf E.
  destruct (reset_keeps g Hwf) as (g1 & n & E1 & _).
  destruct (balanced_reset g g1 n Hwf E1) as (k & Hb & Hk).
  destruct (makeRow_by_steps (balanced k) rand isLast g g1 n Hwf E1 Hb)
    as (g2 & E2 & _ & _ & _ & Hk2).
  - intros i ga gb Hwfa Hi Hne Hba Ho. eapply balanced_merge; eassumption.
  - intros i ga Hwfa Hba. apply balanced_down; assumption.
  - assert (g2 = g') by congruence. subst g2. lia.
Qed.

Lemma makeRow_sets_down rand g g' :
  wf g -> makeRow rand false g = Some g' -> setsDown g' = sets g'.
Proof.
  intros Hwf E.
  destruct (makeRow_wf rand false g Hwf) as (g2 & E2 & _ & Hw).
  assert (g2 = g') by congruence. subst g2.
  pose proof (makeRow_goes_down rand g g' Hwf E) as Hdown.
  apply nodup_same_elements. intros x.
  rewrite In_labels, In_downLabels. split.
  - intros (c & Hc & _ & Es). eauto.
  - intros (c & Hc & Es). rewrite Hw in Hc.
    destruct (Hdown c Hc) as (j & Hj & Ej & Dj).
    exists j. rewrite Hw. split; [exact Hj|]. split; [exact Dj|]. congruence.
Qed.

Lemma makeRow_last_count rand g g' :
  wf g -> makeRow rand true g = Some g' ->
  sets g' = 1%nat /\ countFlag DOWN g' = 0%nat.
Proof.
  intros Hwf E.
  destruct (makeRow_cells rand true g Hwf)
    as (g2 & E2 & Hwf' & Hw & _ & _ & Hc).
  assert (g2 = g') by congruence. subst g2.
  pose proof (makeRow_one_set rand g g' Hwf E) as Hone.
  destruct Hwf as (Hpos & _). split.
  - unfold sets.
    rewrite (nodup_same_elements (labels g') [setAt g' 0]); [reflexivity|].
    intros x. rewrite In_labels. cbn [In]. rewrite Hw. split.
    + intros (c & Hcw & <-). left. apply Hone; lia.
    + intros [<-|[]]. exists 0%nat. split; [lia | reflexivity].
  - unfold countFlag. rewrite Hw.
    rewrite (filter_ext_in _ (fun _ => false)).
    + induction (seq 0 (width g)) as [|a l IH]; [reflexivity | exact IH].
    + intros c Hcw. apply in_seq in Hcw.
      destruct (Hc c ltac:(lia)) as (_ & e & He & ->).
      rewrite has_lor, (submask_lacks e _ DOWN He) by reflexivity.
      destruct (has (rowAt g c) DOWN); reflexivity.
Qed.

(** The rows from the [i]-th on: their passages against the sets that
    go down into them. *)
Lemma count_rows (w h : nat) :
  forall rest i g,
    (i + length rest = h)%nat -> wf g -> width g = w ->
    chained h i g rest -> rest <> [] ->
    (passages rest + countFlag DOWN g + 1
     = setsDown g + w * length rest)%nat.
Proof.
  induction rest as [|g' rest IH]; intros i g Hi Hwf Hw Hch Hne;
    [congruence|].
  cbn [chained] in Hch. destruct Hch as ((rand & Em) & Hch).
  destruct (makeRow_wf rand (i =? h - 1)%nat g Hwf) as (g2 & E2 & Hwf' & Hw').
  assert (g2 = g') by congruence. subst g2.
  pose proof (makeRow_count _ _ _ _ Hwf Em) as Hcount.
  unfold passages in *. cbn [map list_sum length]. rewrite Hw in *.
  destruct rest as [|g'' rest'].
  - cbn [length] in Hi.
    replace (i =? h - 1)%nat with true in Em
      by (symmetry; apply Nat.eqb_eq; lia).
    destruct (makeRow_last_count _ _ _ Hwf Em) as (H1 & H0).
    cbn [map list_sum fold_right length]. lia.
  - cbn [length] in Hi.
    replace (i =? h - 1)%nat with false in Em
      by (symmetry; apply Nat.eqb_neq; lia).
    pose proof (makeRow_sets_down _ _ _ Hwf Em) as Hsd.
    specialize (IH (S i) g' ltac:(cbn [length]; lia) Hwf' Hw' Hch
                   ltac:(discriminate)).
    cbn [map list_sum fold_right length] in *. lia.
Qed.

(** The passages of a maze of the generator, counted. *)
Lemma generated_passages (w h : nat) (rand : nat -> Z)
        (sts : list globals) :
  (0 < w)%nat -> Z.of_nat w < 2 ^ 32 -> (0 < h)%nat ->
  statesFrom h h 0 rand (init w false false) = Some sts ->
  (passages sts + 1 = w * h)%nat.
Proof.
  intros Hw Hw32 Hh Es.
  destruct (statesFrom_chained _ _ _ _ _ _ Es) as (Hlen & Hch).
  assert (Hwf : wf (init w false false)) by (apply wf_init; assumption).
  assert (Hnone : forall c, has (rowAt (init w false false) c) DOWN = false).
  { intros c. unfold init, rowAt. cbn [row].
    destruct (Nat.lt_ge_cases c w) as [Hc|Hc].
    - rewrite nth_repeat. reflexivity.
    - rewrite nth_overflow by (rewrite repeat_length; lia). reflexivity. }
  assert (Hfilter : filter (fun c => has (rowAt (init w false false) c) DOWN)
                           (seq 0 w) = []).
  { rewrite (filter_ext _ (fun _ => false)) by exact Hnone.
    induction (seq 0 w) as [|a l IH]; [reflexivity | exact IH]. }
  pose proof (count_rows w h sts 0%nat (init w false false)
                ltac:(lia) Hwf eq_refl Hch) as H.
  unfold setsDown, downLabels, countFlag in H.
  change (width (init w false false)) with w in H.
  rewrite Hfilter in H. cbn [map nodup length] in H.
  rewrite Hlen in H.
  assert (Hne : sts <> []) by (destruct sts; [cbn in Hlen; lia | discriminate]).
  specialize (H Hne). lia.
Qed.

(** X13.  The number of passages.  For every width and height, not
    zero, and every sequence of random numbers, the maze that the rows
    of the loop of [main] form has one passage less than it has cells,
    each passage counted once, at the cell to its left or above it. *)
Theorem generated_maze_passages (w h : nat) (rand : nat -> Z) :
  (0 < w)%nat -> Z.of_nat w < 2 ^ 32 -> (0 < h)%nat ->
  exists sts,
    statesFrom h h 0 rand (init w false false) = Some sts /\
    length sts = h /\
    (passages sts + 1 = w * h)%nat.
Proof.
  intros Hw Hw32 Hh.
  assert (Hwf : wf (init w false false)) by (apply wf_init; assumption).
  destruct (statesFrom_total h h 0%nat rand _ Hwf) as (sts & Es).
  exists sts. split; [exact Es|].
  split; [apply (statesFrom_chained _ _ _ _ _ _ Es)|].
  apply (generated_passages w h rand sts); assumption.
Qed.

End Counting.

(** * The generator: the size of what it prints *)

Section Dimensions.
Import GenMaze.

Lemma outputASCII_lines isLast isFirst g :
  length (outputASCII isLast isFirst g) = (if isLast then 3 else 2)%nat /\
  (twoWide g ->
   Forall (fun l => length l = lineWidth ASCII (width g))
          (outputASCII isLast isFirst g)).
Proof.
  unfold outputASCII, lineWidth.
  split; [destruct isLast; reflexivity|]. intros Htw.
  pose proof (topLine_length isFirst g) as Ht.
  pose proof (middleLine_length g Htw) as Hm.
  pose proof (bottomLine_length g) as Hb.
  unfold BUFFER in *.
  destruct isLast; cbn [negb app]; repeat constructor; lia.
Qed.

Lemma outputBlock_lines isLast g :
  length (outputBlock isLast g) = (if isLast then 3 else 2)%nat /\
  Forall (fun l => length l = lineWidth BLOCK (width g))
         (outputBlock isLast g).
Proof.
  unfold outputBlock, lineWidth.
  assert (H : forall f : nat -> text,
            (forall i, length (f i) = 2%nat) ->
            length (flat_map f (seq 0 (width g)) ++ lit "X")
            = (2 * width g + 1)%nat).
  { intros f Hf. rewrite length_app, (length_chunks f 2) by exact Hf.
    rewrite length_seq. reflexivity. }
  assert (H1 : forall i, length (lit (if has (rowAt g i) UP
                                      then "X " else "XX")) = 2%nat).
  { intros i. destruct (has (rowAt g i) UP); reflexivity. }
  assert (H2 : forall i, length (lit (if has (rowAt g i) LEFT
                                      then "  " else "X ")) = 2%nat).
  { intros i. destruct (has (rowAt g i) LEFT); reflexivity. }
  destruct isLast; cbn [negb app length]; split; try reflexivity;
    repeat constructor; apply H; auto.
Qed.

Lemma rowsFrom_lines type h w :
  forall n i rand g out,
    wf g -> width g = w -> (i + n = h)%nat ->
    rowsFrom type h n i rand g = Some out ->
    length out = (if (0 <? n)%nat then 2 * n + 1 else 0)%nat /\
    (type = BLOCK \/ debugsets g = false ->
     Forall (fun l => length l = lineWidth type w) out).
Proof.
  induction n as [|n IH]; intros i rand g out Hwf Hw Hi;
    cbn [rowsFrom].
  - intros [= <-]. split; [reflexivity | constructor].
  - destruct (makeRow_cells rand (i =? h - 1)%nat g Hwf)
      as (g' & Em & Hwf' & Hw' & Hs' & Hd' & _).
    rewrite Em.
    destruct (rowsFrom type h n (S i) _ g') as [rest|] eqn:Er;
      [|discriminate].
    intros [= <-].
    destruct (IH (S i) _ g' rest Hwf' ltac:(congruence) ltac:(lia) Er)
      as (Hlen & Hall).
    assert (Hrow : length (match type with
                           | ASCII => outputASCII (i =? h - 1)%nat
                                                  (i =? 0)%nat g'
                           | BLOCK => outputBlock (i =? h - 1)%nat g'
                           end)
                   = (if (i =? h - 1)%nat then 3 else 2)%nat /\
                   (type = BLOCK \/ debugsets g = false ->
                    Forall (fun l => length l = lineWidth type w)
                           (match type with
                            | ASCII => outputASCII (i =? h - 1)%nat
                                                   (i =? 0)%nat g'
                            | BLOCK => outputBlock (i =? h - 1)%nat g'
                            end))).
    { rewrite <- Hw, <- Hw'. destruct type.
      - split; [apply outputASCII_lines|]. intros [Hb|Hs]; [discriminate|].
        apply outputASCII_lines.
        apply (twoWide_plain (width g)).
        apply (makeRow_plain rand (i =? h - 1)%nat g g' Hwf Hs Em).
      - split; [apply outputBlock_lines|]. intros _.
        apply outputBlock_lines. }
    destruct Hrow as (Hl & Hf).
    split.
    + rewrite length_app, Hl, Hlen.
      destruct n as [|n].
      * replace (i =? h - 1)%nat with true
          by (symmetry; apply Nat.eqb_eq; lia).
        reflexivity.
      * replace (i =? h - 1)%nat with false
          by (symmetry; apply Nat.eqb_neq; lia).
        cbn [Nat.ltb Nat.leb]. lia.
    + intros Hc. apply Forall_app. split; [apply Hf, Hc|].
      apply Hall. destruct Hc as [Hc|Hc]; [left; exact Hc|].
      right. congruence.
Qed.

(** X14.  The size of the output.  In either style and with any
    options, for every width and height, not zero, and every sequence
    of random numbers, the generator returns [2 * height + 1] lines.
    In block style, and in ruled style when the set numbers are not
    printed ([ds] false, whatever [dr]), every line has the same number
    of characters: [3 * width + 6] in ruled style and [2 * width + 1] in
    block style. *)
Theorem generate_dimensions (type : MAZETYPE) (ds dr : bool) (w h : nat)
        (rand : nat -> Z) :
  (0 < w)%nat -> Z.of_nat w < 2 ^ 32 -> (0 < h)%nat ->
  exists out,
    generate type ds dr w h rand = Some out /\
    length out = (2 * h + 1)%nat /\
    (type = BLOCK \/ ds = false ->
     Forall (fun l => length l = lineWidth type w) out).
Proof.
  intros Hw Hw32 Hh.
  assert (Hwf : wf (init w ds dr)) by (apply wf_init; assumption).
  destruct (rowsFrom_total type h h 0 rand _ Hwf) as (out & E).
  exists out. split; [exact E|].
  destruct (rowsFrom_lines type h w h 0%nat rand _ out Hwf eq_refl
              ltac:(lia) E) as (Hlen & Hall).
  split; [|exact Hall].
  rewrite Hlen. destruct h; [lia | reflexivity].
Qed.

(** With the set numbers printed a line can be longer: a set number of
    three digits takes three columns of the middle line. *)
Example debugsets_widens :
  map (@length ascii)
      (outputASCII true true (Globals [100] [0] [0] 1 true false))
  = [9; 10; 9]%nat.
Proof. vm_compute. reflexivity. Qed.

End Dimensions.

(** * The solver: what stamping a way does to the text *)

Section Stamping.
Import SolMaze.

Lemma at_upd_same {A} (l : list A) (i : Z) (v : A) :
  0 <= i < Z.of_nat (length l) -> at_ (upd (Z.to_nat i) v l) i = Ok v.
Proof.
  intros Hi. apply at_Ok_iff. split; [lia|].
  rewrite nth_error_upd by lia. now rewrite Nat.eqb_refl.
Qed.

Lemma at_upd_other {A} (l : list A) (i k : Z) (v : A) :
  0 <= i < Z.of_nat (length l) -> k <> i ->
  at_ (upd (Z.to_nat i) v l) k = at_ l k.
Proof.
  intros Hi Hk. unfold at_. rewrite upd_length.
  destruct ((0 <=? k) && (k <? Z.of_nat (length l))) eqn:E; [|reflexivity].
  apply andb_prop in E. destruct E as (E1 & E2).
  apply Z.leb_le in E1. apply Z.ltb_lt in E2.
  rewrite nth_error_upd by lia.
  destruct (Nat.eqb_spec (Z.to_nat i) (Z.to_nat k)) as [E|_]; [lia|].
  reflexivity.
Qed.

Lemma interior_dec c k j : {interior c k j} + {~ interior c k j}.
Proof.
  unfold interior.
  destruct (Z.eq_dec k (toInt (snd c) * 2 + 1)) as [Hk|Hk];
    [|right; tauto].
  destruct (Z.eq_dec j (toInt (fst c) * 3 + Z.of_nat BUFFER + 1)) as [H1|H1];
    [left; tauto|].
  destruct (Z.eq_dec j (toInt (fst c) * 3 + Z.of_nat BUFFER + 2)) as [H2|H2];
    [left; tauto | right; tauto].
Qed.

(** One cell: its two interior characters become the path marker, and
    every other character of the text stays. *)
Lemma solutionCell_chars m x y m' :
  solutionCell m x y = Ok m' ->
  rows m' = rows m /\ length (lines m') = length (lines m) /\
  (forall k j, interior (x, y) k j ->
               charAt (lines m') k j = Ok PATHMARKER) /\
  (forall k j ch, charAt (lines m) k j = Ok ch -> ~ interior (x, y) k j ->
                  charAt (lines m') k j = Ok ch).
Proof.
  unfold solutionCell. intros H.
  apply bind_Ok in H. destruct H as (l & Hl & H).
  apply bind_Ok in H. destruct H as (l1 & H1 & H).
  apply bind_Ok in H. destruct H as (l2 & H2 & H).
  apply bind_Ok in H. destruct H as (ls & Hs & H).
  injection H as <-. apply store_Ok in Hs. destruct Hs as (Hi & ->).
  cbn [with_lines rows lines]. rewrite upd_length.
  split; [reflexivity|]. split; [reflexivity|].
  apply putChar_Ok in H1. destruct H1 as (_ & H1 & H1').
  apply putChar_Ok in H2. destruct H2 as (_ & H2 & H2').
  unfold charAt, interior. cbn [fst snd]. split.
  - intros k j (-> & Hj). rewrite at_upd_same by exact Hi. cbn [bind].
    destruct Hj as [-> | ->]; [|exact H2].
    apply H2'; [lia | exact H1].
  - intros k j ch Hc Hno.
    apply bind_Ok in Hc. destruct Hc as (l0 & Hl0 & Hc).
    destruct (Z.eq_dec k (toInt y * 2 + 1)) as [->|Hk].
    + rewrite at_upd_same by exact Hi. cbn [bind].
      assert (l0 = l) by congruence. subst l0.
      apply H2'; [intros ->; tauto|]. apply H1'; [intros ->; tauto|].
      exact Hc.
    + rewrite at_upd_other by assumption. rewrite Hl0. exact Hc.
Qed.

Lemma stamp_chars (p : list (Z * Z)) :
  forall m ms,
    stamp p m = Ok ms ->
    rows ms = rows m /\ length (lines ms) = length (lines m) /\
    (forall c k j, In c p -> interior c k j ->
                   charAt (lines ms) k j = Ok PATHMARKER) /\
    (forall k j ch, charAt (lines m) k j = Ok ch ->
                    (forall c, In c p -> ~ interior c k j) ->
                    charAt (lines ms) k j = Ok ch).
Proof.
  induction p as [|[x y] p IH]; intros m ms; cbn [stamp].
  - intros [= <-]. split; [reflexivity|]. split; [reflexivity|].
    split; [intros c k j []|]. intros k j ch Hc _. exact Hc.
  - intros H. apply bind_Ok in H. destruct H as (m1 & Hp & Hs).
    destruct (IH m m1 Hp) as (Hr1 & Hl1 & Hmark1 & Hkeep1).
    destruct (solutionCell_chars m1 x y ms Hs) as (Hr & Hl & Hmark & Hkeep).
    split; [congruence|]. split; [congruence|]. split.
    + intros c k j Hin Hint.
      destruct (interior_dec (x, y) k j) as [Hxy|Hxy]; [apply Hmark, Hxy|].
      destruct Hin as [<-|Hin]; [contradiction|].
      apply Hkeep; [|exact Hxy]. apply (Hmark1 c); assumption.
    + intros k j ch Hc Hno. apply Hkeep.
      * apply Hkeep1; [exact Hc|]. intros c Hin. apply Hno. right. exact Hin.
      * apply Hno. left. reflexivity.
Qed.

(** X15.  What stamping writes.  When the cells [p] are stamped, the
    grid is as it was and so is the number of lines; the two interior
    characters of every cell of [p] carry the path marker; every
    character of the text that is not an interior character of a cell
    of [p] is as it was; and an interior character is on a line with an
    odd number and not in a column of the separators, so that no line
    of floors and no separator is ever written. *)
Theorem stamp_writes_interiors (p : list (Z * Z)) (m ms : maze) :
  stamp p m = Ok ms ->
  rows ms = rows m /\ length (lines ms) = length (lines m) /\
  (forall c k j, In c p -> interior c k j ->
                 charAt (lines ms) k j = Ok PATHMARKER) /\
  (forall k j ch, charAt (lines m) k j = Ok ch ->
                  (forall c, In c p -> ~ interior c k j) ->
                  charAt (lines ms) k j = Ok ch) /\
  (forall c k j, interior c k j ->
                 k mod 2 = 1 /\ (j - Z.of_nat BUFFER) mod 3 <> 0).
Proof.
  intros H. destruct (stamp_chars p m ms H) as (H1 & H2 & H3 & H4).
  split; [exact H1|]. split; [exact H2|]. split; [exact H3|].
  split; [exact H4|].
  intros c k j (-> & Hj). split.
  - replace (toInt (snd c) * 2 + 1) with (1 + toInt (snd c) * 2) by lia.
    rewrite Z.mod_add by lia. reflexivity.
  - destruct Hj as [-> | ->].
    + replace (toInt (fst c) * 3 + Z.of_nat BUFFER + 1 - Z.of_nat BUFFER)
        with (1 + toInt (fst c) * 3) by lia.
      rewrite Z.mod_add by lia. discriminate.
    + replace (toInt (fst c) * 3 + Z.of_nat BUFFER + 2 - Z.of_nat BUFFER)
        with (2 + toInt (fst c) * 3) by lia.
      rewrite Z.mod_add by lia. discriminate.
Qed.

End Stamping.

(** * The generator: the two styles *)

Section Styles.
Import GenMaze SolMaze.

Lemma block_column (f : nat -> text) (w r k : nat) :
  (forall i, length (f i) = 2%nat) -> (r < w)%nat -> (k < 2)%nat ->
  nth_error (flat_map f (seq 0 w) ++ lit "X") (2 * r + k)
  = nth_error (f r) k.
Proof.
  intros Hf Hr Hk. rewrite nth_error_app1.
  - rewrite (nth_error_chunks f 2 Hf) by assumption. reflexivity.
  - rewrite (length_chunks f 2) by exact Hf. rewrite length_seq. lia.
Qed.

(** X16.  The two styles draw the same passages.  For a row with
    agreeing horizontal flags, as [makeRow] leaves it, the wall line
    and the cell line that [outputBlock] prints are open exactly where
    the first two lines that [outputASCII] prints are open for
    [convertRow]: over the cell where it goes UP, and to its left where
    it goes LEFT. *)
Theorem styles_agree (isLast isFirst : bool) (g : globals) (r : nat) :
  wf g -> hsym g -> debugsets g = false -> debugrows g = false ->
  Z.of_nat (3 * GenMaze.width g + 6) < 2 ^ 32 ->
  (r < GenMaze.width g)%nat ->
  blockOpenUp (nth 0 (outputBlock isLast g) []) r
  = floorOpen (nth 0 (outputASCII isLast isFirst g) []) r /\
  blockOpenUp (nth 0 (outputBlock isLast g) []) r = has (rowAt g r) UP /\
  blockOpenLeft (nth 1 (outputBlock isLast g) []) r
  = sepOpen (nth 1 (outputASCII isLast isFirst g) []) r /\
  blockOpenLeft (nth 1 (outputBlock isLast g) []) r = has (rowAt g r) LEFT.
Proof.
  intros Hwf (Hsym & Hl0 & _) Hs Hd Hw Hr.
  assert (Htw : twoWide g) by (split; [exact Hs | left; exact Hd]).
  unfold outputBlock, outputASCII. cbn [app nth].
  rewrite floorOpen_topLine by assumption.
  rewrite sepOpen_middleLine by assumption.
  assert (Hup : blockOpenUp
                  (flat_map (fun i => lit (if has (rowAt g i) UP
                                           then "X " else "XX"))
                            (seq 0 (GenMaze.width g)) ++ lit "X") r
                = has (rowAt g r) UP).
  { unfold blockOpenUp. rewrite block_column; try lia.
    - destruct (has (rowAt g r) UP); reflexivity.
    - intros i. destruct (has (rowAt g i) UP); reflexivity. }
  assert (Hleft : blockOpenLeft
                    (flat_map (fun i => lit (if has (rowAt g i) LEFT
                                             then "  " else "X "))
                              (seq 0 (GenMaze.width g)) ++ lit "X") r
                  = has (rowAt g r) LEFT).
  { unfold blockOpenLeft. rewrite <- (Nat.add_0_r (2 * r)).
    rewrite block_column; try lia.
    - destruct (has (rowAt g r) LEFT); reflexivity.
    - intros i. destruct (has (rowAt g i) LEFT); reflexivity. }
  rewrite Hup, Hleft.
  split; [reflexivity|]. split; [reflexivity|]. split; [|reflexivity].
  destruct r as [|j]; [exact Hl0 | apply Hsym; exact Hr].
Qed.

End Styles.


(** * The solver: a solved text read again *)

Section Markers.
Import SolMaze.

Lemma convertCell_ext w a b b' c i row row' :
  sepSame w b b' -> (i < w)%nat ->
  convertCell a b c i row = Ok row' -> convertCell a b' c i row = Ok row'.
Proof.
  intros Hs Hi. unfold convertCell. intros H.
  apply bind_Ok in H. destruct H as (up & -> & H). cbn [bind].
  apply bind_Ok in H. destruct H as (r1 & -> & H). cbn [bind].
  apply bind_Ok in H. destruct H as (ch & -> & H). cbn [bind].
  apply bind_Ok in H. destruct H as (r2 & -> & H). cbn [bind].
  apply bind_Ok in H. destruct H as (ch2 & Hb & H).
  rewrite (Hs i ch2 Hi Hb). cbn [bind]. exact H.
Qed.

Lemma convertRow_ext a b b' c w r :
  sepSame (Z.to_nat (wrap w)) b b' ->
  convertRow a b c w = Ok r -> convertRow a b' c w = Ok r.
Proof.
  intros Hs. unfold convertRow, convertUpTo.
  set (n := Z.to_nat (wrap w)) in *.
  assert (G : forall k rk, (k <= n)%nat ->
                forUpToF k (convertCell a b c) (repeat 0 n) = Ok rk ->
                forUpToF k (convertCell a b' c) (repeat 0 n) = Ok rk).
  { induction k as [|k IH]; intros rk Hk; [auto|].
    rewrite !forUpToF_S. intros H.
    apply bind_Ok in H. destruct H as (r0 & H0 & H).
    rewrite (IH r0 ltac:(lia) H0). cbn [bind].
    apply (convertCell_ext n a b b' c k r0 rk Hs); [lia | exact H]. }
  apply G. lia.
Qed.

Lemma parseFrom_ext w ls ls' :
  sameWalls (Z.to_nat (wrap w)) ls ls' ->
  forall a rs, parseFrom a w ls = Ok rs -> parseFrom a w ls' = Ok rs.
Proof.
  intros H. induction H as [|b b'|b b' c rest rest' Hs Hr IH]; intros a rs.
  - auto.
  - auto.
  - cbn [parseFrom]. intros E.
    apply bind_Ok in E. destruct E as (r & Er & E).
    rewrite (convertRow_ext _ _ _ _ _ _ Hs Er). cbn [bind].
    apply bind_Ok in E. destruct E as (rs' & Ers & E).
    rewrite (IH _ _ Ers). exact E.
Qed.

Lemma sepSame_refl w b : sepSame w b b.
Proof.
  intros i ch _ H. exact H.
Qed.

Lemma sepSame_trans w b1 b2 b3 :
  sepSame w b1 b2 -> sepSame w b2 b3 -> sepSame w b1 b3.
Proof.
  intros H1 H2 i ch Hi H. apply (H2 i ch Hi), (H1 i ch Hi), H.
Qed.

Lemma sameWalls_refl w n :
  forall ls, (length ls <= n)%nat -> sameWalls w ls ls.
Proof.
  induction n as [|n IH]; intros ls Hl.
  - destruct ls; [constructor | cbn in Hl; lia].
  - destruct ls as [|b [|c rest]]; try constructor.
    + apply sepSame_refl.
    + apply IH. cbn [length] in Hl. lia.
Qed.

Lemma sameWalls_trans w l1 l2 :
  sameWalls w l1 l2 -> forall l3, sameWalls w l2 l3 -> sameWalls w l1 l3.
Proof.
  intros H. induction H as [|b b'|b b' c rest rest' Hs Hr IH]; intros l3 H3.
  - exact H3.
  - inversion H3; subst. constructor.
  - inversion H3 as [| |? b3 ? ? rest3 Hs3 Hr3]; subst.
    constructor; [eapply sepSame_trans; eassumption | apply IH, Hr3].
Qed.

(** The first line of a pair replaced by one with the same
    separators. *)
Lemma sameWalls_upd w i :
  forall ls b b', nth_error ls (2 * i) = Some b -> sepSame w b b' ->
                  sameWalls w ls (upd (2 * i) b' ls).
Proof.
  induction i as [|i IH]; intros ls b b' Hn Hs.
  - destruct ls as [|b0 [|c rest]]; try discriminate.
    + constructor.
    + injection Hn as ->. cbn [Nat.mul upd]. constructor; [exact Hs|].
      apply (sameWalls_refl w (length rest)). lia.
  - replace (2 * S i)%nat with (S (S (2 * i))) in * by lia.
    destruct ls as [|b0 [|c rest]]; try discriminate.
    cbn [nth_error] in Hn. cbn [upd].
    constructor; [apply sepSame_refl|]. eapply IH; eassumption.
Qed.

Lemma putChar_length s i ch s' :
  putChar s i ch = Ok s' -> i < Z.of_nat (length s) -> length s' = length s.
Proof.
  unfold putChar. destruct (Z.ltb_spec i 0) as [|Hi]; [discriminate|].
  intros [= <-] Hlt. rewrite upd_length, length_app, repeat_length.
  destruct (length s) as [|n]; lia.
Qed.

(** What [solutionCell] does to the lines after the first: one line at
    an even place among them is replaced by a line with the same
    separators, and of the same length when the cell is inside it. *)
Lemma solutionCell_walls w m x y m' l0 ls :
  solutionCell m x y = Ok m' ->
  0 <= toInt x < Z.of_nat w -> Z.of_nat (3 * w + 5) < 2 ^ 32 ->
  lines m = l0 :: ls ->
  exists ls',
    m' = with_lines (l0 :: ls') m /\ sameWalls w ls ls' /\
    forall l1, nth_error ls 0 = Some l1 ->
               (3 * w + 5 <= length l1)%nat ->
               exists l1', nth_error ls' 0 = Some l1' /\
                           length l1' = length l1.
Proof.
  unfold solutionCell. intros H Hx Hw Hlines.
  apply bind_Ok in H. destruct H as (l & Hl & H).
  apply bind_Ok in H. destruct H as (la & Ha & H).
  apply bind_Ok in H. destruct H as (lb & Hb & H).
  apply bind_Ok in H. destruct H as (lsx & Hs & H).
  injection H as <-. apply store_Ok in Hs. destruct Hs as (Hk & ->).
  apply at_Ok in Hl. destruct Hl as (_ & Hl).
  set (i1 := toInt x * 3 + Z.of_nat BUFFER + 1) in *.
  set (i2 := toInt x * 3 + Z.of_nat BUFFER + 2) in *.
  assert (Hy : 0 <= toInt y) by lia.
  assert (Ek : Z.to_nat (toInt y * 2 + 1) = S (2 * Z.to_nat (toInt y))) by lia.
  rewrite Ek in *. rewrite Hlines in *. cbn [nth_error] in Hl. cbn [upd].
  exists (upd (2 * Z.to_nat (toInt y)) lb ls).
  split; [reflexivity|].
  pose proof (putChar_Ok _ _ _ _ Ha) as (_ & _ & Ka).
  pose proof (putChar_Ok _ _ _ _ Hb) as (_ & _ & Kb).
  assert (Hsep : sepSame w l lb).
  { intros i ch Hi Hch.
    assert (Ew : wrap (Z.of_nat i * 3 + Z.of_nat BUFFER)
                 = Z.of_nat i * 3 + Z.of_nat BUFFER)
      by (apply wrap_small; unfold BUFFER; lia).
    rewrite Ew in *. unfold BUFFER in *.
    apply Kb; [unfold i2, BUFFER; lia|].
    apply Ka; [unfold i1, BUFFER; lia|]. exact Hch. }
  split; [eapply sameWalls_upd; eassumption|].
  intros l1 H1 Hlen.
  destruct (Z.to_nat (toInt y)) as [|n] eqn:En.
  - rewrite Nat.mul_0_r in *. destruct ls as [|b rest]; [discriminate|].
    cbn [nth_error upd] in *. assert (b = l) by congruence. subst b.
    injection H1 as <-. exists lb. split; [reflexivity|].
    assert (La : length la = length l).
    { apply (putChar_length _ _ _ _ Ha). unfold i1, BUFFER. lia. }
    rewrite <- La. apply (putChar_length _ _ _ _ Hb).
    rewrite La. unfold i2, BUFFER. lia.
  - replace (2 * S n)%nat with (S (S (2 * n))) by lia.
    destruct ls as [|b rest]; [discriminate|].
    cbn [nth_error upd] in *. exists b. split; [reflexivity|]. congruence.
Qed.

Lemma stamp_walls w p :
  forall m ms l0 ls,
    stamp p m = Ok ms ->
    (forall c, In c p -> 0 <= toInt (fst c) < Z.of_nat w) ->
    Z.of_nat (3 * w + 5) < 2 ^ 32 ->
    lines m = l0 :: ls ->
    exists ls',
      ms = with_lines (l0 :: ls') m /\ sameWalls w ls ls' /\
      forall l1, nth_error ls 0 = Some l1 ->
                 (3 * w + 5 <= length l1)%nat ->
                 exists l1', nth_error ls' 0 = Some l1' /\
                             length l1' = length l1.
Proof.
  induction p as [|[x y] p IH]; intros m ms l0 ls; cbn [stamp].
  - intros [= <-] _ _ Hl. exists ls.
    split; [destruct m; cbn in Hl; subst; reflexivity|].
    split; [apply (sameWalls_refl w (length ls)); lia|].
    intros l1 H1 _. eauto.
  - intros H Hp Hw Hl. apply bind_Ok in H. destruct H as (m1 & H1 & H2).
    destruct (IH m m1 l0 ls H1 (fun c Hc => Hp c (or_intror Hc)) Hw Hl)
      as (ls1 & -> & Hs1 & Hlen1).
    destruct (solutionCell_walls w _ x y ms l0 ls1 H2
                (Hp (x, y) (or_introl eq_refl)) Hw eq_refl)
      as (ls2 & -> & Hs2 & Hlen2).
    exists ls2. split; [reflexivity|].
    split; [eapply sameWalls_trans; eassumption|].
    intros l1 Hn Hlong. destruct (Hlen1 l1 Hn Hlong) as (l1' & Hn' & E').
    destruct (Hlen2 l1' Hn' ltac:(lia)) as (l1'' & Hn'' & E'').
    exists l1''. split; [exact Hn'' | congruence].
Qed.

Lemma sameWalls_length w ls ls' :
  sameWalls w ls ls' -> length ls' = length ls.
Proof.
  intros H. induction H; cbn [length]; congruence.
Qed.

Lemma parseFrom_widths w :
  forall ls a rs,
    parseFrom a w ls = Ok rs ->
    Forall (fun r => length r = Z.to_nat (wrap w)) rs.
Proof.
  assert (G : forall n ls a rs, (length ls <= n)%nat ->
                parseFrom a w ls = Ok rs ->
                Forall (fun r => length r = Z.to_nat (wrap w)) rs).
  { induction n as [|n IH]; intros ls a rs Hl.
    - destruct ls; [|cbn in Hl; lia]. intros [= <-]. constructor.
    - destruct ls as [|b [|c rest]]; try (intros [= <-]; constructor).
      cbn [parseFrom]. intros E.
      apply bind_Ok in E. destruct E as (r & Er & E).
      apply bind_Ok in E. destruct E as (rs' & Ers & E).
      injection E as <-. constructor.
      + apply convertRow_Ok in Er. apply Er.
      + apply (IH rest (Some r)); [cbn [length] in Hl; lia | exact Ers]. }
  intros ls a rs. apply (G (length ls)). lia.
Qed.

Lemma Ok_inj {A} (a b : A) : Ok a = Ok b -> a = b.
Proof.
  intros H. injection H as ->. reflexivity.
Qed.

(** A text that [read] takes as a maze with a cell in its grid: it has
    two lines or more, its rows are those of its line pairs, and its
    second line is as long as the width needs. *)
Lemma read_grid (input : list text) m x y :
  Z.of_nat (length input) < 2 ^ 31 ->
  Z.of_nat (length (nth 1 input [])) < 2 ^ 32 ->
  read input emptyMaze = Ok m -> inGrid (toSearch m) x y ->
  exists l0 l1 tl rs,
    input = l0 :: l1 :: tl /\
    parseFrom None (widthOf l1) (l1 :: tl) = Ok rs /\
    m = Maze input (widthOf l1)
             (wrap (Z.of_nat (length input) / 2 - 1))
             (map Some rs ++ (if Nat.even (length input) then [None] else []))
             0 0 /\
    0 <= x < widthOf l1 /\
    widthOf l1 * 3 + 5 <= Z.of_nat (length l1).
Proof.
  intros Hn Hlen Hr (v & Hv).
  assert (Hnone : forall m0, rows m0 = [] -> cellAt m0 x y = Ok v -> False).
  { intros m0 E H. unfold cellAt in H. rewrite E in H.
    apply bind_Ok in H. destruct H as (row & Hrow & _).
    apply at_Ok in Hrow. cbn [length] in Hrow. lia. }
  destruct input as [|l0 [|l1 tl]].
  - exfalso. change (read [] emptyMaze)
      with (Ok (Maze [] 0 (wrap (0 / 2 - 1)) [] 0 0)) in Hr.
    injection Hr as <-. revert Hv. apply Hnone. reflexivity.
  - exfalso. change (read [l0] emptyMaze)
      with (Ok (Maze [l0] 0 (wrap (1 / 2 - 1)) [] 0 0)) in Hr.
    injection Hr as <-. revert Hv. apply Hnone. reflexivity.
  - cbn [nth] in Hlen.
    rewrite (read_pairs l0 l1 tl Hn) in Hr.
    destruct (parseFrom None (widthOf l1) (l1 :: tl)) as [rs| |] eqn:Ep;
      cbn [bind] in Hr; try discriminate.
    apply Ok_inj in Hr. subst m.
    exists l0, l1, tl, rs. split; [reflexivity|]. split; [exact Ep|].
    split; [reflexivity|].
    unfold cellAt, toSearch, with_dest in Hv. cbn [rows] in Hv.
    apply bind_Ok in Hv. destruct Hv as (row & Hrow & Hv).
    destruct row as [cells|]; [|discriminate].
    apply at_Ok in Hrow. destruct Hrow as (_ & Hrow).
    apply nth_error_In, in_app_or in Hrow.
    assert (Hin : In cells rs).
    { destruct Hrow as [Hrow|Hrow].
      - apply in_map_iff in Hrow. destruct Hrow as (r & [= ->] & Hr). exact Hr.
      - destruct (Nat.even _); [destruct Hrow as [|[]]|destruct Hrow];
          discriminate. }
    pose proof (parseFrom_widths _ _ _ _ Ep) as Hw.
    rewrite Forall_forall in Hw. specialize (Hw _ Hin).
    apply at_Ok in Hv. destruct Hv as (Hx & _). rewrite Hw in Hx.
    assert (Eww : wrap (widthOf l1) = widthOf l1).
    { unfold widthOf. apply wrap_small, wrap_range. }
    rewrite Eww in Hx.
    destruct (le_lt_dec 5 (length l1)) as [H5|H5].
    + assert (Ew : widthOf l1 = (Z.of_nat (length l1) - 5) / 3).
      { unfold widthOf. rewrite Z.quot_div_nonneg by (unfold BUFFER; lia).
        apply wrap_small. unfold BUFFER.
        split; [apply Z.div_pos; lia|].
        apply Z.div_lt_upper_bound; lia. }
      split; [lia|]. rewrite Ew.
      pose proof (Z.mul_div_le (Z.of_nat (length l1) - 5) 3 ltac:(lia)).
      lia.
    + exfalso. destruct (le_lt_dec 3 (length l1)) as [H3|H3].
      * assert (Ew : widthOf l1 = 0).
        { unfold widthOf.
          destruct (length l1) as [|[|[|[|[|n]]]]]; try lia; reflexivity. }
        lia.
      * destruct tl as [|c tl'].
        { cbn [parseFrom] in Ep. injection Ep as <-. destruct Hin. }
        cbn [parseFrom] in Ep.
        rewrite convertRow_short_line in Ep; [discriminate | exact H3|].
        rewrite Eww. lia.
Qed.

(** [read] on a text with cells of its grid stamped. *)
Lemma read_stamped (input : list text) (m : maze)
        (p : list (Z * Z)) (ms : maze) :
  Z.of_nat (length input) < 2 ^ 31 ->
  Z.of_nat (length (nth 1 input [])) < 2 ^ 32 ->
  read input emptyMaze = Ok m ->
  (forall c, In c p -> inGrid (toSearch m) (fst c) (snd c)) ->
  stamp p (toSearch m) = Ok ms ->
  read (lines ms) emptyMaze = Ok (with_lines (lines ms) m).
Proof.
  intros Hn Hlen Hr Hp Hs.
  destruct p as [|c0 p0].
  { injection Hs as <-. cbn [toSearch with_dest lines].
    rewrite (read_lines _ _ Hr).
    replace (with_lines input m) with m; [exact Hr|].
    apply read_lines in Hr. destruct m. cbn in Hr. subst. reflexivity. }
  destruct (read_grid input m (fst c0) (snd c0) Hn Hlen Hr
              (Hp c0 (or_introl eq_refl)))
    as (l0 & l1 & tl & rs & -> & Ep & -> & Hx0 & Hlong).
  cbn [nth] in Hlen.
  set (w := widthOf l1) in *.
  assert (Hcells : forall c, In c (c0 :: p0) ->
                     0 <= toInt (fst c) < Z.of_nat (Z.to_nat w)).
  { intros c Hc.
    destruct (read_grid _ _ (fst c) (snd c) Hn Hlen Hr (Hp c Hc))
      as (l0' & l1' & tl' & rs' & [= <- <- <-] & _ & _ & Hx & _).
    fold w in Hx. rewrite toInt_small by lia. lia. }
  destruct (stamp_walls (Z.to_nat w) (c0 :: p0) _ ms l0 (l1 :: tl) Hs Hcells
              ltac:(lia) eq_refl)
    as (ls' & -> & Hsame & Hfirst).
  destruct (Hfirst l1 eq_refl ltac:(lia)) as (l1' & Hn1 & Hl1).
  destruct ls' as [|b tl'']; [discriminate|]. injection Hn1 as ->.
  pose proof (sameWalls_length _ _ _ Hsame) as Hlen'.
  cbn [lines with_lines toSearch with_dest].
  assert (Hn' : length (l0 :: l1' :: tl'') = length (l0 :: l1 :: tl)).
  { cbn [length] in *. lia. }
  rewrite read_pairs by (rewrite Hn'; exact Hn).
  assert (Ew : widthOf l1' = w).
  { unfold w, widthOf. rewrite Hl1. reflexivity. }
  rewrite Ew, Hn'.
  assert (Eww : wrap w = w) by (unfold w, widthOf; apply wrap_small, wrap_range).
  rewrite <- Eww in Hsame at 1.
  rewrite (parseFrom_ext w _ _ Hsame None rs Ep).
  reflexivity.
Qed.

(** X18.  The path markers do not change what is read.  When [read]
    takes a text as a maze and cells of its grid are stamped, [read] on
    the stamped text returns the same maze, with the stamped lines: the
    same width, height and rows. *)
Theorem read_ignores_markers (input : list text) (m : maze)
        (p : list (Z * Z)) (ms : maze) :
  Z.of_nat (length input) < 2 ^ 31 ->
  Z.of_nat (length (nth 1 input [])) < 2 ^ 32 ->
  read input emptyMaze = Ok m ->
  (forall c, In c p -> inGrid (toSearch m) (fst c) (snd c)) ->
  stamp p (toSearch m) = Ok ms ->
  read (lines ms) emptyMaze = Ok (with_lines (lines ms) m).
Proof.
  intros Hn Hlen Hr Hp Hs.
  apply (read_stamped input m p ms); assumption.
Qed.

End Markers.

(** * The solver on its own output *)

Section Again.
Import SolMaze.

Lemma sameGrid_refl m : sameGrid m m.
Proof.
  unfold sameGrid. tauto.
Qed.


















End Again.

(** * The further statements at concrete inputs *)

Section FurtherInstances.
Import GenMaze SolMaze.

Lemma wf_threeColumns : wf threeColumns.
Proof.
  unfold wf, threeColumns. cbn. repeat split; lia.
Qed.

Lemma wf_joinedPair : wf joinedPair.
Proof.
  unfold wf, joinedPair. cbn. repeat split; lia.
Qed.

Lemma hsym_joinedPair : hsym joinedPair.
Proof.
  unfold hsym, joinedPair. cbn [GenMaze.width]. split; [|split].
  - intros i Hi. assert (i = 0%nat) by lia. subst i. reflexivity.
  - reflexivity.
  - reflexivity.
Qed.

Lemma unsearched_twoCellsApart : unsearched twoCellsApartMaze.
Proof.
  intros [r c] v. unfold cellN, twoCellsApartMaze. cbn [fst snd rows].
  destruct r as [|r]; [|destruct r; discriminate].
  cbn [nth_error].
  destruct c as [|[|c]]; cbn [nth_error]; try (intros [= <-]; reflexivity).
  destruct c; discriminate.
Qed.

Lemma wf_middleDown : wf middleDown.
Proof.
  unfold wf, middleDown. cbn. repeat split; lia.
Qed.

Lemma wf_outerDown : wf outerDown.
Proof.
  unfold wf, outerDown. cbn. repeat split; lia.
Qed.

(** C4 on the third column of [middleDown].  The first column has taken
    4, the first number after the sets 1, 2, 3; the middle column,
    which was going DOWN, has kept 2; the third column is reached with
    the counter at 4, which the first column carries, and is given 5,
    although 1 and 3 are carried by no column any more when the loop is
    over. *)
Lemma makeRow_fresh_label_witness :
  exists g1 n1 gr nr,
    reset middleDown = Some (g1, n1) /\ set g1 = [4; 2; 5] /\
    resetUpTo 2 middleDown = Some (gr, nr) /\ set gr = [4; 2; 3] /\
    nr = 4 /\ setAt g1 2 = 5 /\ ~ live gr 5 /\
    (forall v, 4 <= v < 5 -> live gr v) /\
    makeRow joinFirstTwo false middleDown
    = Some (forceDown (carve joinFirstTwo false g1)).
Proof.
  destruct (makeRow_fresh_label joinFirstTwo false middleDown 2 wf_middleDown)
    as (g1 & n1 & gr & nr & g' & n' & E1 & _ & Em & Er & _ & _ & ES & _ & _
        & Hfresh); [cbn; lia|].
  destruct (Hfresh eq_refl) as (_ & _ & H1 & Hnl & _ & Hlow).
  pose proof E1 as C1. vm_compute in C1. injection C1 as Cg1 Cn1.
  pose proof Er as Cr. vm_compute in Cr. injection Cr as Cgr Cnr.
  pose proof ES as CS. vm_compute in CS. injection CS as _ Cn'.
  rewrite <- Cn' in H1, Hnl, Hlow. rewrite <- Cnr in Hlow.
  exists g1, n1, gr, nr.
  split; [exact E1|]. split; [rewrite <- Cg1; reflexivity|].
  split; [exact Er|]. split; [rewrite <- Cgr; reflexivity|].
  split; [symmetry; exact Cnr|]. split; [exact H1|]. split; [exact Hnl|].
  split; [apply Hlow; lia | exact Em].
Defined.

(** C5 on the first row of a maze three cells wide in which the carving
    joins the first two columns and sends no cell down: of the set of
    the first two columns the first is forced down and the second is
    not, and the third column, alone in its set, is forced down. *)
Lemma makeRow_every_set_goes_down_witness :
  exists g2 g',
    carved joinFirstTwo false (init 3 false false) = Some g2 /\
    makeRow joinFirstTwo false (init 3 false false) = Some g' /\
    set g2 = [2; 2; 3] /\ row g2 = [RIGHT; LEFT; EMPTY] /\
    noDown g2 0 /\ noDown g2 2 /\
    row g' = [Z.lor RIGHT DOWN; LEFT; DOWN] /\
    (has (rowAt g' 0) DOWN = true <-> firstOfSet g2 0) /\
    (has (rowAt g' 1) DOWN = true <-> firstOfSet g2 1) /\
    (has (rowAt g' 2) DOWN = true <-> firstOfSet g2 2) /\
    (forall c, (c < 3)%nat ->
       exists j, (j < 3)%nat /\ setAt g' j = setAt g' c /\
                 has (rowAt g' j) DOWN = true).
Proof.
  destruct (makeRow_every_set_goes_down joinFirstTwo (init 3 false false))
    as (g2 & g' & E2 & E' & _ & _ & Hall & Hforce);
    [apply wf_init; simpl; lia|].
  pose proof E2 as C2. vm_compute in C2. injection C2 as C2.
  pose proof E' as C'. vm_compute in C'. injection C' as C'.
  assert (Hnd : forall c, noDown g2 c).
  { intros c i Hi _. rewrite <- C2 in *. change (i < 3)%nat in Hi.
    destruct i as [|[|[|i]]]; try reflexivity. lia. }
  change (GenMaze.width (init 3 false false)) with 3%nat in *.
  exists g2, g'. split; [exact E2|]. split; [exact E'|].
  split; [rewrite <- C2; reflexivity|].
  split; [rewrite <- C2; reflexivity|].
  split; [apply Hnd|]. split; [apply Hnd|].
  split; [rewrite <- C'; reflexivity|].
  split; [apply (Hforce 0%nat 0%nat); [lia | lia | apply Hnd | reflexivity]|].
  split.
  { apply (Hforce 0%nat 1%nat); [lia | lia | apply Hnd |].
    rewrite <- C2. reflexivity. }
  split; [apply (Hforce 2%nat 2%nat); [lia | lia | apply Hnd | reflexivity]|].
  exact Hall.
Defined.

(** C10 on the same row, which has a passage between its first two
    columns and a wall before the third, and on the last row made from
    [outerDown], which has passages all along. *)
Lemma makeRow_horizontal_symmetry_witness :
  (exists g',
     makeRow joinFirstTwo false (init 3 false false) = Some g' /\
     row g' = [Z.lor RIGHT DOWN; LEFT; DOWN] /\
     (has (rowAt g' 1) LEFT = true <-> has (rowAt g' 0) RIGHT = true) /\
     has (rowAt g' 1) LEFT = true /\
     (has (rowAt g' 2) LEFT = true <-> has (rowAt g' 1) RIGHT = true) /\
     has (rowAt g' 2) LEFT = false /\
     has (rowAt g' 0) LEFT = false /\ has (rowAt g' 2) RIGHT = false) /\
  (exists g',
     makeRow joinFirstTwo true outerDown = Some g' /\
     row g' = [Z.lor UP RIGHT; Z.lor LEFT RIGHT; Z.lor UP LEFT] /\
     (has (rowAt g' 1) LEFT = true <-> has (rowAt g' 0) RIGHT = true) /\
     (has (rowAt g' 2) LEFT = true <-> has (rowAt g' 1) RIGHT = true) /\
     has (rowAt g' 0) LEFT = false /\ has (rowAt g' 2) RIGHT = false).
Proof.
  split.
  - destruct (makeRow_horizontal_symmetry joinFirstTwo false
                                          (init 3 false false))
      as (g' & E' & _ & Hiff & H0 & Hlast); [apply wf_init; simpl; lia|].
    pose proof E' as C'. vm_compute in C'. injection C' as C'.
    exists g'. split; [exact E'|]. split; [rewrite <- C'; reflexivity|].
    split; [apply (Hiff 1%nat); simpl; lia|].
    split; [rewrite <- C'; reflexivity|].
    split; [apply (Hiff 2%nat); simpl; lia|].
    split; [rewrite <- C'; reflexivity|].
    split; [exact H0 | exact Hlast].
  - destruct (makeRow_horizontal_symmetry joinFirstTwo true outerDown
                                          wf_outerDown)
      as (g' & E' & _ & Hiff & H0 & Hlast).
    pose proof E' as C'. vm_compute in C'. injection C' as C'.
    exists g'. split; [exact E'|]. split; [rewrite <- C'; reflexivity|].
    split; [apply (Hiff 1%nat); simpl; lia|].
    split; [apply (Hiff 2%nat); simpl; lia|].
    split; [exact H0 | exact Hlast].
Defined.

(** The cells of [braidMaze], its closedness: no passage leaves the
    grid, and each cell has its line of text. *)
Lemma inGrid_braid x y :
  inGrid braidMaze x y <-> 0 <= x < 3 /\ 0 <= toInt y < 2.
Proof.
  unfold inGrid. split.
  - intros (v & Hc). apply cellAt_cellN in Hc.
    destruct Hc as (Hx & Hy & Hn). unfold pos, cellN in Hn.
    cbn [fst snd] in Hn.
    destruct (Z.to_nat (toInt y)) as [|[|r]] eqn:Er;
      [| |destruct r; discriminate Hn];
      cbn [rows braidMaze nth_error] in Hn;
      (destruct (Z.to_nat x) as [|[|[|c]]] eqn:Ec;
       [| | |destruct c; discriminate Hn]); lia.
  - intros (Hx & Hy).
    assert (Cx : x = 0 \/ x = 1 \/ x = 2) by lia.
    assert (Cy : toInt y = 0 \/ toInt y = 1) by lia.
    unfold cellAt.
    destruct Cy as [-> | ->]; destruct Cx as [->|[->| ->]];
      eexists; vm_compute; reflexivity.
Qed.

Lemma closed_braid : closed braidMaze.
Proof.
  intros x y v Hc.
  assert (Hin : inGrid braidMaze x y) by (exists v; exact Hc).
  apply inGrid_braid in Hin. destruct Hin as (Hx & Hy).
  assert (Cx : x = 0 \/ x = 1 \/ x = 2) by lia.
  assert (Cy : toInt y = 0 \/ toInt y = 1) by lia.
  unfold cellAt in Hc.
  destruct Cy as [Ey|Ey]; destruct Cx as [->|[->| ->]];
    rewrite Ey in Hc; vm_compute in Hc; injection Hc as <-;
    (split; [vm_compute; discriminate|]);
    (split; [rewrite Ey; vm_compute; split; [discriminate | reflexivity]|]);
    repeat split; intros Hf; try (vm_compute in Hf; discriminate Hf);
    apply inGrid_braid;
    rewrite ?toInt_pred, ?toInt_succ by lia;
    rewrite ?wrap_small by lia; lia.
Qed.

(** C7 on [braidMaze], whose search goes round a cycle, and on
    [braidSolved], whose cells are all CHECKED.  With fuel for seven
    levels the search of the six cells returns; it has entered each
    cell once, the cell of the call first, and each of them has become
    CHECKED; the call that finds its cell CHECKED returns false at once
    and changes nothing. *)
Lemma solveMaze_terminates_witness :
  (exists m, read braid emptyMaze = Ok m /\ toSearch m = braidMaze) /\
  unchecked braidMaze = 6%nat /\ closed braidMaze /\
  inGrid braidMaze 0 1 /\
  solveMaze 7 braidMaze 0 1 EMPTY = Ok (true, braidSolved, braidWay) /\
  NoDup (map pos braidWay) /\
  (length braidWay <= unchecked braidMaze)%nat /\
  (forall p, In p (map pos braidWay) ->
     exists v, cellN braidMaze p = Some v /\ has v CHECKED = false /\
               cellN braidSolved p = Some (Z.lor v CHECKED)) /\
  In (0, 1) braidWay /\
  solveMaze 7 braidSolved 0 1 EMPTY = Ok (false, braidSolved, []).
Proof.
  pose proof closed_braid as Hcl.
  assert (Hin : inGrid braidMaze 0 1) by (apply inGrid_braid; vm_compute;
                                          repeat split; discriminate).
  destruct (solveMaze_terminates 7 braidMaze 0 1 EMPTY)
    as (_ & _ & Hres & Hret); [vm_compute; lia|].
  destruct (Hret Hcl Hin) as (b & m' & e & E).
  destruct (Hres b m' e E) as (Hnd & Hlen & Hch & Hstart & _).
  destruct (solveMaze_terminates 7 braidSolved 0 1 EMPTY)
    as (_ & Hchecked & _); [vm_compute; lia|].
  pose proof E as C. vm_compute in C. injection C as Cb Cm Ce.
  assert (Ee : e = braidWay) by (rewrite <- Ce; reflexivity).
  assert (Em : m' = braidSolved) by (rewrite <- Cm; reflexivity).
  rewrite Ee, Em in *. rewrite <- Cb in E.
  split; [exists (with_dest 0 0 braidMaze); split; vm_compute; reflexivity|].
  split; [reflexivity|]. split; [exact Hcl|]. split; [exact Hin|].
  split; [exact E|]. split; [exact Hnd|]. split; [exact Hlen|].
  split; [exact Hch|].
  split; [apply (Hstart (Z.lor UP RIGHT)); reflexivity|].
  apply (Hchecked (Z.lor (Z.lor UP RIGHT) CHECKED)); reflexivity.
Defined.

(** C8 on [braidMaze] and on [twoCellsJoinedMaze].  At the start of
    [braidMaze] the permitted directions are UP and RIGHT; the call
    upwards comes back with a success, after the cells of [braidWay],
    and the start is marked in the maze as that call leaves it.  At
    the right cell of [twoCellsJoinedEntered], the destination, the
    cell is marked and true is returned at once. *)
Lemma solveMaze_order_witness :
  permitted EMPTY (Z.lor UP RIGHT) = [UP; RIGHT] /\
  (exists m1 m2 e,
     setCell braidMaze 0 1 (Z.lor (Z.lor UP RIGHT) CHECKED) = Ok m1 /\
     firstSuccess
       (fun d m => solveMaze 6 m (fst (neighbour 0 1 d))
                             (snd (neighbour 0 1 d)) d)
       [UP; RIGHT] m1
     = Ok (true, m2, e) /\
     (0, 1) :: e = braidWay /\ ~ marked m2 0 1 /\
     solutionCell m2 0 1 = Ok braidSolved /\ marked braidSolved 0 1 /\
     solveMaze 7 braidMaze 0 1 EMPTY = Ok (true, braidSolved, (0, 1) :: e)) /\
  (exists m1 m2,
     setCell twoCellsJoinedEntered 1 0 (Z.lor LEFT CHECKED) = Ok m1 /\
     solutionCell m1 1 0 = Ok m2 /\ marked m2 1 0 /\
     lines m2 = [lit "      ______"; lit "     |   XX|"; lit "     |_____|"] /\
     solveMaze 1 twoCellsJoinedEntered 1 0 RIGHT = Ok (true, m2, [(1, 0)])).
Proof.
  split; [reflexivity|]. split.
  - destruct (solveMaze_order 6 braidMaze 0 1 EMPTY) as (_ & _ & H).
    destruct (H (Z.lor UP RIGHT)) as (m1 & Es & _ & Hrec);
      [reflexivity | reflexivity | vm_compute; discriminate
       | vm_compute; split; [discriminate | reflexivity] |].
    specialize (Hrec eq_refl).
    change (permitted EMPTY (Z.lor UP RIGHT)) with [UP; RIGHT] in Hrec.
    pose proof Es as Cs. vm_compute in Cs. injection Cs as Cs.
    destruct (firstSuccess
                (fun d m => solveMaze 6 m (fst (neighbour 0 1 d))
                                      (snd (neighbour 0 1 d)) d)
                [UP; RIGHT] m1) as [[[ok m2] e]| |] eqn:Ef;
      [| exfalso; rewrite <- Cs in Ef; vm_compute in Ef; discriminate Ef
       | exfalso; rewrite <- Cs in Ef; vm_compute in Ef; discriminate Ef].
    pose proof Ef as Cf. rewrite <- Cs in Cf. vm_compute in Cf.
    injection Cf as Cok Cm2 Ce.
    specialize (Hrec ok m2 e eq_refl). rewrite <- Cok in Hrec.
    destruct Hrec as (m3 & E3 & Hm3 & Emain).
    pose proof E3 as C3. rewrite <- Cm2 in C3. vm_compute in C3.
    injection C3 as C3.
    assert (E3' : m3 = braidSolved) by (rewrite <- C3; reflexivity).
    rewrite E3' in *. rewrite <- Cok in Ef.
    exists m1, m2, e. split; [exact Es|]. split; [exact Ef|].
    split; [rewrite <- Ce; reflexivity|]. split.
    { rewrite <- Cm2. intros (l & Hl & H1 & _).
      vm_compute in Hl. injection Hl as <-. vm_compute in H1.
      discriminate H1. }
    split; [exact E3|]. split; [exact Hm3 | exact Emain].
  - destruct (solveMaze_order 0 twoCellsJoinedEntered 1 0 RIGHT)
      as (_ & _ & H).
    destruct (H LEFT) as (m1 & Es & Hdest & _);
      [reflexivity | reflexivity | vm_compute; discriminate
       | vm_compute; split; [discriminate | reflexivity] |].
    destruct (Hdest eq_refl eq_refl) as (m2 & E2 & Hm2 & Emain).
    pose proof Es as Cs. vm_compute in Cs. injection Cs as Cs.
    pose proof E2 as C2. rewrite <- Cs in C2. vm_compute in C2.
    injection C2 as C2.
    exists m1, m2. split; [exact Es|]. split; [exact E2|].
    split; [exact Hm2|]. split; [rewrite <- C2; reflexivity | exact Emain].
Defined.

(** X1 on the last row made from [outerDown], whose outer cells were
    going DOWN. *)
Lemma makeRow_vertical_witness :
  exists g',
    makeRow joinFirstTwo true outerDown = Some g' /\
    forall i, (i < GenMaze.width outerDown)%nat ->
      prevAt g' i = rowAt outerDown i /\
      has (rowAt g' i) UP = has (rowAt outerDown i) DOWN /\
      0 <= rowAt g' i < 16 /\
      (true = true -> has (rowAt g' i) DOWN = false).
Proof.
  apply (makeRow_vertical joinFirstTwo true outerDown).
  exact wf_outerDown.
Defined.

(** X2 on the last row of a maze three cells wide. *)
Lemma makeRow_passage_in_one_set_witness :
  exists g',
    makeRow countingRand true (init 3 false false) = Some g' /\
    forall i, (S i < GenMaze.width (init 3 false false))%nat ->
      has (rowAt g' i) RIGHT = true -> setAt g' i = setAt g' (S i).
Proof.
  apply (makeRow_passage_in_one_set countingRand true (init 3 false false)).
  apply wf_init; simpl; lia.
Defined.

(** X3 on three columns of which two are in one set. *)
Lemma reset_never_joins_witness :
  exists g1 n,
    reset threeColumns = Some (g1, n) /\
    forall i j, (i < GenMaze.width threeColumns)%nat ->
                (j < GenMaze.width threeColumns)%nat -> i <> j ->
      setAt g1 i = setAt g1 j ->
      has (rowAt threeColumns i) DOWN = true /\
      has (rowAt threeColumns j) DOWN = true /\
      setAt threeColumns i = setAt threeColumns j.
Proof.
  apply (reset_never_joins threeColumns). exact wf_threeColumns.
Defined.

(** X4: set 2 merged into set 1. *)
Lemma unionSet_merges_witness :
  row (unionSet 1 2 threeColumns) = row threeColumns /\
  previousRow (unionSet 1 2 threeColumns) = previousRow threeColumns /\
  (forall j, (j < GenMaze.width threeColumns)%nat ->
     setAt (unionSet 1 2 threeColumns) j
     = if setAt threeColumns j =? 2 then 1 else setAt threeColumns j) /\
  (1 <> 2 -> forall j, (j < GenMaze.width threeColumns)%nat ->
                       setAt (unionSet 1 2 threeColumns) j <> 2).
Proof.
  apply (unionSet_merges 1 2 threeColumns). reflexivity.
Defined.

(** X5 on the three lines of [oneCell]. *)
Lemma read_as_pairs_witness :
  read [lit "      ___"; lit "     |  |"; lit "     |__|"] emptyMaze
  = (rs <- parseFrom None (widthOf (lit "     |  |"))
                     [lit "     |  |"; lit "     |__|"] ;;
     Ok (Maze [lit "      ___"; lit "     |  |"; lit "     |__|"]
              (widthOf (lit "     |  |"))
              (wrap (Z.of_nat (length [lit "      ___"; lit "     |  |";
                                       lit "     |__|"]) / 2 - 1))
              (map Some rs ++
               (if Nat.even (length [lit "      ___"; lit "     |  |";
                                     lit "     |__|"])
                then [None] else []))
              0 0)).
Proof.
  apply (read_as_pairs (lit "      ___") (lit "     |  |") [lit "     |__|"]).
  vm_compute. reflexivity.
Defined.


(** X7 on two cells with a passage between them. *)
Lemma solveMaze_marks_a_way_witness :
  exists rest ms,
    linked twoCellsJoinedMaze (0, 0) rest
           (destX twoCellsJoinedMaze, destY twoCellsJoinedMaze) /\
    stamp ((0, 0) :: rest) twoCellsJoinedMaze = Ok ms /\
    lines twoCellsJoinedSolved = lines ms /\
    incl ((0, 0) :: rest) [(0, 0); (1, 0)] /\ NoDup ((0, 0) :: rest).
Proof.
  apply (solveMaze_marks_a_way 3 twoCellsJoinedMaze 0 0 EMPTY true
                               twoCellsJoinedSolved [(0, 0); (1, 0)]).
  vm_compute. reflexivity.
Defined.

(** X8 on two cells with a wall between them. *)
Lemma solveMaze_misses_no_way_witness :
  ~ reach twoCellsApartMaze (0, 0)
          (destX twoCellsApartMaze, destY twoCellsApartMaze).
Proof.
  apply (solveMaze_misses_no_way 3 twoCellsApartMaze 0 0
                                 twoCellsApartSearched [(0, 0)]).
  - exact unsearched_twoCellsApart.
  - unfold uint. lia.
  - unfold uint. lia.
  - vm_compute. reflexivity.
Defined.



(** X10 on [oneCell]. *)
Lemma main_needs_odd_lines_witness :
  Nat.odd (length oneCell) = true /\ (3 <= length oneCell)%nat.
Proof.
  apply (main_needs_odd_lines oneCell oneCellRun); vm_compute; reflexivity.
Defined.

(** X11 on a maze of two by two cells. *)
Lemma generated_maze_connected_witness :
  exists sts,
    statesFrom 2 2 0 countingRand (init 2 false false) = Some sts /\
    length sts = 2%nat /\
    forall r c r' c', (r < 2)%nat -> (c < 2)%nat ->
                      (r' < 2)%nat -> (c' < 2)%nat ->
                      mazeConn sts (r, c) (r', c').
Proof.
  apply (generated_maze_connected 2 2 countingRand);
    [lia | vm_compute; reflexivity | lia].
Defined.


(** X13 on a maze of two by two cells. *)
Lemma generated_maze_passages_witness :
  exists sts,
    statesFrom 2 2 0 countingRand (init 2 false false) = Some sts /\
    length sts = 2%nat /\
    (passages sts + 1 = 2 * 2)%nat.
Proof.
  apply (generated_maze_passages 2 2 countingRand);
    [lia | vm_compute; reflexivity | lia].
Defined.

(** X14 on a maze of two by two cells in ruled style, the cells printed
    as numbers. *)
Lemma generate_dimensions_witness :
  exists out,
    generate ASCII false true 2 2 countingRand = Some out /\
    length out = (2 * 2 + 1)%nat /\
    Forall (fun l => length l = lineWidth ASCII 2) out.
Proof.
  destruct (generate_dimensions ASCII false true 2 2 countingRand)
    as (out & E & L & F); [lia | vm_compute; reflexivity | lia |].
  exists out. split; [exact E|]. split; [exact L|].
  apply F. right. reflexivity.
Defined.

(** X15 on the cell of [oneCellMaze]. *)
Lemma stamp_writes_interiors_witness :
  rows oneCellStamped = rows oneCellMaze /\
  length (lines oneCellStamped) = length (lines oneCellMaze) /\
  (forall c k j, In c [(0, 0)] -> interior c k j ->
                 charAt (lines oneCellStamped) k j = Ok PATHMARKER) /\
  (forall k j ch, charAt (lines oneCellMaze) k j = Ok ch ->
                  (forall c, In c [(0, 0)] -> ~ interior c k j) ->
                  charAt (lines oneCellStamped) k j = Ok ch) /\
  (forall c k j, interior c k j ->
                 k mod 2 = 1 /\ (j - Z.of_nat BUFFER) mod 3 <> 0).
Proof.
  apply (stamp_writes_interiors [(0, 0)] oneCellMaze oneCellStamped).
  vm_compute. reflexivity.
Defined.

(** X16 on the right cell of two cells with a passage between them. *)
Lemma styles_agree_witness :
  blockOpenUp (nth 0 (outputBlock false joinedPair) []) 1
  = floorOpen (nth 0 (outputASCII false true joinedPair) []) 1 /\
  blockOpenUp (nth 0 (outputBlock false joinedPair) []) 1
  = has (rowAt joinedPair 1) UP /\
  blockOpenLeft (nth 1 (outputBlock false joinedPair) []) 1
  = sepOpen (nth 1 (outputASCII false true joinedPair) []) 1 /\
  blockOpenLeft (nth 1 (outputBlock false joinedPair) []) 1
  = has (rowAt joinedPair 1) LEFT.
Proof.
  apply (styles_agree false true joinedPair 1).
  - exact wf_joinedPair.
  - exact hsym_joinedPair.
  - reflexivity.
  - reflexivity.
  - vm_compute. reflexivity.
  - cbn. lia.
Defined.

(** X17 on [oneCell]. *)
Lemma main_needs_a_cell_witness : (8 <= length (nth 1 oneCell []))%nat.
Proof.
  apply (main_needs_a_cell oneCell oneCellRun); vm_compute; reflexivity.
Defined.

(** X18 on two cells with a passage between them, both stamped. *)
Lemma read_ignores_markers_witness :
  read (lines twoCellsJoinedStamped) emptyMaze
  = Ok (with_lines (lines twoCellsJoinedStamped) twoCellsJoinedRead).
Proof.
  apply (read_ignores_markers twoCellsJoined twoCellsJoinedRead
                              [(0, 0); (1, 0)] twoCellsJoinedStamped).
  - vm_compute. reflexivity.
  - vm_compute. reflexivity.
  - vm_compute. reflexivity.
  - intros c [<-|[<-|[]]]; eexists; vm_compute; reflexivity.
  - vm_compute. reflexivity.
Defined.



End FurtherInstances.
